(** * preact-suspense: a Suspense boundary and a lazy loader for Preact

    Shallow embedding of [src/suspense.ts] and [src/lazy.ts].

    - [Js]: the JavaScript values the two files inspect (truthiness, the
      [then] property of an object, which is a method on a promise-like
      value but need not be one, the [default] field of a module object),
      and the two ways a promise-like value settles.
    - [SuspenseTs]: the [options.__e] hook, the [Suspense] class
      (constructor, [__c], the [onResolved] closure, [render]) over an
      explicit store of component instances, closures and [then]
      registrations.
    - [LazyTs]: the closure built by [lazy(load)]: [loadModule],
      [LazyComponent], [preload], over a store of promises.
    - [DiffHookTs]: the [options.__b] hook of [src/lazy.ts].

    Host behaviour that is not part of the repository (Preact's [setState],
    [createElement], the settlement of promises) is modelled by the small
    amount of state each needs and is documented where it is introduced. *)

From stdpp Require Import list gmap strings.
From Stdlib Require Import ZArith Lia Permutation.

Set Default Proof Using "Type".
#[local] Set Warnings "-register-all".
#[local] Open Scope Z_scope.

(* ===================================================================== *)
(** * JavaScript values *)
(* ===================================================================== *)

Module Js.

(** Identity of a promise-like object. *)
Abbreviation PromiseId := nat (only parsing).

(** A value that cannot be called: what a [then] property holds when it
    is not a method.  [NObject] is an object that is not a function. *)
Inductive NonCallable : Type :=
| NUndefined
| NNull
| NBoolean (b : bool)
| NNumber (n : Z)
| NString (s : string)
| NObject.

(** What the [then] property of an object holds: a function, which makes
    the object a thenable (named by its identity), or a value that is not
    a function. *)
Inductive ThenProperty : Type :=
| ThenMethod (p : PromiseId)
| ThenData (v : NonCallable).

(** The values that reach the code under study.  An object is described
    by the two properties the sources read from it, each absent ([None])
    or present: [then] and [default] (the default export of a module
    namespace object).  Functions, such as function components, carry
    neither.  Numbers are integers. *)
Inductive JsValue : Type :=
| JUndefined
| JNull
| JBoolean (b : bool)
| JNumber (n : Z)
| JString (s : string)
| JFunction (name : string)
| JObject (then_ : option ThenProperty) (default : option JsValue).

(** ToBoolean. *)
Definition truthy (v : JsValue) : bool :=
  match v with
  | JUndefined | JNull => false
  | JBoolean b => b
  | JNumber n => negb (n =? 0)
  | JString s => negb (String.eqb s "")
  | JFunction _ | JObject _ _ => true
  end.

(** [v.default] for a value [v] that is neither [null] nor [undefined]. *)
Definition get_default (v : JsValue) : JsValue :=
  match v with
  | JObject _ (Some d) => d
  | _ => JUndefined
  end.

(** [v.then] for a value [v] that is neither [null] nor [undefined];
    [None] is [undefined], which an absent property reads as. *)
Definition get_then (v : JsValue) : option ThenProperty :=
  match v with
  | JObject t _ => t
  | _ => None
  end.

(** ToBoolean of what a [then] property holds. *)
Definition data_truthy (v : NonCallable) : bool :=
  match v with
  | NUndefined | NNull => false
  | NBoolean b => b
  | NNumber n => negb (n =? 0)
  | NString s => negb (String.eqb s "")
  | NObject => true
  end.

Definition then_truthy (t : option ThenProperty) : bool :=
  match t with
  | Some (ThenMethod _) => true
  | Some (ThenData v) => data_truthy v
  | None => false
  end.

(** The thenable a value is, when its [then] is a method. *)
Definition thenable_of (v : JsValue) : option PromiseId :=
  match get_then v with
  | Some (ThenMethod p) => Some p
  | _ => None
  end.

(** [a && b] and [a || b] on values. *)
Definition js_and (a b : JsValue) : JsValue := if truthy a then b else a.
Definition js_or (a b : JsValue) : JsValue := if truthy a then a else b.

(** [v !== undefined]. *)
Definition is_defined (v : JsValue) : bool :=
  match v with JUndefined => false | _ => true end.

(** ToInt32, applied by the bitwise operators to their operands. *)
Definition toInt32 (n : Z) : Z := (n + 2 ^ 31) mod 2 ^ 32 - 2 ^ 31.

(** A promise-like value settles by fulfilling or by rejecting. *)
Inductive Outcome : Type := Fulfil | Reject.

#[global] Instance Outcome_eq_dec : EqDecision Outcome.
Proof. solve_decision. Defined.

End Js.

Import Js.

(* ===================================================================== *)
(** * src/suspense.ts *)
(* ===================================================================== *)

Module SuspenseTs.

(** [const MODE_HYDRATE = 1 << 5]. *)
Definition MODE_HYDRATE : Z := Z.shiftl 1 5.

(** Identity of a component instance and of a DOM node. *)
Abbreviation CompId := nat (only parsing).
Abbreviation Dom := nat (only parsing).

(** ** The host's tree nodes

    [InternalComponent]: the component instance behind a node.  Only an
    instance of [Suspense] carries the [__c] (_childDidSuspend) method.  *)
Inductive InternalComponent : Type :=
| SuspenseInstance (c : CompId)
| PlainComponent (name : string).

(** [k.__c] on a component instance: the handler, named by the instance
    it is a method of. *)
Definition _childDidSuspend (k : InternalComponent) : option CompId :=
  match k with
  | SuspenseInstance c => Some c
  | PlainComponent _ => None
  end.

(** [InternalVNode], with the names the source gives in its comment:
    [__] = _parent, [__c] = _component, [__e] = _dom, [__k] = _children,
    [__u] = _flags, [__h] = _hydrating.  An absent field is [None]; the
    parent link is owned by the host and forms a finite chain. *)
Inductive InternalVNode : Type := mkVNode {
  _parent : option InternalVNode;
  _component : option InternalComponent;
  _dom : option Dom;
  _children : option (list nat);
  _flags : option Z;
  _hydrating : option bool
}.

(** ** Renderable content *)

Inductive ElementType : Type :=
| Fragment
| Tag (name : string)
| FunctionComponent (name : string).

(** [ComponentChildren]; [CElement ty kids] is
    [createElement(ty, null, kids)]. *)
Inductive ComponentChildren : Type :=
| CUndefined
| CNull
| CBoolean (b : bool)
| CNumber (n : Z)
| CString (s : string)
| CElement (type : ElementType) (kids : ComponentChildren)
| CArray (items : list ComponentChildren).

Definition createElement (type : ElementType) (kids : ComponentChildren)
  : ComponentChildren := CElement type kids.

(** What the host draws for a piece of content: [null], [undefined] and
    booleans draw nothing, a fragment draws its children in place, an
    array draws its items in order.  The output of a function component
    is left opaque. *)
Inductive DomNode : Type :=
| DText (s : string)
| DNumber (n : Z)
| DElement (tag : string) (kids : list DomNode)
| DOpaque (component : string).

Fixpoint host_output (content : ComponentChildren) : list DomNode :=
  match content with
  | CUndefined | CNull | CBoolean _ => []
  | CNumber n => [DNumber n]
  | CString s => [DText s]
  | CElement Fragment kids => host_output kids
  | CElement (Tag t) kids => [DElement t (host_output kids)]
  | CElement (FunctionComponent f) _ => [DOpaque f]
  | CArray items => flat_map host_output items
  end.

(** ** The Suspense class *)

Record SuspenseProps : Type := {
  fallback : ComponentChildren;   (* [CUndefined] when omitted *)
  children : ComponentChildren
}.

Record SuspenseState : Type := { suspended : bool }.

(** An instance: its props, the private [_pendingCount] (an integer, far
    from the range where a JavaScript number stops being exact),
    [this.state], and the calls of [setState] made on it so far, oldest
    first (each asks the host for a re-render of the instance). *)
Record Suspense : Type := {
  props : SuspenseProps;
  _pendingCount : Z;
  state : SuspenseState;
  setState_calls : list SuspenseState
}.

(** [constructor(props)]: [_pendingCount = 0], [state = { suspended: false }]. *)
Definition constructor (p : SuspenseProps) : Suspense :=
  {| props := p;
     _pendingCount := 0;
     state := {| suspended := false |};
     setState_calls := [] |}.

(** Preact's [setState(update)]: the update becomes the state the next
    render reads, and a re-render is requested. *)
Definition setState (update : SuspenseState) (s : Suspense) : Suspense :=
  {| props := props s;
     _pendingCount := _pendingCount s;
     state := update;
     setState_calls := setState_calls s ++ [update] |}.

Definition set_pendingCount (n : Z) (s : Suspense) : Suspense :=
  {| props := props s;
     _pendingCount := n;
     state := state s;
     setState_calls := setState_calls s |}.

(** [render()]. *)
Definition render (s : Suspense) : ComponentChildren :=
  if suspended (state s) then
    match fallback (props s) with
    | CUndefined | CNull => CNull                       (* fallback != null fails *)
    | f => createElement Fragment f
    end
  else createElement Fragment (children (props s)).

(** ** The store

    The environment of one [onResolved] closure: the instance [c] it
    captured and its [resolved] flag. *)
Record OnResolvedEnv : Type := {
  env_c : CompId;
  env_resolved : bool
}.

(** One call [promise.then(onFulfilled, onRejected)]: the thenable and the
    two callbacks, each named by its closure. *)
Record Then : Type := {
  thenable : PromiseId;
  onFulfilled : nat;
  onRejected : nat
}.

(** The arguments of one call of the previously installed hook. *)
Definition HookArgs : Type :=
  (JsValue * InternalVNode * InternalVNode * JsValue)%type.

(** The [onResolved] closures are kept in two lists: [closures] holds
    those that were passed to a [then], in the order they were created;
    [unregistered] holds those created by a call of [__c] whose
    [promise.then(...)] threw, so that nobody holds them and they never
    run. *)
Record World : Type := {
  oldCatchError : bool;          (* was a hook installed before this one? *)
  instances : list Suspense;     (* Suspense instances, by identity *)
  closures : list OnResolvedEnv; (* onResolved closures passed to a then *)
  thens : list Then;             (* registrations made by __c, oldest first *)
  oldCatchError_calls : list HookArgs; (* calls forwarded to the old hook *)
  unregistered : list OnResolvedEnv    (* onResolved closures passed to nobody *)
}.

Definition init (old : bool) : World :=
  {| oldCatchError := old; instances := []; closures := [];
     thens := []; oldCatchError_calls := []; unregistered := [] |}.

Definition with_instances (f : list Suspense -> list Suspense) (w : World) : World :=
  {| oldCatchError := oldCatchError w; instances := f (instances w);
     closures := closures w; thens := thens w;
     oldCatchError_calls := oldCatchError_calls w;
     unregistered := unregistered w |}.

Definition with_closures (f : list OnResolvedEnv -> list OnResolvedEnv) (w : World) : World :=
  {| oldCatchError := oldCatchError w; instances := instances w;
     closures := f (closures w); thens := thens w;
     oldCatchError_calls := oldCatchError_calls w;
     unregistered := unregistered w |}.

Definition with_thens (f : list Then -> list Then) (w : World) : World :=
  {| oldCatchError := oldCatchError w; instances := instances w;
     closures := closures w; thens := f (thens w);
     oldCatchError_calls := oldCatchError_calls w;
     unregistered := unregistered w |}.

Definition with_old_call (a : HookArgs) (w : World) : World :=
  {| oldCatchError := oldCatchError w; instances := instances w;
     closures := closures w; thens := thens w;
     oldCatchError_calls := oldCatchError_calls w ++ [a];
     unregistered := unregistered w |}.

Definition with_unregistered (f : list OnResolvedEnv -> list OnResolvedEnv) (w : World) : World :=
  {| oldCatchError := oldCatchError w; instances := instances w;
     closures := closures w; thens := thens w;
     oldCatchError_calls := oldCatchError_calls w;
     unregistered := f (unregistered w) |}.

(** [new Suspense(props)]. *)
Definition new_Suspense (p : SuspenseProps) (w : World) : World :=
  with_instances (fun l => l ++ [constructor p]) w.

(** ** [__c] and its closure *)

(** [!!(v.__u && (v.__u & MODE_HYDRATE)) || !!v.__h]. *)
Definition isHydrating (suspendingVNode : InternalVNode) : bool :=
  match _flags suspendingVNode with
  | Some u => negb (u =? 0) && negb (Z.land (toInt32 u) MODE_HYDRATE =? 0)
  | None => false
  end
  || match _hydrating suspendingVNode with
     | Some h => h
     | None => false
     end.

(** What [onResolved] does to the instance it captured, once past its
    [resolved] guard: [c._pendingCount--], and when the count is [<= 0],
    [c._pendingCount = 0; c.setState({ suspended: false })]. *)
Definition onResolved_c (s : Suspense) : Suspense :=
  let s1 := set_pendingCount (_pendingCount s - 1) s in
  if _pendingCount s1 <=? 0
  then setState {| suspended := false |} (set_pendingCount 0 s1)
  else s1.

(** The closure [onResolved], named by its environment [h]. *)
Definition onResolved (h : nat) (w : World) : World :=
  match closures w !! h with
  | None => w
  | Some env =>
      if env_resolved env then w
      else
        let w1 :=
          with_closures
            (fun l => <[h := {| env_c := env_c env; env_resolved := true |}]> l) w in
        with_instances (alter onResolved_c (env_c env)) w1
  end.

(** What [__c] does to [this] before it registers the callbacks:
    [c._pendingCount++], then [c.setState({ suspended: true })] unless
    hydrating. *)
Definition suspend_c (hydrating : bool) (s : Suspense) : Suspense :=
  let s1 := set_pendingCount (_pendingCount s + 1) s in
  if hydrating then s1 else setState {| suspended := true |} s1.

(** The method [__c(promise, suspendingVNode)] of the instance [c],
    called with a thenable: [promise.then] is a method, and line 108
    registers the closure with it. *)
Definition __c (c : CompId) (promise : PromiseId)
    (suspendingVNode : InternalVNode) (w : World) : World :=
  match instances w !! c with
  | None => w
  | Some _ =>
      let h := length (closures w) in
      let w1 := with_closures
                  (fun l => l ++ [{| env_c := c; env_resolved := false |}]) w in
      let w2 := with_instances
                  (alter (suspend_c (isHydrating suspendingVNode)) c) w1 in
      with_thens
        (fun l => l ++ [{| thenable := promise; onFulfilled := h; onRejected := h |}])
        w2
  end.

(** The same method called with a value whose [then] is not a function:
    the closure is created, the count incremented and [setState] called
    as above, and [promise.then(onResolved, onResolved)] on line 108
    throws a TypeError.  Nothing is registered, and the closure is passed
    to nobody. *)
Definition __c_throws (c : CompId) (suspendingVNode : InternalVNode)
    (w : World) : World :=
  match instances w !! c with
  | None => w
  | Some _ =>
      let w1 := with_unregistered
                  (fun l => l ++ [{| env_c := c; env_resolved := false |}]) w in
      with_instances (alter (suspend_c (isHydrating suspendingVNode)) c) w1
  end.

(** How a call ends. *)
Inductive Completion : Type := Returns | ThrowsTypeError.

(** The call [k.__c(err, newVNode)] for any value [err]. *)
Definition call__c (k : CompId) (err : JsValue)
    (suspendingVNode : InternalVNode) (w : World) : World :=
  match thenable_of err with
  | Some p => __c k p suspendingVNode w
  | None => __c_throws k suspendingVNode w
  end.

Definition call__c_completion (err : JsValue) : Completion :=
  match thenable_of err with
  | Some _ => Returns
  | None => ThrowsTypeError
  end.

(** ** Settlement

    When a thenable settles it calls, for each registration made on it and
    in the order they were made, the callback for the way it settled.

    A [Settle p o] event of a history (below) is that moment.  A thenable
    is not bound to do so once, which is what the [resolved] guard of
    [onResolved] is for.  A native promise that has settled already when
    [__c] registers on it calls the new callbacks in the next microtask:
    in a history that is a further [Settle] event, after the
    registration. *)
Definition callback (o : Outcome) (t : Then) : nat :=
  match o with
  | Fulfil => onFulfilled t
  | Reject => onRejected t
  end.

Definition react (p : PromiseId) (o : Outcome) (w : World) (t : Then) : World :=
  if decide (thenable t = p) then onResolved (callback o t) w else w.

Definition settle (p : PromiseId) (o : Outcome) (w : World) : World :=
  foldl (react p o) w (thens w).

(** ** The [options.__e] hook *)

(** [v.__c && v.__c.__c]: the registration handler a node exposes, if
    any. *)
Definition handler_of (v : InternalVNode) : option CompId :=
  _component v ≫= _childDidSuspend.

(** The loop [while ((v = v.__)) { if (v.__c && v.__c.__c) ... }]: the
    handler of the nearest proper ancestor that has one. *)
Fixpoint nearest_handler (v : InternalVNode) : option CompId :=
  match v with
  | mkVNode parent _ _ _ _ _ =>
      match parent with
      | None => None
      | Some a =>
          match handler_of a with
          | Some k => Some k
          | None => nearest_handler a
          end
      end
  end.

(** [if (newVNode.__e == null) { newVNode.__e = oldVNode.__e;
    newVNode.__k = oldVNode.__k }]. *)
Definition preserve_dom (newVNode oldVNode : InternalVNode) : InternalVNode :=
  match _dom newVNode with
  | Some _ => newVNode
  | None =>
      {| _parent := _parent newVNode;
         _component := _component newVNode;
         _dom := _dom oldVNode;
         _children := _children oldVNode;
         _flags := _flags newVNode;
         _hydrating := _hydrating newVNode |}
  end.

(** [err && err.then], as the condition of the [if]: both are tested
    for truthiness only. *)
Definition err_and_then (err : JsValue) : bool :=
  truthy err && then_truthy (get_then err).

(** The call the hook ends in: [v.__c.__c(err, newVNode)], the old hook,
    or none. *)
Inductive HookCall : Type :=
| Call__c (k : CompId) (err : JsValue) (suspendingVNode : InternalVNode)
| CallOld (args : HookArgs)
| NoCall.

Definition options__e (old : bool) (err : JsValue)
    (newVNode oldVNode : InternalVNode) (errorInfo : JsValue) : HookCall :=
  let otherwise :=
    if old then CallOld (err, newVNode, oldVNode, errorInfo) else NoCall in
  if err_and_then err then
    match nearest_handler newVNode with
    | Some k => Call__c k err (preserve_dom newVNode oldVNode)
    | None => otherwise
    end
  else otherwise.

(** The host raising [err] through the hook: the store once the hook has
    returned or thrown. *)
Definition catchError (err : JsValue) (newVNode oldVNode : InternalVNode)
    (errorInfo : JsValue) (w : World) : World :=
  match options__e (oldCatchError w) err newVNode oldVNode errorInfo with
  | Call__c k e v => call__c k e v w
  | CallOld args => with_old_call args w
  | NoCall => w
  end.

(** How the hook ends: it throws when the [__c] it calls does; the old
    hook is taken to return. *)
Definition catchError_completion (old : bool) (err : JsValue)
    (newVNode oldVNode : InternalVNode) (errorInfo : JsValue) : Completion :=
  match options__e old err newVNode oldVNode errorInfo with
  | Call__c _ e _ => call__c_completion e
  | _ => Returns
  end.

(** ** Histories *)

Inductive Event : Type :=
| New (p : SuspenseProps)
| Raise (err : JsValue) (newVNode oldVNode : InternalVNode) (errorInfo : JsValue)
| Suspend (c : CompId) (promise : PromiseId) (suspendingVNode : InternalVNode)
| Settle (p : PromiseId) (o : Outcome).

Definition step (w : World) (e : Event) : World :=
  match e with
  | New p => new_Suspense p w
  | Raise err n o i => catchError err n o i w
  | Suspend c p v => __c c p v w
  | Settle p o => settle p o w
  end.

Definition run (evs : list Event) (w : World) : World := foldl step w evs.

(** ** Observations on an instance *)

Definition is_suspended (w : World) (c : CompId) : option bool :=
  (fun s => suspended (state s)) <$> instances w !! c.

Definition pendingCount (w : World) (c : CompId) : option Z :=
  _pendingCount <$> instances w !! c.

(** Number of [setState({ suspended: false })] calls made on [c]. *)
Definition resumes (w : World) (c : CompId) : nat :=
  match instances w !! c with
  | Some s => length (filter (fun u => suspended u = false) (setState_calls s))
  | None => 0%nat
  end.

(** Number of closures that captured [c] and have not run yet, among
    those passed to a [then] and those passed to nobody. *)
Definition is_live (c : CompId) (e : OnResolvedEnv) : bool :=
  bool_decide (env_c e = c) && negb (env_resolved e).

Definition count_live (c : CompId) (l : list OnResolvedEnv) : nat :=
  length (filter (fun e => is_live c e = true) l).

Definition live (w : World) (c : CompId) : nat :=
  (count_live c (closures w) + count_live c (unregistered w))%nat.

(** ** Consistency of a store

    Every instance counts exactly the closures that captured it and have
    not run; every closure captured an existing instance; the i-th
    registration passed the i-th closure as both callbacks. *)
Record wf (w : World) : Prop := {
  wf_count : forall c s,
    instances w !! c = Some s -> _pendingCount s = Z.of_nat (live w c);
  wf_owner : forall h e,
    closures w !! h = Some e -> (env_c e < length (instances w))%nat;
  wf_len : length (thens w) = length (closures w);
  wf_slots : forall i t,
    thens w !! i = Some t -> onFulfilled t = i /\ onRejected t = i;
  wf_unregistered : forall h e,
    unregistered w !! h = Some e ->
    (env_c e < length (instances w))%nat /\ env_resolved e = false
}.


(** The node is in a hydration pass: its flags contain the hydrate bit
    (bit 5), or its hydrating marker is [true]. *)
Definition in_hydration_pass (v : InternalVNode) : Prop :=
  (exists u, _flags v = Some u /\ Z.testbit u 5 = true) \/
  _hydrating v = Some true.

(** An event that can occur while every suspension comes from a
    hydration pass. *)
Definition hydration_event (e : Event) : bool :=
  match e with
  | New _ | Settle _ _ => true
  | Suspend _ _ v => isHydrating v
  | Raise _ n _ _ => isHydrating n
  end.

(** The histories of one pass: the signals [sigs] registered on [c], and
    the settlements [qs]. *)
Definition suspensions (c : CompId) (sigs : list (PromiseId * InternalVNode))
  : list Event := (fun s => Suspend c s.1 s.2) <$> sigs.

Definition settlements (qs : list (PromiseId * Outcome)) : list Event :=
  (fun q => Settle q.1 q.2) <$> qs.

(** The environment of a closure after it ran. *)
Definition ran (e : OnResolvedEnv) : OnResolvedEnv :=
  {| env_c := env_c e; env_resolved := true |}.

(** The environment of a closure after the signal [p] settled, given the
    registration made with that closure. *)
Definition ran_if (p : PromiseId) (t : option Then) (e : OnResolvedEnv)
  : OnResolvedEnv :=
  match t with
  | Some t => if decide (thenable t = p) then ran e else e
  | None => e
  end.

(** The closures of [c] that have not run are registered on signals of
    [U], every signal of [U] has such a closure, and no closure of [c] was
    passed to nobody. *)
Definition waits_on (w : World) (c : CompId) (U : list PromiseId) : Prop :=
  (forall i e t,
      closures w !! i = Some e -> is_live c e = true ->
      thens w !! i = Some t -> thenable t ∈ U) /\
  (forall p, p ∈ U ->
      exists i e t,
        closures w !! i = Some e /\ is_live c e = true /\
        thens w !! i = Some t /\ thenable t = p) /\
  count_live c (unregistered w) = 0%nat.

(** Relative to [r0] resumes: suspended with no further resume while a
    closure of [c] has not run, resumed exactly once more when all have. *)
Definition resumed_once (r0 : nat) (c : CompId) (w : World) : Prop :=
  ((0 < live w c)%nat /\ is_suspended w c = Some true /\ resumes w c = r0) \/
  (live w c = 0%nat /\ is_suspended w c = Some false /\ resumes w c = S r0).

(** Relative to a starting store [w0], the flag of [c] is either what it
    was or has been cleared with the count at zero. *)
Definition same_or_cleared (w0 : World) (c : CompId) (w : World) : Prop :=
  is_suspended w c = is_suspended w0 c \/
  (is_suspended w c = Some false /\ pendingCount w c = Some 0).

(** A node with no parent and no field set, and the props
    [{ fallback: "Loading...", children: <Child /> }]. *)
Definition bare_vnode : InternalVNode :=
  {| _parent := None; _component := None; _dom := None; _children := None;
     _flags := None; _hydrating := None |}.

Definition loading_props : SuspenseProps :=
  {| fallback := CString "Loading...";
     children := CElement (FunctionComponent "Child") CUndefined |}.

(** The proper ancestors of a node, nearest first. *)
Fixpoint ancestors (v : InternalVNode) : list InternalVNode :=
  match v with
  | mkVNode parent _ _ _ _ _ =>
      match parent with
      | None => []
      | Some a => a :: ancestors a
      end
  end.

(** ** Passes

    A pass on [c]: the signals it registers, then the settlements that
    follow; it is complete when it registers a signal and every signal it
    registers is among those that settle. *)
Definition Pass : Type :=
  (list (PromiseId * InternalVNode) * list (PromiseId * Outcome))%type.

Definition pass_events (c : CompId) (ps : Pass) : list Event :=
  suspensions c ps.1 ++ settlements ps.2.

Definition passes_events (c : CompId) (l : list Pass) : list Event :=
  flat_map (pass_events c) l.

Definition complete (ps : Pass) : Prop :=
  ps.1 <> [] /\ forall p, p ∈ ps.1.*1 -> p ∈ ps.2.*1.

(** The event is a settlement of the signal [p]. *)
Definition settles (p : PromiseId) (e : Event) : bool :=
  match e with
  | Settle q _ => bool_decide (q = p)
  | _ => false
  end.

(** No event of the history is a settlement of [p]: [p] is still pending
    when the history ends. *)
Definition pending_after (evs : list Event) (p : PromiseId) : bool :=
  forallb (fun e => negb (settles p e)) evs.

(** No count is negative, and a suspended instance has a positive count. *)
Definition healthy (w : World) : Prop :=
  Forall (fun s => 0 <= _pendingCount s /\
                   (suspended (state s) = true -> 0 < _pendingCount s))
         (instances w).

(** Relative to [r0] resumes: no further [setState({ suspended: false })]
    while a closure of [c] has not run, exactly one more when all have. *)
Definition resume_counted (r0 : nat) (c : CompId) (w : World) : Prop :=
  ((0 < live w c)%nat /\ resumes w c = r0) \/
  (live w c = 0%nat /\ resumes w c = S r0).

(** What [render] returns for a suspended instance with the props [p], and
    for one that is not suspended. *)
Definition fallback_output (p : SuspenseProps) : ComponentChildren :=
  match fallback p with
  | CUndefined | CNull => CNull
  | f => createElement Fragment f
  end.

Definition children_output (p : SuspenseProps) : ComponentChildren :=
  createElement Fragment (children p).

(** The signal [p] is registered on [c] by the closure [h], which has not
    run, and [c] is suspended. *)
Definition held_by (c : CompId) (p : PromiseId) (h : nat) (w : World) : Prop :=
  wf w /\
  closures w !! h = Some {| env_c := c; env_resolved := false |} /\
  (exists t, thens w !! h = Some t /\ thenable t = p) /\
  is_suspended w c = Some true.

End SuspenseTs.

(* ===================================================================== *)
(** * src/lazy.ts *)
(* ===================================================================== *)

Module LazyTs.

(** Identity of a mounted instance of [LazyComponent]: it names the hook
    cells ([useState], [useRef]) the host keeps for that instance. *)
Abbreviation InstId := nat (only parsing).

(** A props object. *)
Definition Props : Type := list (string * JsValue).

(** The element [createElement(type, props)].  [createElement] is the
    host's: what it builds from its arguments (whether a [key] or [ref]
    entry of the props object stays among the element's props or becomes
    a field of the element) is not part of the repository.  An element is
    therefore the call that made it, with the type and the props object
    passed, and is not taken apart. *)
Inductive VNode : Type :=
| createElement (type : JsValue) (props : Props).

(** ** Promises *)

Inductive PState : Type :=
| Pending
| Fulfilled (value : JsValue)
| Rejected (reason : JsValue).

(** The two functions [lazy.ts] passes to [then]. *)
Inductive Callback : Type :=
| CbLoadModule               (* (m) => { component = (m && m.default) || m; return component } *)
| CbUpdate (i : InstId).     (* () => update(1) *)

(** One call [source.then(onFulfilled)] and the promise it returned.
    [lazy.ts] never passes a rejection callback. *)
Record Then : Type := {
  source : PromiseId;
  onFulfilled : Callback;
  derived : PromiseId
}.

(** The variables [promise] and [component] that one call of [lazy(load)]
    closes over, the promises allocated so far with their registrations,
    the [ref.current] cell of every instance mounted so far, and two
    logs: the promises returned by the calls of [load], and the instances
    on which [update(1)] was called. *)
Record World : Type := {
  promise : option PromiseId;
  component : JsValue;
  heap : list PState;
  thens : list Then;
  refs : gmap InstId JsValue;
  load_calls : list PromiseId;
  update_calls : list InstId
}.

(** The state right after [lazy(load)] returns. *)
Definition init : World :=
  {| promise := None; component := JUndefined; heap := []; thens := [];
     refs := ∅; load_calls := []; update_calls := [] |}.

Definition set_promise (p : PromiseId) (w : World) : World :=
  {| promise := Some p; component := component w; heap := heap w;
     thens := thens w; refs := refs w; load_calls := load_calls w;
     update_calls := update_calls w |}.

Definition set_component (v : JsValue) (w : World) : World :=
  {| promise := promise w; component := v; heap := heap w;
     thens := thens w; refs := refs w; load_calls := load_calls w;
     update_calls := update_calls w |}.

Definition with_heap (f : list PState -> list PState) (w : World) : World :=
  {| promise := promise w; component := component w; heap := f (heap w);
     thens := thens w; refs := refs w; load_calls := load_calls w;
     update_calls := update_calls w |}.

Definition set_ref (i : InstId) (v : JsValue) (w : World) : World :=
  {| promise := promise w; component := component w; heap := heap w;
     thens := thens w; refs := <[i := v]> (refs w);
     load_calls := load_calls w; update_calls := update_calls w |}.

Definition log_load (p : PromiseId) (w : World) : World :=
  {| promise := promise w; component := component w; heap := heap w;
     thens := thens w; refs := refs w; load_calls := load_calls w ++ [p];
     update_calls := update_calls w |}.

Definition log_update (i : InstId) (w : World) : World :=
  {| promise := promise w; component := component w; heap := heap w;
     thens := thens w; refs := refs w; load_calls := load_calls w;
     update_calls := update_calls w ++ [i] |}.

(** A new pending promise. *)
Definition alloc (w : World) : PromiseId * World :=
  (length (heap w), with_heap (fun h => h ++ [Pending]) w).

(** [p.then(cb)]: registers [cb] and returns a new promise. *)
Definition then_ (p : PromiseId) (cb : Callback) (w : World) : PromiseId * World :=
  let '(d, w1) := alloc w in
  (d,
   {| promise := promise w1; component := component w1; heap := heap w1;
      thens := thens w1 ++ [{| source := p; onFulfilled := cb; derived := d |}];
      refs := refs w1; load_calls := load_calls w1;
      update_calls := update_calls w1 |}).

(** The caller's [load()]: it returns a promise, which the caller settles
    later. *)
Definition load (w : World) : PromiseId * World :=
  let '(l, w1) := alloc w in (l, log_load l w1).

(** ** The closure of [lazy(load)] *)

(** [(m && m.default) || m]. *)
Definition default_or_self (m : JsValue) : JsValue :=
  js_or (js_and m (get_default m)) m.

(** [loadModule = () => load().then((m) => { component = ...; return component })]. *)
Definition loadModule (w : World) : PromiseId * World :=
  let '(l, w1) := load w in then_ l CbLoadModule w1.

(** [if (!promise) promise = loadModule()], giving [promise]. *)
Definition ensure_promise (w : World) : PromiseId * World :=
  match promise w with
  | Some p => (p, w)
  | None => let '(p, w1) := loadModule w in (p, set_promise p w1)
  end.

(** [preload = () => { if (!promise) promise = loadModule(); return promise }]. *)
Definition preload (w : World) : PromiseId * World := ensure_promise w.

(** How a render attempt ends. *)
Inductive Completion : Type :=
| Return (v : VNode)
| Throw (p : PromiseId).

(** [useRef(component)]: the cell of instance [i], created with the current
    value of [component] on the first render of [i]. *)
Definition useRef (i : InstId) (w : World) : JsValue * World :=
  match refs w !! i with
  | Some cur => (cur, w)
  | None => (component w, set_ref i (component w) w)
  end.

(** [LazyComponent(props)], rendered as instance [i].  The state of
    [useState(0)] is never read; its setter [update] is named by the
    instance. *)
Definition LazyComponent (i : InstId) (p : Props) (w : World) : Completion * World :=
  let '(current, w1) := useRef i w in
  let '(pr, w2) := ensure_promise w1 in
  if is_defined (component w2) then (Return (createElement (component w2) p), w2)
  else if negb (truthy current) then
    let w3 := set_ref i JUndefined w2 in
    let '(_, w4) := then_ pr (CbUpdate i) w3 in
    (Throw pr, w4)
  else (Throw pr, w2).

(** ** Settlement

    A callback run with the value its promise was fulfilled with: its
    effect and the value it returns (which fulfils the promise [then]
    returned: a component is not itself promise-like). *)
Definition run_callback (cb : Callback) (v : JsValue) (w : World) : JsValue * World :=
  match cb with
  | CbLoadModule =>
      let c := default_or_self v in (c, set_component c w)
  | CbUpdate i => (JUndefined, log_update i w)
  end.

Definition set_state (p : PromiseId) (s : PState) (w : World) : World :=
  with_heap (fun h => <[p := s]> h) w.

(** A registration reacts when its source has settled and the promise it
    returned is still pending: on fulfilment the callback runs and its
    result fulfils the returned promise, on rejection the reason is passed
    on. *)
Definition react (w : World) (t : Then) : World :=
  match heap w !! derived t with
  | Some Pending =>
      match heap w !! source t with
      | Some (Fulfilled v) =>
          let '(r, w1) := run_callback (onFulfilled t) v w in
          set_state (derived t) (Fulfilled r) w1
      | Some (Rejected e) => set_state (derived t) (Rejected e) w
      | _ => w
      end
  | _ => w
  end.

(** The host empties its queue of reactions; a registration is always
    made after its source was allocated, so one pass in registration
    order reaches every promise. *)
Definition drain (w : World) : World := foldl react w (thens w).

(** The caller settles a promise its [load] returned. *)
Definition settle (l : PromiseId) (o : Outcome) (v : JsValue) (w : World) : World :=
  if bool_decide (l ∈ load_calls w) then
    match heap w !! l with
    | Some Pending =>
        set_state l (match o with Fulfil => Fulfilled v | Reject => Rejected v end) w
    | _ => w
    end
  else w.

(** ** Histories *)

Inductive Event : Type :=
| Render (i : InstId) (p : Props)
| Preload
| Settle (l : PromiseId) (o : Outcome) (v : JsValue).

Inductive Result : Type :=
| Rendered (c : Completion)
| Preloaded (p : PromiseId)
| Settled.

(** One event, followed by the host emptying its queue. *)
Definition exec (e : Event) (w : World) : Result * World :=
  match e with
  | Render i p => let '(c, w1) := LazyComponent i p w in (Rendered c, drain w1)
  | Preload => let '(q, w1) := preload w in (Preloaded q, drain w1)
  | Settle l o v => (Settled, drain (settle l o v w))
  end.

Fixpoint run (evs : list Event) (w : World) : World :=
  match evs with
  | [] => w
  | e :: rest => run rest (exec e w).2
  end.

Fixpoint results (evs : list Event) (w : World) : list Result :=
  match evs with
  | [] => []
  | e :: rest => (exec e w).1 :: results rest (exec e w).2
  end.

(** ** The life of one lazy wrapper

    The registration made by [loadModule]: the promise returned by [load]
    is the first one allocated, the one [then] returns the second. *)
Definition loadModule_then : Then :=
  {| source := 0; onFulfilled := CbLoadModule; derived := 1 |}.

(** The load has been started: [promise] holds the promise [loadModule]
    returned, [load] was called once, every registration returned the
    promise allocated right after the previous one, and every registration
    after the first is a [() => update(1)] on [promise]. *)
Record started (w : World) : Prop := {
  st_promise : promise w = Some 1%nat;
  st_loads : load_calls w = [0%nat];
  st_heap : length (heap w) = S (length (thens w));
  st_first : thens w !! 0%nat = Some loadModule_then;
  st_derived : forall j t, thens w !! j = Some t -> derived t = S j;
  st_rest : forall j t,
    thens w !! S j = Some t ->
    source t = 1%nat /\ exists i, onFulfilled t = CbUpdate i
}.

(** The instances whose [() => update(1)] is among the registrations. *)
Definition updates_of (l : list Then) : list nat :=
  omap (fun t => match onFulfilled t with
                 | CbUpdate i => Some i
                 | CbLoadModule => None
                 end) l.

(** The load is in flight. *)
Definition loading (w : World) : Prop :=
  started w /\ Forall (fun s => s = Pending) (heap w) /\
  component w = JUndefined /\ update_calls w = [].

(** The load was rejected with [e]. *)
Definition failed (e : JsValue) (w : World) : Prop :=
  started w /\ Forall (fun s => s = Rejected e) (heap w) /\
  component w = JUndefined /\ update_calls w = [].

(** The load was fulfilled with [m]. *)
Definition loaded (m : JsValue) (w : World) : Prop :=
  started w /\
  heap w !! 0%nat = Some (Fulfilled m) /\
  heap w !! 1%nat = Some (Fulfilled (default_or_self m)) /\
  (forall q s, (2 <= q)%nat -> heap w !! q = Some s -> s = Fulfilled JUndefined) /\
  component w = default_or_self m /\
  update_calls w = updates_of (thens w).

(** A [ref.current] cell holds [undefined] as long as [component] does. *)
Definition refs_ok (w : World) : Prop :=
  forall i v, refs w !! i = Some v -> v = JUndefined \/ is_defined (component w) = true.

(** After the load started, the wrapper is in one of three phases. *)
Definition phase (w : World) : Prop :=
  loading w \/ (exists e, failed e w) \/ (exists m, loaded m w).

Definition inv (w : World) : Prop := refs_ok w /\ (w = init \/ phase w).

(** Two stores that differ at most in the [ref.current] cells. *)
Definition same_but_refs (w w' : World) : Prop :=
  promise w' = promise w /\ component w' = component w /\
  heap w' = heap w /\ thens w' = thens w /\
  load_calls w' = load_calls w /\ update_calls w' = update_calls w.

(** The result hands the promise [q] to the caller: [preload()] returned
    it, or a render attempt threw it. *)
Definition names_promise (q : PromiseId) (r : Result) : Prop :=
  r = Preloaded q \/ r = Rendered (Throw q).

(** [m && m.default] is truthy: the value exposes a default export. *)
Definition exposes_default (m : JsValue) : bool :=
  truthy (js_and m (get_default m)).

(** An event that starts the load if it has not started. *)
Definition starts_load (e : Event) : bool :=
  match e with
  | Render _ _ | Preload => true
  | Settle _ _ _ => false
  end.

(** The module object [{ default: X }]. *)
Definition module_with_default (X : JsValue) : JsValue := JObject None (Some X).

(** The instances of the render attempts of a history that threw, in
    order. *)
Fixpoint suspended_renders (evs : list Event) (w : World) : list InstId :=
  match evs with
  | [] => []
  | e :: rest =>
      match e, (exec e w).1 with
      | Render i _, Rendered (Throw _) => [i]
      | _, _ => []
      end ++ suspended_renders rest (exec e w).2
  end.

End LazyTs.

(* ===================================================================== *)
(** * src/lazy.ts: the [options.__b] hook *)
(* ===================================================================== *)

Module DiffHookTs.
Import LazyTs.

(** The [type] of an element as the hook reads it: absent, a tag name, or
    a function with its [_forwarded] property. *)
Inductive NodeType : Type :=
| NoType
| TagName (name : string)
| FunctionType (displayName : string) (_forwarded : JsValue).

(** ToBoolean of [vnode.type]. *)
Definition type_truthy (ty : NodeType) : bool :=
  match ty with
  | NoType => false
  | TagName s => negb (String.eqb s "")
  | FunctionType _ _ => true
  end.

(** [vnode.type._forwarded], for a [type] that is neither [null] nor
    [undefined]. *)
Definition get_forwarded (ty : NodeType) : JsValue :=
  match ty with
  | FunctionType _ f => f
  | _ => JUndefined
  end.

(** The element the host is about to diff: [type], [props], [ref]. *)
Record VNode : Type := {
  type : NodeType;
  props : Props;
  ref : JsValue
}.

(** [props[k]] and [props[k] = v] on a props object. *)
Fixpoint get_prop (k : string) (p : Props) : JsValue :=
  match p with
  | [] => JUndefined
  | (k', v') :: rest => if String.eqb k' k then v' else get_prop k rest
  end.

Fixpoint set_prop (k : string) (v : JsValue) (p : Props) : Props :=
  match p with
  | [] => [(k, v)]
  | (k', v') :: rest =>
      if String.eqb k' k then (k, v) :: rest else (k', v') :: set_prop k v rest
  end.

(** [vnode.type && vnode.type._forwarded && vnode.ref]. *)
Definition forwards (vnode : VNode) : bool :=
  type_truthy (type vnode) && truthy (get_forwarded (type vnode))
  && truthy (ref vnode).

(** The hook installed on [options.__b]: the element after the hook, and
    the element the previously installed hook is called with, if there was
    one. *)
Definition options__b (oldDiff : bool) (vnode : VNode) : VNode * option VNode :=
  let vnode' :=
    if forwards vnode then
      {| type := type vnode;
         props := set_prop "ref" (ref vnode) (props vnode);
         ref := JNull |}
    else vnode in
  (vnode', if oldDiff then Some vnode' else None).

(** The type of the component [lazy(load)] returns:
    [_forwarded = true; displayName = 'Lazy']. *)
Definition Lazy : NodeType := FunctionType "Lazy" (JBoolean true).

End DiffHookTs.

(* ===================================================================== *)
(** * Properties of src/suspense.ts *)
(* ===================================================================== *)

Module SuspenseFacts.
Import SuspenseTs.

(** ** The two state changes of an instance *)

Lemma onResolved_c_cases (s : Suspense) :
  (0 < _pendingCount s - 1 /\
   onResolved_c s = set_pendingCount (_pendingCount s - 1) s)
  \/
  (_pendingCount s - 1 <= 0 /\
   onResolved_c s =
     setState {| suspended := false |}
       (set_pendingCount 0 (set_pendingCount (_pendingCount s - 1) s))).
Proof.
  unfold onResolved_c; cbn [set_pendingCount _pendingCount].
  destruct (Z.leb_spec (_pendingCount s - 1) 0); [right | left]; split; auto || lia.
Qed.

Lemma onResolved_c_count (s : Suspense) :
  _pendingCount (onResolved_c s) = Z.max 0 (_pendingCount s - 1).
Proof.
  destruct (onResolved_c_cases s) as [[H ->] | [H ->]]; cbn; lia.
Qed.

Lemma onResolved_c_suspended (s : Suspense) :
  suspended (state (onResolved_c s)) =
    if _pendingCount s - 1 <=? 0 then false else suspended (state s).
Proof.
  unfold onResolved_c; cbn [set_pendingCount _pendingCount].
  destruct (_pendingCount s - 1 <=? 0); reflexivity.
Qed.


Lemma suspend_c_count (h : bool) (s : Suspense) :
  _pendingCount (suspend_c h s) = _pendingCount s + 1.
Proof. destruct h; reflexivity. Qed.

Lemma suspend_c_suspended (h : bool) (s : Suspense) :
  suspended (state (suspend_c h s)) = if h then suspended (state s) else true.
Proof. destruct h; reflexivity. Qed.

(** ** Reading the store after an operation *)

Lemma instances_onResolved (h : nat) (w : World) :
  instances (onResolved h w) =
    match closures w !! h with
    | Some e => if env_resolved e then instances w
                else alter onResolved_c (env_c e) (instances w)
    | None => instances w
    end.
Proof.
  unfold onResolved. destruct (closures w !! h) as [e|]; [|reflexivity].
  destruct (env_resolved e); reflexivity.
Qed.

Lemma closures_onResolved (h : nat) (w : World) :
  closures (onResolved h w) =
    alter ran h (closures w).
Proof.
  unfold onResolved, ran. destruct (closures w !! h) as [e|] eqn:E.
  - destruct (env_resolved e) eqn:R; cbn.
    + symmetry. apply list_eq; intros j. rewrite list_lookup_alter.
      destruct (decide (h = j)) as [<-|]; [|reflexivity].
      rewrite E; cbn. destruct e; cbn in *; congruence.
    + apply list_eq; intros j. rewrite list_lookup_alter, list_lookup_insert.
      destruct (decide (h = j)) as [<-|].
      * rewrite E. cbn. rewrite decide_True; [reflexivity|].
        split; [reflexivity | eapply lookup_lt_Some; eauto].
      * rewrite decide_False; [reflexivity | tauto].
  - symmetry. apply list_eq; intros j. rewrite list_lookup_alter.
    destruct (decide (h = j)) as [<-|]; [|reflexivity].
    rewrite E; reflexivity.
Qed.

Lemma thens_onResolved (h : nat) (w : World) : thens (onResolved h w) = thens w.
Proof.
  unfold onResolved. destruct (closures w !! h) as [e|]; [|reflexivity].
  destruct (env_resolved e); reflexivity.
Qed.



(** ** Folding over the registrations *)

Lemma foldl_react_ind (P : World -> Prop) p o (l : list Then) (w : World) :
  P w ->
  (forall h w', P w' -> P (onResolved h w')) ->
  P (foldl (react p o) w l).
Proof.
  intros Hw Hstep. revert w Hw.
  induction l as [|t l IH]; intros w Hw; cbn; [exact Hw|].
  apply IH. unfold react. destruct (decide (thenable t = p)); auto.
Qed.

Lemma settle_ind (P : World -> Prop) p o (w : World) :
  P w ->
  (forall h w', P w' -> P (onResolved h w')) ->
  P (settle p o w).
Proof. apply foldl_react_ind. Qed.

(** ** Counting the closures that have not run *)

Lemma count_live_app c (l1 l2 : list OnResolvedEnv) :
  count_live c (l1 ++ l2) = (count_live c l1 + count_live c l2)%nat.
Proof. unfold count_live. by rewrite filter_app, length_app. Qed.

Lemma count_live_resolve c (l : list OnResolvedEnv) h e :
  l !! h = Some e ->
  env_resolved e = false ->
  (count_live c (alter ran h l)
   + (if decide (env_c e = c) then 1 else 0))%nat
  = count_live c l.
Proof.
  unfold ran. revert h. induction l as [|x l IH]; intros [|h] Hl Hr; cbn in Hl; try done.
  - injection Hl as ->. cbn [alter list_alter].
    unfold count_live. rewrite !filter_cons. unfold is_live. cbn.
    rewrite Hr, andb_false_r. cbn.
    destruct (decide (env_c e = c)) as [Heq|Hne].
    + rewrite bool_decide_true by done. cbn.
      rewrite decide_False by done. rewrite decide_True by done. cbn. lia.
    + rewrite bool_decide_false by done. cbn.
      rewrite !decide_False by done. lia.
  - cbn [alter list_alter]. specialize (IH h Hl Hr).
    unfold count_live in *. rewrite !filter_cons.
    destruct (decide (is_live c x = true)); cbn [length];
      destruct (decide (env_c e = c)); lia.
Qed.

Lemma count_live_none c (l : list OnResolvedEnv) :
  count_live c l = 0%nat <->
  forall h e, l !! h = Some e -> env_c e = c -> env_resolved e = true.
Proof.
  unfold count_live. induction l as [|x l IH].
  - split; [intros _ h e H; by rewrite lookup_nil in H | done].
  - rewrite filter_cons. split.
    + intros H [|h] e He Hc; cbn in He.
      * injection He as ->. destruct (decide (is_live c e = true)) as [|Hn]; [done|].
        unfold is_live in Hn. rewrite bool_decide_true in Hn by done.
        by destruct (env_resolved e).
      * destruct (decide (is_live c x = true)); [done|].
        destruct IH as [IH _]. exact (IH H h e He Hc).
    + intros H. destruct (decide (is_live c x = true)) as [Hl|].
      * unfold is_live in Hl. apply andb_true_iff in Hl as [Hc Hr].
        apply bool_decide_eq_true in Hc.
        specialize (H 0%nat x eq_refl Hc). rewrite H in Hr. done.
      * destruct IH as [_ IH]. apply IH. intros h e He. apply (H (S h) e He).
Qed.

(** ** Consistency is kept by every operation *)

Lemma wf_init old : wf (init old).
Proof.
  split; cbn; intros *; try rewrite lookup_nil; try done.
Qed.

Lemma wf_new p w : wf w -> wf (new_Suspense p w).
Proof.
  intros [Hc Ho Hl Hs Hu]. split; [| |exact Hl|exact Hs|].
  - intros c s H. change (live (new_Suspense p w) c) with (live w c).
    apply lookup_snoc_Some in H as [[_ H] | [-> <-]]; [by apply Hc|].
    assert (live w (length (instances w)) = 0%nat) as ->; [|done].
    unfold live.
    assert (forall l : list OnResolvedEnv,
              (forall h e, l !! h = Some e -> (env_c e < length (instances w))%nat) ->
              count_live (length (instances w)) l = 0%nat) as Hz.
    { intros l Hlt. apply count_live_none. intros h e He Hown.
      apply Hlt in He. lia. }
    rewrite (Hz _ Ho), Hz; [done|]. intros h e He. by apply Hu in He as [? _].
  - intros h e He. cbn. rewrite length_app; cbn. apply Ho in He. lia.
  - intros h e He. cbn. rewrite length_app; cbn.
    apply Hu in He as [? ?]. split; [lia | done].
Qed.

Lemma suspend_missing c p v w : instances w !! c = None -> __c c p v w = w.
Proof. intros H. unfold __c. by rewrite H. Qed.

Lemma instances_suspend c p v w :
  instances (__c c p v w) = alter (suspend_c (isHydrating v)) c (instances w).
Proof.
  unfold __c. destruct (instances w !! c) eqn:E; [reflexivity|].
  symmetry. apply list_eq; intros j. rewrite list_lookup_alter.
  destruct (decide (c = j)) as [<-|]; [by rewrite E | done].
Qed.

Lemma closures_suspend c p v w s :
  instances w !! c = Some s ->
  closures (__c c p v w) = closures w ++ [{| env_c := c; env_resolved := false |}].
Proof. intros H. unfold __c. by rewrite H. Qed.

Lemma thens_suspend c p v w s :
  instances w !! c = Some s ->
  thens (__c c p v w) =
    thens w ++ [{| thenable := p; onFulfilled := length (closures w);
                   onRejected := length (closures w) |}].
Proof. intros H. unfold __c. by rewrite H. Qed.


Lemma unregistered_suspend c p v w : unregistered (__c c p v w) = unregistered w.
Proof. unfold __c. by destruct (instances w !! c). Qed.

Lemma wf_suspend c p v w : wf w -> wf (__c c p v w).
Proof.
  intros Hw. destruct (instances w !! c) as [s0|] eqn:E;
    [|by rewrite suspend_missing].
  destruct Hw as [Hc Ho Hl Hs Hu]. split.
  - intros c' s H. unfold live.
    rewrite unregistered_suspend, (closures_suspend _ _ _ _ _ E).
    rewrite count_live_app.
    rewrite instances_suspend, list_lookup_alter in H.
    unfold count_live at 2. rewrite filter_cons, filter_nil.
    unfold is_live; cbn [env_c env_resolved negb].
    destruct (decide (c = c')) as [<-|Hne].
    + rewrite E in H. injection H as <-. rewrite suspend_c_count.
      rewrite bool_decide_true by done. cbn. rewrite decide_True by done.
      rewrite (Hc c s0 E). unfold live. cbn. lia.
    + rewrite bool_decide_false by done. cbn. rewrite decide_False by done.
      rewrite (Hc c' s H). unfold live. cbn. lia.
  - intros h e He. rewrite instances_suspend, length_alter.
    rewrite (closures_suspend _ _ _ _ _ E) in He.
    apply lookup_snoc_Some in He as [[_ He] | [_ <-]]; [by eapply Ho|].
    cbn. eapply lookup_lt_Some; eauto.
  - rewrite (closures_suspend _ _ _ _ _ E), (thens_suspend _ _ _ _ _ E).
    rewrite !length_app; cbn. lia.
  - intros i t H. rewrite (thens_suspend _ _ _ _ _ E) in H.
    apply lookup_snoc_Some in H as [[_ H] | [-> <-]]; [by apply Hs|].
    cbn. split; lia.
  - intros h e He. rewrite unregistered_suspend in He.
    rewrite instances_suspend, length_alter. by apply Hu in He.
Qed.

(** ** A call of [__c] that throws *)

Lemma throws_missing c v w : instances w !! c = None -> __c_throws c v w = w.
Proof. intros H. unfold __c_throws. by rewrite H. Qed.

Lemma instances_throws c v w :
  instances (__c_throws c v w) = alter (suspend_c (isHydrating v)) c (instances w).
Proof.
  unfold __c_throws. destruct (instances w !! c) eqn:E; [reflexivity|].
  symmetry. apply list_eq; intros j. rewrite list_lookup_alter.
  destruct (decide (c = j)) as [<-|]; [by rewrite E | done].
Qed.

Lemma closures_throws c v w : closures (__c_throws c v w) = closures w.
Proof. unfold __c_throws. by destruct (instances w !! c). Qed.

Lemma thens_throws c v w : thens (__c_throws c v w) = thens w.
Proof. unfold __c_throws. by destruct (instances w !! c). Qed.

Lemma old_calls_throws c v w :
  oldCatchError_calls (__c_throws c v w) = oldCatchError_calls w.
Proof. unfold __c_throws. by destruct (instances w !! c). Qed.

Lemma unregistered_throws c v w s :
  instances w !! c = Some s ->
  unregistered (__c_throws c v w) =
    unregistered w ++ [{| env_c := c; env_resolved := false |}].
Proof. intros H. unfold __c_throws. by rewrite H. Qed.

Lemma wf_throws c v w : wf w -> wf (__c_throws c v w).
Proof.
  intros Hw. destruct (instances w !! c) as [s0|] eqn:E;
    [|by rewrite throws_missing].
  destruct Hw as [Hc Ho Hl Hs Hu]. split.
  - intros c' s H. unfold live.
    rewrite closures_throws, (unregistered_throws _ _ _ _ E), count_live_app.
    rewrite instances_throws, list_lookup_alter in H.
    unfold count_live at 3. rewrite filter_cons, filter_nil.
    unfold is_live; cbn [env_c env_resolved negb].
    destruct (decide (c = c')) as [<-|Hne].
    + rewrite E in H. injection H as <-. rewrite suspend_c_count.
      rewrite bool_decide_true by done. cbn. rewrite decide_True by done.
      rewrite (Hc c s0 E). unfold live. cbn. lia.
    + rewrite bool_decide_false by done. cbn. rewrite decide_False by done.
      rewrite (Hc c' s H). unfold live. cbn. lia.
  - intros h e He. rewrite instances_throws, length_alter.
    rewrite closures_throws in He. by eapply Ho.
  - by rewrite closures_throws, thens_throws.
  - rewrite thens_throws. exact Hs.
  - intros h e He. rewrite instances_throws, length_alter.
    rewrite (unregistered_throws _ _ _ _ E) in He.
    apply lookup_snoc_Some in He as [[_ He] | [_ <-]]; [by eapply Hu|].
    cbn. split; [eapply lookup_lt_Some; eauto | done].
Qed.

Lemma instances_call__c k err v w :
  instances (call__c k err v w) = alter (suspend_c (isHydrating v)) k (instances w).
Proof.
  unfold call__c. destruct (thenable_of err);
    [apply instances_suspend | apply instances_throws].
Qed.

Lemma wf_call__c k err v w : wf w -> wf (call__c k err v w).
Proof.
  intros H. unfold call__c. destruct (thenable_of err); auto using wf_suspend, wf_throws.
Qed.

Lemma unregistered_onResolved h w : unregistered (onResolved h w) = unregistered w.
Proof.
  unfold onResolved. destruct (closures w !! h) as [e|]; [|reflexivity].
  destruct (env_resolved e); reflexivity.
Qed.

Lemma wf_onResolved h w : wf w -> wf (onResolved h w).
Proof.
  intros Hw. pose proof Hw as [Hc Ho Hl Hs Hu].
  destruct (closures w !! h) as [e|] eqn:E.
  2: { unfold onResolved. by rewrite E. }
  destruct (env_resolved e) eqn:R.
  1: { unfold onResolved. by rewrite E, R. }
  split.
  - intros c s H. unfold live. rewrite unregistered_onResolved, closures_onResolved.
    pose proof (count_live_resolve c _ h e E R) as Hn.
    rewrite instances_onResolved, E, R, list_lookup_alter in H.
    destruct (decide (env_c e = c)) as [<-|Hne].
    + destruct (instances w !! env_c e) as [s0|] eqn:Es; [|done].
      injection H as <-. rewrite onResolved_c_count, (Hc _ _ Es). unfold live. lia.
    + rewrite (Hc c s H). unfold live. lia.
  - intros h' e' He'. rewrite instances_onResolved, E, R, length_alter.
    rewrite closures_onResolved, list_lookup_alter in He'. case_decide.
    + subst h'. rewrite E in He'. injection He' as <-. cbn. by eapply Ho.
    + by eapply Ho.
  - rewrite thens_onResolved, closures_onResolved, length_alter. done.
  - rewrite thens_onResolved. done.
  - intros h' e' He'. rewrite unregistered_onResolved in He'.
    rewrite instances_onResolved, E, R, length_alter. by apply Hu in He'.
Qed.

Lemma wf_settle p o w : wf w -> wf (settle p o w).
Proof. intros H. apply settle_ind; auto using wf_onResolved. Qed.

Lemma wf_catchError err n o i w : wf w -> wf (catchError err n o i w).
Proof.
  intros H. unfold catchError.
  destruct (options__e _ _ _ _ _); auto using wf_call__c.
  destruct H; by split.
Qed.

Lemma wf_step w e : wf w -> wf (step w e).
Proof.
  destruct e; cbn; auto using wf_new, wf_catchError, wf_suspend, wf_settle.
Qed.

Lemma wf_run evs w : wf w -> wf (run evs w).
Proof.
  unfold run. revert w. induction evs as [|e evs IH]; intros w H; cbn; auto using wf_step.
Qed.


(** ** The hydration test *)

Lemma toInt32_bit5 u : Z.testbit (toInt32 u) 5 = Z.testbit u 5.
Proof.
  rewrite <- (Z.mod_pow2_bits_low (toInt32 u) 32 5) by lia.
  rewrite <- (Z.mod_pow2_bits_low u 32 5) by lia.
  f_equal. unfold toInt32.
  rewrite Zminus_mod_idemp_l. f_equal. lia.
Qed.

Lemma land_MODE_HYDRATE x :
  Z.land x MODE_HYDRATE = if Z.testbit x 5 then 32 else 0.
Proof.
  apply Z.bits_inj'. intros n Hn. rewrite Z.land_spec.
  change MODE_HYDRATE with (2 ^ 5). rewrite Z.pow2_bits_eqb by lia.
  destruct (Z.eqb_spec 5 n) as [<-|Hne].
  - rewrite andb_true_r. destruct (Z.testbit x 5); reflexivity.
  - rewrite andb_false_r. destruct (Z.testbit x 5).
    + change 32 with (2 ^ 5). rewrite Z.pow2_bits_eqb by lia.
      symmetry. by apply Z.eqb_neq.
    + by rewrite Z.bits_0.
Qed.

Lemma flags_hydrating u :
  negb (u =? 0) && negb (Z.land (toInt32 u) MODE_HYDRATE =? 0) = Z.testbit u 5.
Proof.
  rewrite land_MODE_HYDRATE, toInt32_bit5.
  destruct (Z.eqb_spec u 0) as [->|_]; [by rewrite Z.bits_0|].
  by destruct (Z.testbit u 5).
Qed.

Lemma isHydrating_spec v : isHydrating v = true <-> in_hydration_pass v.
Proof.
  unfold isHydrating, in_hydration_pass.
  destruct (_flags v) as [u|].
  - rewrite flags_hydrating. rewrite orb_true_iff. split.
    + intros [H | H]; [left; eauto|]. right. by destruct (_hydrating v) as [[|]|].
    + intros [(u' & [= <-] & H) | ->]; auto.
  - rewrite orb_false_l. split.
    + intros H. right. by destruct (_hydrating v) as [[|]|].
    + intros [(u' & [=] & _) | ->]; auto.
Qed.

Lemma isHydrating_preserve_dom n o :
  isHydrating (preserve_dom n o) = isHydrating n.
Proof. unfold preserve_dom. by destruct (_dom n). Qed.

(** ** Non-negative counts *)






(** ** When [suspended] is cleared *)

Lemma is_suspended_onResolved h w c :
  is_suspended (onResolved h w) c = is_suspended w c \/
  (is_suspended (onResolved h w) c = Some false /\
   pendingCount (onResolved h w) c = Some 0).
Proof.
  unfold is_suspended, pendingCount. rewrite instances_onResolved.
  destruct (closures w !! h) as [e|]; [|by left].
  destruct (env_resolved e); [by left|].
  rewrite list_lookup_alter. destruct (decide (env_c e = c)) as [->|]; [|by left].
  destruct (instances w !! c) as [s|]; [|by left]. cbn.
  destruct (onResolved_c_cases s) as [[_ ->] | [_ ->]]; [by left | by right].
Qed.

Lemma onResolved_from_zero h w c :
  is_suspended w c = Some false ->
  pendingCount w c = Some 0 ->
  is_suspended (onResolved h w) c = Some false /\
  pendingCount (onResolved h w) c = Some 0.
Proof.
  unfold is_suspended, pendingCount. rewrite instances_onResolved.
  destruct (closures w !! h) as [e|]; [|done].
  destruct (env_resolved e); [done|].
  rewrite list_lookup_alter. destruct (decide (env_c e = c)) as [->|]; [|done].
  destruct (instances w !! c) as [s|]; [|done]. cbn.
  intros [= Hs] [= Hc]. rewrite onResolved_c_suspended, onResolved_c_count, Hc.
  by cbn.
Qed.

Lemma same_or_cleared_settle p o w c : same_or_cleared w c (settle p o w).
Proof.
  apply settle_ind; [by left|]. unfold same_or_cleared.
  intros h w' [Hsame | [Hf Hz]].
  - destruct (is_suspended_onResolved h w' c) as [-> | ?]; [by left | by right].
  - right. by apply onResolved_from_zero.
Qed.

Lemma is_suspended_suspend c p v w c' :
  is_suspended w c' = Some true -> is_suspended (__c c p v w) c' = Some true.
Proof.
  unfold is_suspended. rewrite instances_suspend, list_lookup_alter.
  destruct (decide (c = c')) as [->|]; [|done].
  destruct (instances w !! c') as [s|]; [|done]. cbn.
  intros [= H]. rewrite suspend_c_suspended, H. by destruct (isHydrating v).
Qed.


Lemma is_suspended_new p w c :
  is_Some (instances w !! c) ->
  is_suspended (new_Suspense p w) c = is_suspended w c /\
  pendingCount (new_Suspense p w) c = pendingCount w c /\
  resumes (new_Suspense p w) c = resumes w c.
Proof.
  intros H. unfold is_suspended, pendingCount, resumes, new_Suspense; cbn.
  rewrite lookup_app_l; [done|]. by apply lookup_lt_is_Some.
Qed.


(** ** Fulfilment and rejection run the same closure *)

Lemma foldl_react_outcome q (l : list Then) (w : World) :
  Forall (fun t => onRejected t = onFulfilled t) l ->
  foldl (react q Reject) w l = foldl (react q Fulfil) w l.
Proof.
  intros H. revert w. induction H as [|t l Ht _ IH]; intros w; cbn; [done|].
  rewrite IH. f_equal. unfold react, callback. by rewrite Ht.
Qed.

Lemma settle_outcome_irrelevant q w :
  wf w -> settle q Reject w = settle q Fulfil w.
Proof.
  intros Hw. apply foldl_react_outcome. apply Forall_lookup.
  intros i t Ht. destruct (wf_slots w Hw i t Ht). congruence.
Qed.

Lemma onResolved_live h w c s :
  closures w !! h = Some {| env_c := c; env_resolved := false |} ->
  instances w !! c = Some s ->
  instances (onResolved h w) !! c = Some (onResolved_c s).
Proof.
  intros Hh Hc. rewrite instances_onResolved, Hh; cbn.
  by rewrite list_lookup_alter_eq, Hc.
Qed.

(** ** Suspensions raised while hydrating *)

Lemma hydrating_suspend c p v w s :
  instances w !! c = Some s ->
  isHydrating v = true ->
  instances (__c c p v w) !! c = Some (set_pendingCount (_pendingCount s + 1) s).
Proof.
  intros Hc Hv. rewrite instances_suspend, list_lookup_alter_eq, Hc, Hv. done.
Qed.

Lemma is_suspended_hydrating_suspend c p v w c' :
  isHydrating v = true ->
  is_suspended (__c c p v w) c' = is_suspended w c'.
Proof.
  intros Hv. unfold is_suspended. rewrite instances_suspend, list_lookup_alter.
  destruct (decide (c = c')) as [->|]; [|done].
  destruct (instances w !! c'); [|done]. cbn. by rewrite Hv.
Qed.

Lemma is_suspended_hydrating_call__c k err v w c' :
  isHydrating v = true ->
  is_suspended (call__c k err v w) c' = is_suspended w c'.
Proof.
  intros Hv. unfold is_suspended. rewrite instances_call__c, list_lookup_alter.
  destruct (decide (k = c')) as [->|]; [|done].
  destruct (instances w !! c'); [|done]. cbn. by rewrite Hv.
Qed.

Lemma not_suspended_settle p o w c :
  is_suspended w c = Some false -> is_suspended (settle p o w) c = Some false.
Proof.
  intros H. destruct (same_or_cleared_settle p o w c) as [E | [E _]]; congruence.
Qed.

Lemma not_suspended_hydration_step w e c :
  hydration_event e = true ->
  is_suspended w c = Some false ->
  is_suspended (step w e) c = Some false.
Proof.
  intros He H. destruct e; cbn in *.
  - destruct (is_suspended_new p w c) as [E _]; [|congruence].
    unfold is_suspended in H. by destruct (instances w !! c).
  - unfold catchError, options__e.
    destruct (err_and_then err), (nearest_handler newVNode),
      (oldCatchError w); try done.
    all: by rewrite is_suspended_hydrating_call__c
           by (by rewrite isHydrating_preserve_dom).
  - by rewrite is_suspended_hydrating_suspend.
  - by apply not_suspended_settle.
Qed.

Lemma not_suspended_hydration_run evs w c :
  forallb hydration_event evs = true ->
  is_suspended w c = Some false ->
  is_suspended (run evs w) c = Some false.
Proof.
  unfold run. revert w. induction evs as [|e evs IH]; intros w He H; cbn in *; [done|].
  apply andb_true_iff in He as [He1 He2].
  apply IH; [done|]. by apply not_suspended_hydration_step.
Qed.

(** ** Which closures a settlement runs *)

Lemma thens_settle p o w : thens (settle p o w) = thens w.
Proof.
  apply (settle_ind (fun w' => thens w' = thens w)); [done|].
  intros h w' H. by rewrite thens_onResolved.
Qed.


Lemma closures_foldl_prefix p o w (l1 l2 : list Then) i :
  wf w ->
  thens w = l1 ++ l2 ->
  closures (foldl (react p o) w l1) !! i = ran_if p (l1 !! i) <$> closures w !! i.
Proof.
  intros Hw. revert l2. induction l1 as [|t l1 IH] using rev_ind; intros l2 Hl.
  - cbn. by destruct (closures w !! i).
  - rewrite foldl_app. cbn [foldl].
    rewrite <- app_assoc in Hl. simpl in Hl. specialize (IH _ Hl).
    assert (callback o t = length l1) as Hcb.
    { destruct (wf_slots w Hw (length l1) t) as [Hf Hr].
      - rewrite Hl. by rewrite list_lookup_middle.
      - by destruct o. }
    unfold react at 1. destruct (decide (thenable t = p)) as [Hp|Hp].
    + rewrite closures_onResolved, Hcb, list_lookup_alter.
      destruct (decide (length l1 = i)) as [<-|Hi].
      * rewrite IH. rewrite list_lookup_middle by done.
        rewrite (proj2 (lookup_ge_None l1 (length l1))) by lia.
        destruct (closures w !! length l1); cbn; [|done].
        by rewrite decide_True.
      * rewrite IH. f_equal. f_equal.
        destruct (decide (i < length l1)%nat).
        -- by rewrite lookup_app_l.
        -- rewrite (proj2 (lookup_ge_None l1 i)) by lia.
           symmetry. apply lookup_ge_None. rewrite length_app; cbn. lia.
    + rewrite IH.
      destruct (decide (length l1 = i)) as [<-|Hi].
      * rewrite list_lookup_middle by done.
        rewrite (proj2 (lookup_ge_None l1 (length l1))) by lia.
        destruct (closures w !! length l1); cbn; [|done].
        by rewrite decide_False.
      * f_equal. f_equal.
        destruct (decide (i < length l1)%nat).
        -- by rewrite lookup_app_l.
        -- rewrite (proj2 (lookup_ge_None l1 i)) by lia.
           symmetry. apply lookup_ge_None. rewrite length_app; cbn. lia.
Qed.

Lemma closures_settle p o w i :
  wf w ->
  closures (settle p o w) !! i = ran_if p (thens w !! i) <$> closures w !! i.
Proof.
  intros Hw. unfold settle.
  by rewrite (closures_foldl_prefix p o w (thens w) [] i Hw) by (by rewrite app_nil_r).
Qed.

Lemma is_live_ran c e : is_live c (ran e) = false.
Proof. unfold is_live, ran; cbn. by rewrite andb_false_r. Qed.

(** ** The signals an instance waits on *)

Lemma unregistered_settle p o w : unregistered (settle p o w) = unregistered w.
Proof.
  apply (settle_ind (fun w' => unregistered w' = unregistered w)); [done|].
  intros h w' H. by rewrite unregistered_onResolved.
Qed.

Lemma live_zero w c :
  live w c = 0%nat <->
  count_live c (closures w) = 0%nat /\ count_live c (unregistered w) = 0%nat.
Proof. unfold live. lia. Qed.

Lemma waits_on_nil w c : live w c = 0%nat -> waits_on w c [].
Proof.
  intros H. apply live_zero in H as [H Hu]. split_and!.
  - intros i e t He Hl _. exfalso.
    destruct (count_live_none c (closures w)) as [Hn _].
    unfold is_live in Hl. apply andb_true_iff in Hl as [Hc Hr].
    apply bool_decide_eq_true in Hc.
    rewrite (Hn H i e He Hc) in Hr. done.
  - intros p Hp. by apply elem_of_nil in Hp.
  - exact Hu.
Qed.

Lemma waits_on_empty w c U :
  wf w -> waits_on w c U -> (live w c = 0%nat <-> U = []).
Proof.
  intros Hw (Ha & Hb & Hu). split.
  - intros H. apply live_zero in H as [H _].
    destruct U as [|p U]; [done|]. exfalso.
    destruct (Hb p) as (i & e & t & He & Hl & _); [by left|].
    destruct (count_live_none c (closures w)) as [Hn _].
    unfold is_live in Hl. apply andb_true_iff in Hl as [Hc Hr].
    apply bool_decide_eq_true in Hc.
    rewrite (Hn H i e He Hc) in Hr. done.
  - intros ->. apply live_zero. split; [|exact Hu].
    apply count_live_none. intros h e He Hc.
    destruct (env_resolved e) eqn:R; [done|]. exfalso.
    assert (is_Some (thens w !! h)) as [t Ht].
    { apply lookup_lt_is_Some. rewrite (wf_len w Hw).
      by eapply lookup_lt_Some. }
    specialize (Ha h e t He). unfold is_live in Ha.
    rewrite bool_decide_true, R in Ha by done.
    specialize (Ha eq_refl Ht). by apply elem_of_nil in Ha.
Qed.

Lemma waits_on_suspend c p v w U s :
  wf w ->
  instances w !! c = Some s ->
  waits_on w c U ->
  waits_on (__c c p v w) c (U ++ [p]).
Proof.
  intros Hw Hs (Ha & Hb & Hu).
  split_and!; [| |by rewrite unregistered_suspend].
  - intros i e t He Hl Ht.
    rewrite (closures_suspend _ _ _ _ _ Hs) in He.
    rewrite (thens_suspend _ _ _ _ _ Hs) in Ht.
    apply lookup_snoc_Some in He as [[Hi He] | [-> <-]].
    + rewrite lookup_app_l in Ht by (by rewrite (wf_len w Hw)).
      apply elem_of_app. left. eauto.
    + rewrite <- (wf_len w Hw), list_lookup_middle in Ht by done.
      injection Ht as <-. cbn. apply elem_of_app. right. by left.
  - intros q Hq. rewrite (closures_suspend _ _ _ _ _ Hs), (thens_suspend _ _ _ _ _ Hs).
    apply elem_of_app in Hq as [Hq | Hq].
    + destruct (Hb q Hq) as (i & e & t & He & Hl & Ht & Hp).
      exists i, e, t. split_and!; try done.
      * rewrite lookup_app_l; [done | by eapply lookup_lt_Some].
      * rewrite lookup_app_l; [done | by eapply lookup_lt_Some].
    + apply list_elem_of_singleton in Hq as ->.
      eexists (length (closures w)), _, _. split_and!.
      * by rewrite list_lookup_middle.
      * unfold is_live; cbn. by rewrite bool_decide_true.
      * rewrite <- (wf_len w Hw) at 1. by rewrite list_lookup_middle.
      * done.
Qed.

Lemma waits_on_settle q o w c U :
  wf w ->
  waits_on w c U ->
  waits_on (settle q o w) c (filter (fun p => p <> q) U).
Proof.
  intros Hw (Ha & Hb & Hu). split_and!; [| |by rewrite unregistered_settle].
  - intros i e' t He' Hl Ht. rewrite thens_settle in Ht.
    rewrite closures_settle, Ht in He' by done.
    destruct (closures w !! i) as [e|] eqn:He; [|done].
    injection He' as <-. cbn in Hl.
    destruct (decide (thenable t = q)) as [Hq|Hq]; [by rewrite is_live_ran in Hl|].
    apply list_elem_of_filter. split; [done|]. eauto.
  - intros p Hp. apply list_elem_of_filter in Hp as [Hne Hp].
    destruct (Hb p Hp) as (i & e & t & He & Hl & Ht & Htp).
    exists i, e, t. rewrite thens_settle, closures_settle, Ht, He by done.
    cbn. rewrite decide_False by congruence. done.
Qed.

(** ** One resume per pass *)

Lemma resumes_setState_false s :
  length (filter (fun u => suspended u = false)
            (setState_calls (setState {| suspended := false |} s)))
  = S (length (filter (fun u => suspended u = false) (setState_calls s))).
Proof.
  cbn [setState setState_calls]. rewrite filter_app, length_app.
  rewrite filter_cons, decide_True by done. cbn. lia.
Qed.

Lemma resumed_once_onResolved r0 c h w :
  wf w -> resumed_once r0 c w -> resumed_once r0 c (onResolved h w).
Proof.
  intros Hw H.
  destruct (closures w !! h) as [e|] eqn:E.
  2: { unfold onResolved. by rewrite E. }
  destruct (env_resolved e) eqn:R.
  1: { unfold onResolved. by rewrite E, R. }
  assert ((live (onResolved h w) c
           + (if decide (env_c e = c) then 1 else 0))%nat = live w c) as Hn.
  { unfold live. rewrite unregistered_onResolved, closures_onResolved.
    pose proof (count_live_resolve c _ h e E R). lia. }
  unfold resumed_once, is_suspended, resumes in *.
  rewrite instances_onResolved, E, R, list_lookup_alter.
  destruct (decide (env_c e = c)) as [Hc|Hc].
  - destruct H as [(Hl & Hs & Hr) | (Hl & _)]; [|lia].
    destruct (instances w !! c) as [s|] eqn:Es; [|done].
    rewrite Hc, Es. cbn in *. injection Hs as Hs.
    pose proof (wf_count w Hw c s Es) as Hcount.
    destruct (onResolved_c_cases s) as [[Hlt ->] | [Hle ->]].
    + left. cbn. split_and!; [lia | by rewrite Hs | done].
    + right. split_and!; [lia | done |].
      rewrite resumes_setState_false. cbn. by rewrite Hr.
  - replace (live (onResolved h w) c) with (live w c) by lia. exact H.
Qed.

Lemma resumed_once_settle r0 c p o w :
  wf w -> resumed_once r0 c w -> resumed_once r0 c (settle p o w).
Proof.
  intros Hw H.
  cut (wf (settle p o w) /\ resumed_once r0 c (settle p o w)); [tauto|].
  apply settle_ind; [done|].
  intros h w' [Hw' H']. split; [by apply wf_onResolved | by apply resumed_once_onResolved].
Qed.

Lemma waits_on_equiv w c (U U' : list nat) :
  (forall p, p ∈ U <-> p ∈ U') -> waits_on w c U -> waits_on w c U'.
Proof.
  intros HU (Ha & Hb & Hu). split_and!; [| |exact Hu].
  - intros i e t He Hl Ht. apply HU. eauto.
  - intros p Hp. apply HU in Hp. eauto.
Qed.

Lemma pass_settlements r0 c (qs : list (nat * Outcome)) w (U : list nat) :
  wf w -> waits_on w c U -> resumed_once r0 c w ->
  wf (run (settlements qs) w) /\
  waits_on (run (settlements qs) w) c (filter (fun p => p ∉ qs.*1) U) /\
  resumed_once r0 c (run (settlements qs) w).
Proof.
  revert w U. induction qs as [|[q o] qs IH]; intros w U Hw HU Hr.
  - cbn. split_and!; try done. eapply waits_on_equiv; [|exact HU].
    intros p. rewrite list_elem_of_filter. split; [|tauto].
    intros Hp; split; [|done]. intros Hn. by apply elem_of_nil in Hn.
  - change (run (settlements ((q, o) :: qs)) w)
      with (run (settlements qs) (settle q o w)).
    destruct (IH (settle q o w) (filter (fun p => p <> q) U)) as (Hw1 & HU1 & Hr1);
      [by apply wf_settle | by apply waits_on_settle | by apply resumed_once_settle |].
    split_and!; try done.
    eapply waits_on_equiv; [|exact HU1].
    intros p. rewrite !list_elem_of_filter. cbn. rewrite not_elem_of_cons. tauto.
Qed.

Lemma resumes_suspend c p v w c' :
  resumes (__c c p v w) c' = resumes w c'.
Proof.
  unfold resumes. rewrite instances_suspend, list_lookup_alter.
  destruct (decide (c = c')) as [->|]; [|done].
  destruct (instances w !! c') as [s|]; [|done]. cbn.
  unfold suspend_c. destruct (isHydrating v); [done|]. cbn.
  by rewrite filter_app, filter_cons, filter_nil, app_nil_r.
Qed.

Lemma is_suspended_fresh_suspend c p v w s :
  instances w !! c = Some s ->
  isHydrating v = false ->
  is_suspended (__c c p v w) c = Some true.
Proof.
  intros Hs Hv. unfold is_suspended.
  by rewrite instances_suspend, list_lookup_alter_eq, Hs, Hv.
Qed.

Lemma pass_suspensions c (sigs : list (nat * InternalVNode)) w (U : list nat) :
  wf w -> is_Some (instances w !! c) -> waits_on w c U ->
  Forall (fun s => isHydrating s.2 = false) sigs ->
  wf (run (suspensions c sigs) w) /\
  is_Some (instances (run (suspensions c sigs) w) !! c) /\
  waits_on (run (suspensions c sigs) w) c (U ++ sigs.*1) /\
  resumes (run (suspensions c sigs) w) c = resumes w c /\
  (is_suspended w c = Some true \/ sigs <> [] ->
   is_suspended (run (suspensions c sigs) w) c = Some true).
Proof.
  intros Hw Hs HU Hh. revert w U Hw Hs HU.
  induction Hh as [|[p v] sigs Hv _ IH]; intros w U Hw [s Hs] HU.
  - cbn. rewrite app_nil_r. split_and!; eauto. by intros [?|?].
  - change (run (suspensions c ((p, v) :: sigs)) w)
      with (run (suspensions c sigs) (__c c p v w)).
    cbn in Hv.
    destruct (IH (__c c p v w) (U ++ [p])) as (Hw1 & Hs1 & HU1 & Hr1 & Hb1).
    + by apply wf_suspend.
    + rewrite instances_suspend, list_lookup_alter_eq, Hs. by eexists.
    + by eapply waits_on_suspend.
    + split_and!; try done.
      * by rewrite <- app_assoc in HU1.
      * by rewrite Hr1, resumes_suspend.
      * intros _. apply Hb1. left. by eapply is_suspended_fresh_suspend.
Qed.

Lemma wf_reachable old evs : wf (run evs (init old)).
Proof. apply wf_run, wf_init. Qed.

(** After a pass registered the signals [sigs] on an instance that had
    nothing outstanding, and the signals [qs'] have settled: the instance
    is suspended without a further resume while a registered signal is
    missing from [qs'], and has resumed exactly once when none is. *)
Lemma pass_outcome c (sigs : list (nat * InternalVNode)) w0
    (qs' : list (nat * Outcome)) :
  wf w0 ->
  pendingCount w0 c = Some 0 ->
  sigs <> [] ->
  Forall (fun s => isHydrating s.2 = false) sigs ->
  let w1 := run (suspensions c sigs) w0 in
  let w' := run (settlements qs') w1 in
  ((exists p, p ∈ sigs.*1 /\ p ∉ qs'.*1) ->
   is_suspended w' c = Some true /\ resumes w' c = resumes w1 c) /\
  ((forall p, p ∈ sigs.*1 -> p ∈ qs'.*1) ->
   is_suspended w' c = Some false /\ resumes w' c = S (resumes w1 c)).
Proof.
  intros Hw Hz Hne Hh w1 w'.
  assert (exists s0, instances w0 !! c = Some s0 /\ _pendingCount s0 = 0)
    as (s0 & Hs0 & Hc0).
  { unfold pendingCount in Hz. destruct (instances w0 !! c) as [s|]; [|done].
    injection Hz as Hz. eauto. }
  assert (live w0 c = 0%nat) as Hl0.
  { pose proof (wf_count w0 Hw c s0 Hs0). lia. }
  destruct (pass_suspensions c sigs w0 [] Hw) as (Hw1 & Hs1 & HU1 & Hr1 & Hb1);
    [by eexists | by apply waits_on_nil | done |].
  fold w1 in Hw1, Hs1, HU1, Hr1, Hb1. rewrite app_nil_l in HU1.
  assert (resumed_once (resumes w1 c) c w1) as Hr.
  { left. split_and!; [|by apply Hb1; right|done].
    destruct (waits_on_empty w1 c _ Hw1 HU1) as [H _].
    destruct (live w1 c); [|lia]. specialize (H eq_refl).
    destruct sigs; [done | by cbn in H]. }
  destruct (pass_settlements (resumes w1 c) c qs' w1 _ Hw1 HU1 Hr)
    as (Hw2 & HU2 & Hr2).
  fold w' in Hw2, HU2, Hr2.
  destruct (waits_on_empty w' c _ Hw2 HU2) as [He1 He2].
  split.
  - intros (p & Hp & Hnp).
    destruct Hr2 as [(_ & ? & ?) | (Hl & _)]; [done|].
    specialize (He1 Hl).
    assert (p ∈ filter (fun p => p ∉ qs'.*1) sigs.*1) as Hin
      by (by apply list_elem_of_filter).
    rewrite He1 in Hin. by apply elem_of_nil in Hin.
  - intros Hall.
    destruct Hr2 as [(Hl & _) | (_ & ? & ?)]; [|done].
    rewrite He2 in Hl; [lia|].
    destruct (filter (fun p => p ∉ qs'.*1) sigs.*1) as [|p l] eqn:E; [done|].
    assert (p ∈ filter (fun p => p ∉ qs'.*1) sigs.*1) as Hin
      by (rewrite E; by left).
    apply list_elem_of_filter in Hin as [Hn Hp]. by apply Hall in Hp.
Qed.

(** C1.  In a non-hydration pass that registers [N] distinct signals on an
    instance with nothing outstanding, the instance is suspended from the
    first registration on; whatever the order in which the signals settle
    and whether they fulfil or reject, it stays suspended, with no resume,
    after each of the first [N - 1] settlements, and the [N]-th settlement
    is the one resume: [suspended] is false and exactly one further
    [setState({ suspended: false })] has been made. *)
Theorem resume_after_all_settled old evs c
    (sigs : list (nat * InternalVNode)) (qs : list (nat * Outcome)) :
  let w0 := run evs (init old) in
  let w1 := run (suspensions c sigs) w0 in
  pendingCount w0 c = Some 0 ->
  sigs <> [] ->
  Forall (fun s => isHydrating s.2 = false) sigs ->
  NoDup sigs.*1 ->
  qs.*1 ≡ₚ sigs.*1 ->
  (forall j, (0 < j <= length sigs)%nat ->
     is_suspended (run (suspensions c (take j sigs)) w0) c = Some true) /\
  resumes w1 c = resumes w0 c /\
  (forall k, (k < length qs)%nat ->
     is_suspended (run (settlements (take k qs)) w1) c = Some true /\
     resumes (run (settlements (take k qs)) w1) c = resumes w1 c) /\
  is_suspended (run (settlements qs) w1) c = Some false /\
  resumes (run (settlements qs) w1) c = S (resumes w1 c).
Proof.
  intros w0 w1 Hz Hne Hh Hnd Hperm.
  pose proof (wf_reachable old evs) as Hw. fold w0 in Hw.
  assert (is_Some (instances w0 !! c)) as Hs0.
  { unfold pendingCount in Hz. by destruct (instances w0 !! c). }
  assert (waits_on w0 c []) as HU0.
  { apply waits_on_nil. destruct Hs0 as [s0 Hs0].
    pose proof (wf_count w0 Hw c s0 Hs0) as Hc.
    unfold pendingCount in Hz. rewrite Hs0 in Hz. injection Hz as Hz. lia. }
  split_and!.
  - intros j Hj.
    destruct (pass_suspensions c (take j sigs) w0 [] Hw Hs0 HU0)
      as (_ & _ & _ & _ & Hb); [by apply Forall_take|].
    apply Hb. right. destruct sigs; [done|]. destruct j; [lia | done].
  - by destruct (pass_suspensions c sigs w0 [] Hw Hs0 HU0 Hh) as (_ & _ & _ & ? & _).
  - intros k Hk.
    apply (pass_outcome c sigs w0 (take k qs) Hw Hz Hne Hh).
    assert (NoDup qs.*1) as Hnd' by (by rewrite Hperm).
    destruct (lookup_lt_is_Some_2 qs.*1 k) as [p Hp];
      [by rewrite length_fmap|].
    exists p. split.
    + rewrite <- Hperm. by eapply list_elem_of_lookup_2.
    + rewrite fmap_take. intros Hin.
      apply list_elem_of_lookup in Hin as [i Hi].
      pose proof (lookup_lt_Some _ _ _ Hi) as Hlt. rewrite length_take in Hlt.
      rewrite lookup_take_lt in Hi by lia.
      pose proof (NoDup_lookup _ _ _ _ Hnd' Hi Hp). lia.
  - apply (pass_outcome c sigs w0 qs Hw Hz Hne Hh).
    intros p Hp. by rewrite Hperm.
  - apply (pass_outcome c sigs w0 qs Hw Hz Hne Hh).
    intros p Hp. by rewrite Hperm.
Qed.

Lemma resume_after_all_settled_witness :
  let sigs := [(10%nat, bare_vnode); (11%nat, bare_vnode); (12%nat, bare_vnode)] in
  let qs := [(12%nat, Reject); (10%nat, Fulfil); (11%nat, Fulfil)] in
  let w0 := run [New loading_props] (init true) in
  let w1 := run (suspensions 0 sigs) w0 in
  is_suspended (run (suspensions 0 (take 1 sigs)) w0) 0 = Some true /\
  is_suspended (run (settlements (take 2 qs)) w1) 0 = Some true /\
  resumes (run (settlements (take 2 qs)) w1) 0 = resumes w1 0 /\
  is_suspended (run (settlements qs) w1) 0 = Some false /\
  resumes (run (settlements qs) w1) 0 = S (resumes w1 0).
Proof.
  intros sigs qs w0 w1.
  destruct (resume_after_all_settled true [New loading_props] 0%nat sigs qs)
    as (H1 & _ & H3 & H4 & H5).
  - reflexivity.
  - discriminate.
  - repeat constructor.
  - apply (bool_decide_unpack _). vm_compute. reflexivity.
  - apply perm_trans with [10%nat; 12%nat; 11%nat].
    + apply perm_swap.
    + apply perm_skip, perm_swap.
  - split; [apply (H1 1%nat); cbn; lia|].
    split; [apply (H3 2%nat); cbn; lia|].
    split; [apply (H3 2%nat); cbn; lia|].
    split; [exact H4 | exact H5].
Defined.



(** C3.  A signal registered by a node in a hydration pass (hydrate bit in
    its flags, or hydrating marker set) leaves [suspended] as it was,
    makes no [setState] call and adds one to the count; on an instance that
    is not suspended, [suspended] is false at registration, false after
    the signal settles either way, and false along every history in which
    all further suspensions also come from hydration passes. *)
Theorem hydration_keeps_content w c p v s :
  instances w !! c = Some s ->
  in_hydration_pass v ->
  let w1 := __c c p v w in
  (exists s1,
      instances w1 !! c = Some s1 /\
      suspended (state s1) = suspended (state s) /\
      setState_calls s1 = setState_calls s /\
      _pendingCount s1 = _pendingCount s + 1) /\
  (suspended (state s) = false ->
   is_suspended w1 c = Some false /\
   (forall o, is_suspended (settle p o w1) c = Some false) /\
   (forall evs, forallb hydration_event evs = true ->
                is_suspended (run evs w1) c = Some false)).
Proof.
  intros Hs Hv w1. apply isHydrating_spec in Hv.
  pose proof (hydrating_suspend c p v w s Hs Hv) as H1. fold w1 in H1.
  split; [eexists; split; [exact H1 | done]|].
  intros Hf.
  assert (is_suspended w1 c = Some false) as Hn.
  { unfold is_suspended. rewrite H1. cbn. by rewrite Hf. }
  split_and!; [done | |].
  - intros o. by apply not_suspended_settle.
  - intros evs He. by apply not_suspended_hydration_run.
Qed.

Lemma hydration_keeps_content_witness :
  let v := {| _parent := None; _component := None; _dom := Some 3%nat;
              _children := None; _flags := Some 33; _hydrating := None |} in
  let w := run [New loading_props] (init true) in
  is_suspended (__c 0 7 v w) 0 = Some false /\
  pendingCount (__c 0 7 v w) 0 = Some 1 /\
  is_suspended (settle 7 Reject (__c 0 7 v w)) 0 = Some false.
Proof.
  intros v w.
  destruct (hydration_keeps_content w 0%nat 7%nat v (constructor loading_props))
    as [(s1 & Hs1 & _ & _ & Hc) H].
  - reflexivity.
  - left. exists 33. split; reflexivity.
  - destruct H as (H1 & H2 & _); [reflexivity|].
    split; [exact H1|]. split; [|exact (H2 Reject)].
    unfold pendingCount. rewrite Hs1. cbn. f_equal. exact Hc.
Defined.

(** C4.  [__c] passes one and the same closure to [then] as success and
    as failure continuation; while that closure has not run, calling it
    through either continuation decrements the count and, when the count
    reaches zero, clears [suspended]; and at any later time a signal that
    rejects leaves the whole store exactly as if it had fulfilled. *)
Theorem continuations_identical old evs c p v s :
  let w := run evs (init old) in
  instances w !! c = Some s ->
  let w1 := __c c p v w in
  let h := length (closures w) in
  thens w1 =
    thens w ++ [{| thenable := p; onFulfilled := h; onRejected := h |}] /\
  closures w1 !! h = Some {| env_c := c; env_resolved := false |} /\
  (forall t o w2 s2,
      last (thens w1) = Some t ->
      closures w2 !! h = Some {| env_c := c; env_resolved := false |} ->
      instances w2 !! c = Some s2 ->
      instances (onResolved (callback o t) w2) !! c = Some (onResolved_c s2) /\
      _pendingCount (onResolved_c s2) = Z.max 0 (_pendingCount s2 - 1) /\
      suspended (state (onResolved_c s2)) =
        (if _pendingCount s2 - 1 <=? 0 then false else suspended (state s2))) /\
  (forall evs' q,
      settle q Reject (run evs' w1) = settle q Fulfil (run evs' w1)).
Proof.
  intros w Hs w1 h. unfold w1, h.
  rewrite (thens_suspend _ _ _ _ _ Hs), (closures_suspend _ _ _ _ _ Hs).
  split_and!.
  - done.
  - by rewrite list_lookup_middle.
  - intros t o w2 s2 Ht Hh Hs2. rewrite last_snoc in Ht. injection Ht as <-.
    assert (callback o
              {| thenable := p; onFulfilled := length (closures w);
                 onRejected := length (closures w) |} = length (closures w))
      as -> by (by destruct o).
    split_and!;
      [by apply onResolved_live | apply onResolved_c_count
      | apply onResolved_c_suspended].
  - intros evs' q. apply settle_outcome_irrelevant.
    apply wf_run, wf_suspend, wf_reachable.
Qed.

Lemma continuations_identical_witness :
  let w := run [New loading_props] (init true) in
  let w1 := __c 0 7 bare_vnode w in
  thens w1 = [{| thenable := 7%nat; onFulfilled := 0%nat; onRejected := 0%nat |}] /\
  settle 7 Reject w1 = settle 7 Fulfil w1.
Proof.
  intros w w1.
  destruct (continuations_identical true [New loading_props] 0%nat 7%nat
              bare_vnode (constructor loading_props)) as (H1 & _ & _ & H4).
  - reflexivity.
  - split; [exact H1 | exact (H4 [] 7%nat)].
Defined.

(** C6.  A suspended instance renders its fallback inside a fragment, and
    [null] (nothing drawn) when the fallback is [undefined] or [null]; an
    instance that is not suspended renders its children inside a fragment,
    which draws nothing when the children are absent. *)
Theorem render_output s :
  (suspended (state s) = true ->
     (fallback (props s) <> CUndefined -> fallback (props s) <> CNull ->
      render s = createElement Fragment (fallback (props s))) /\
     (fallback (props s) = CUndefined \/ fallback (props s) = CNull ->
      render s = CNull /\ host_output (render s) = [])) /\
  (suspended (state s) = false ->
     render s = createElement Fragment (children (props s)) /\
     (children (props s) = CUndefined \/ children (props s) = CNull ->
      host_output (render s) = [])).
Proof.
  unfold render. split; intros ->.
  - split.
    + intros H1 H2. by destruct (fallback (props s)).
    + by intros [-> | ->].
  - split; [done|]. by intros [-> | ->].
Qed.

Lemma render_output_witness :
  let s := setState {| suspended := true |} (constructor loading_props) in
  let s' := setState {| suspended := true |}
              (constructor {| fallback := CUndefined; children := CString "x" |}) in
  render s = CElement Fragment (CString "Loading...") /\
  render s' = CNull /\ host_output (render s') = [] /\
  host_output
    (render (constructor {| fallback := CNull; children := CUndefined |})) = [].
Proof.
  intros s s'.
  split.
  { apply (proj1 (render_output s)); [reflexivity | discriminate | discriminate]. }
  split.
  { apply (proj1 (render_output s')); [reflexivity | left; reflexivity]. }
  split.
  { apply (proj1 (render_output s')); [reflexivity | left; reflexivity]. }
  apply (proj2 (render_output
           (constructor {| fallback := CNull; children := CUndefined |})));
    [reflexivity | left; reflexivity].
Defined.

(** ** The interception hook *)

Lemma vnode_parent_ind (P : InternalVNode -> Prop) :
  (forall v, _parent v = None -> P v) ->
  (forall v a, _parent v = Some a -> P a -> P v) ->
  forall v, P v.
Proof.
  intros H0 H1. fix IH 1. intros [[a|] k d ch f h].
  - apply (H1 (mkVNode (Some a) k d ch f h) a); [reflexivity | apply IH].
  - by apply H0.
Qed.

Lemma nearest_handler_parent v a :
  _parent v = Some a ->
  nearest_handler v =
    match handler_of a with Some k => Some k | None => nearest_handler a end /\
  ancestors v = a :: ancestors a.
Proof. destruct v as [[b|] ? ? ? ? ?]; cbn; intros [= ->]; done. Qed.

Lemma nearest_handler_root v :
  _parent v = None -> nearest_handler v = None /\ ancestors v = [].
Proof. destruct v as [[b|] ? ? ? ? ?]; cbn; intros [=]; done. Qed.

Lemma nearest_handler_Some v k :
  nearest_handler v = Some k ->
  exists pre a post,
    ancestors v = pre ++ a :: post /\
    Forall (fun b => handler_of b = None) pre /\
    handler_of a = Some k.
Proof.
  induction v as [v Hv | v a Hv IH] using vnode_parent_ind.
  - destruct (nearest_handler_root v Hv) as [-> _]. done.
  - destruct (nearest_handler_parent v a Hv) as [-> ->].
    destruct (handler_of a) as [k'|] eqn:Ha.
    + intros [= ->]. exists [], a, (ancestors a). by split_and!.
    + intros H. destruct (IH H) as (pre & b & post & -> & Hpre & Hb).
      exists (a :: pre), b, post. split_and!; [done | by constructor | done].
Qed.

Lemma nearest_handler_None v :
  nearest_handler v = None ->
  Forall (fun b => handler_of b = None) (ancestors v).
Proof.
  induction v as [v Hv | v a Hv IH] using vnode_parent_ind.
  - destruct (nearest_handler_root v Hv) as [_ ->]. by constructor.
  - destruct (nearest_handler_parent v a Hv) as [-> ->].
    destruct (handler_of a) as [k'|] eqn:Ha; [done|].
    intros H. constructor; auto.
Qed.

Lemma err_and_then_spec err :
  err_and_then err = true <->
  truthy err = true /\ then_truthy (get_then err) = true.
Proof. unfold err_and_then. by rewrite andb_true_iff. Qed.

Lemma thenable_of_truthy err p :
  thenable_of err = Some p -> err_and_then err = true.
Proof.
  unfold thenable_of, err_and_then.
  destruct err as [| | | | | |[[q|d]|] m]; by cbn.
Qed.

Lemma instances_call__c_other k err v w c' :
  c' <> k -> instances (call__c k err v w) !! c' = instances w !! c'.
Proof. intros H. by rewrite instances_call__c, list_lookup_alter_ne. Qed.

(** C5, amended.  The hook hands a raised value to a [__c] handler only
    when the value and its [then] property are both truthy (as for every
    value with a [then] method), and then hands that very value to the
    handler of the nearest proper ancestor that has one, the nodes below
    it having none; a value with a [then] method is registered by [__c],
    and the instances other than the handler's are left as they were.  A
    value that is falsy, or whose [then] is absent or falsy (as one
    raised where no ancestor has a handler), goes, with the hook's other
    arguments and all unchanged, to the hook installed before (to none
    when there was none), and the instances, closures and registrations
    are left as they were. *)
Theorem interception err n o i :
  (forall old k e v,
      options__e old err n o i = Call__c k e v ->
      truthy err = true /\ then_truthy (get_then err) = true /\
      e = err /\
      v = preserve_dom n o /\
      exists pre a post,
        ancestors n = pre ++ a :: post /\
        Forall (fun b => handler_of b = None) pre /\
        handler_of a = Some k) /\
  (forall old k,
      truthy err = true -> then_truthy (get_then err) = true ->
      nearest_handler n = Some k ->
      options__e old err n o i = Call__c k err (preserve_dom n o)) /\
  (forall old p k,
      thenable_of err = Some p -> nearest_handler n = Some k ->
      options__e old err n o i = Call__c k err (preserve_dom n o)) /\
  (forall old,
      truthy err = false \/ then_truthy (get_then err) = false \/
      nearest_handler n = None ->
      options__e old err n o i =
        if old then CallOld (err, n, o, i) else NoCall) /\
  (nearest_handler n = None ->
   Forall (fun b => handler_of b = None) (ancestors n)) /\
  (forall w k e v,
      options__e (oldCatchError w) err n o i = Call__c k e v ->
      catchError err n o i w = call__c k err v w /\
      (forall p, thenable_of err = Some p ->
                 catchError err n o i w = __c k p v w) /\
      (forall c, c <> k ->
                 instances (catchError err n o i w) !! c = instances w !! c) /\
      oldCatchError_calls (catchError err n o i w) = oldCatchError_calls w) /\
  (forall w,
      truthy err = false \/ then_truthy (get_then err) = false ->
      instances (catchError err n o i w) = instances w /\
      closures (catchError err n o i w) = closures w /\
      thens (catchError err n o i w) = thens w /\
      unregistered (catchError err n o i w) = unregistered w /\
      oldCatchError_calls (catchError err n o i w) =
        oldCatchError_calls w ++
          (if oldCatchError w then [(err, n, o, i)] else [])).
Proof.
  assert (forall old k,
             err_and_then err = true -> nearest_handler n = Some k ->
             options__e old err n o i = Call__c k err (preserve_dom n o)) as Hyes.
  { intros old k He Hk. unfold options__e. by rewrite He, Hk. }
  assert (forall old,
             err_and_then err = false \/ nearest_handler n = None ->
             options__e old err n o i =
               if old then CallOld (err, n, o, i) else NoCall) as Hno.
  { intros old [He | Hn]; unfold options__e.
    - by rewrite He.
    - rewrite Hn. by destruct (err_and_then err). }
  split_and!.
  - intros old k e v. unfold options__e.
    destruct (err_and_then err) eqn:He; [|by destruct old].
    destruct (nearest_handler n) as [k'|] eqn:Hn; [|by destruct old].
    intros [= <- <- <-]. apply err_and_then_spec in He as [Ht Hth].
    split_and!; [done | done | done | done |].
    by apply nearest_handler_Some.
  - intros old k Ht Hth Hk. apply Hyes; [|done]. by apply err_and_then_spec.
  - intros old p k Hp Hk. apply Hyes; [|done]. by eapply thenable_of_truthy.
  - intros old [Ht | [Hth | Hn]]; apply Hno; [left | left | by right].
    + unfold err_and_then. by rewrite Ht.
    + unfold err_and_then. rewrite Hth. by destruct (truthy err).
  - apply nearest_handler_None.
  - intros w k e v H.
    assert (e = err) as ->.
    { unfold options__e in H. destruct (err_and_then err), (nearest_handler n),
        (oldCatchError w); congruence. }
    assert (catchError err n o i w = call__c k err v w) as Heq
      by (unfold catchError; by rewrite H).
    split_and!; [done | | |].
    + intros p Hp. rewrite Heq. unfold call__c. by rewrite Hp.
    + intros c Hc. rewrite Heq. by apply instances_call__c_other.
    + rewrite Heq. unfold call__c. destruct (thenable_of err).
      * unfold __c. by destruct (instances w !! k).
      * apply old_calls_throws.
  - intros w Hf. unfold catchError. rewrite Hno.
    + destruct (oldCatchError w); cbn; by rewrite ?app_nil_r.
    + left. unfold err_and_then. destruct Hf as [-> | ->]; [done|].
      by destruct (truthy err).
Qed.

Lemma interception_witness :
  let outer := {| _parent := None; _component := Some (SuspenseInstance 0);
                  _dom := None; _children := None; _flags := None;
                  _hydrating := None |} in
  let inner := {| _parent := Some outer; _component := Some (SuspenseInstance 1);
                  _dom := None; _children := None; _flags := None;
                  _hydrating := None |} in
  let wrapper := {| _parent := Some inner;
                    _component := Some (PlainComponent "Wrapper");
                    _dom := None; _children := None; _flags := None;
                    _hydrating := None |} in
  let child := {| _parent := Some wrapper;
                  _component := Some (PlainComponent "Child");
                  _dom := None; _children := None; _flags := None;
                  _hydrating := None |} in
  let w := run [New loading_props; New loading_props] (init true) in
  let signal := JObject (Some (ThenMethod 7)) None in
  options__e true signal child child JUndefined =
    Call__c 1 signal (preserve_dom child child) /\
  instances (catchError signal child child JUndefined w) !! 0%nat =
    instances w !! 0%nat /\
  is_suspended (catchError signal child child JUndefined w) 1 = Some true /\
  oldCatchError_calls (catchError (JString "boom") child child JUndefined w) =
    [(JString "boom", child, child, JUndefined)].
Proof.
  intros outer inner wrapper child w signal.
  pose proof (interception signal child child JUndefined)
    as (_ & H2 & _ & _ & _ & H4 & _).
  pose proof (interception (JString "boom") child child JUndefined)
    as (_ & _ & _ & _ & _ & _ & H5).
  assert (options__e true signal child child JUndefined =
            Call__c 1 signal (preserve_dom child child)) as Hcall
    by (apply H2; reflexivity).
  split; [exact Hcall|].
  destruct (H4 w 1%nat signal (preserve_dom child child) Hcall)
    as (_ & Heq & Hother & _).
  split; [apply Hother; discriminate|].
  split; [rewrite (Heq 7%nat eq_refl); reflexivity|].
  destruct (H5 w) as (_ & _ & _ & _ & Hlog); [by right | exact Hlog].
Defined.

(** C5, as stated, fails on a raised object whose [then] is truthy and
    not a method, such as [{ then: 1 }]: it has no [then] method, yet the
    hook delegates it to the nearest boundary (whose count is incremented
    and which is suspended) and does not pass it to the hook installed
    before; the [promise.then(...)] of [__c] then throws, with nothing
    registered. *)
Lemma interception_truthy_then_counterexample :
  let boundary := {| _parent := None; _component := Some (SuspenseInstance 0);
                     _dom := None; _children := None; _flags := None;
                     _hydrating := None |} in
  let child := {| _parent := Some boundary;
                  _component := Some (PlainComponent "Child");
                  _dom := None; _children := None; _flags := None;
                  _hydrating := None |} in
  let w := run [New loading_props] (init true) in
  let err := JObject (Some (ThenData (NNumber 1))) None in
  let w' := catchError err child child JUndefined w in
  thenable_of err = None /\
  options__e true err child child JUndefined =
    Call__c 0 err (preserve_dom child child) /\
  oldCatchError_calls w' = [] /\
  pendingCount w' 0 = Some 1 /\
  is_suspended w' 0 = Some true /\
  thens w' = [] /\
  catchError_completion true err child child JUndefined = ThrowsTypeError /\
  ~ (forall old k e v,
        options__e old err child child JUndefined = Call__c k e v ->
        exists p, get_then err = Some (ThenMethod p)) /\
  ~ (thenable_of err = None ->
     oldCatchError_calls w' = [(err, child, child, JUndefined)]).
Proof.
  intros boundary child w err w'.
  split_and!; try reflexivity.
  - intros H.
    destruct (H true 0%nat err (preserve_dom child child) eq_refl) as [p Hp].
    discriminate Hp.
  - intros H. specialize (H eq_refl). discriminate H.
Qed.

End SuspenseFacts.

(* ===================================================================== *)
(** * Properties of src/lazy.ts *)
(* ===================================================================== *)

Module LazyFacts.
Import LazyTs.

(** ** Reactions *)

Lemma react_fields w t :
  promise (react w t) = promise w /\
  thens (react w t) = thens w /\
  refs (react w t) = refs w /\
  load_calls (react w t) = load_calls w /\
  length (heap (react w t)) = length (heap w).
Proof.
  unfold react.
  destruct (heap w !! derived t) as [[| |]|]; try done.
  destruct (heap w !! source t) as [[| |]|]; try done.
  - destruct (onFulfilled t); cbn; by rewrite length_insert.
  - cbn. by rewrite length_insert.
Qed.

Lemma react_settled w t :
  heap w !! derived t <> Some Pending -> react w t = w.
Proof.
  intros H. unfold react. by destruct (heap w !! derived t) as [[| |]|].
Qed.

Lemma react_unsettled_source w t :
  heap w !! source t = Some Pending \/ heap w !! source t = None ->
  react w t = w.
Proof.
  intros H. unfold react.
  destruct (heap w !! derived t) as [[| |]|]; try done.
  by destruct H as [-> | ->].
Qed.

Lemma foldl_react_id (l : list Then) w :
  (forall t, t ∈ l -> react w t = w) -> foldl react w l = w.
Proof.
  induction l as [|t l IH]; intros H; cbn; [done|].
  rewrite (H t) by (by left). apply IH. intros t' Ht'. apply H. by right.
Qed.

(** One pass over the registrations, with a property indexed by the number
    of registrations already visited. *)
Lemma foldl_react_prefix (P : nat -> World -> Prop) (l : list Then) w :
  P 0%nat w ->
  (forall k t w', l !! k = Some t -> P k w' -> P (S k) (react w' t)) ->
  P (length l) (foldl react w l).
Proof.
  induction l as [|t l IH] using rev_ind; intros H0 Hstep; [done|].
  rewrite foldl_app, length_app, Nat.add_1_r. cbn [foldl].
  apply Hstep; [by rewrite list_lookup_middle|].
  apply IH; [done|]. intros k t' w' Hk. apply Hstep.
  rewrite lookup_app_l; [done | by eapply lookup_lt_Some].
Qed.

(** ** A started load stays started *)

Lemma started_ext w w' :
  promise w' = promise w -> load_calls w' = load_calls w ->
  length (heap w') = length (heap w) -> thens w' = thens w ->
  started w -> started w'.
Proof.
  intros Hp Hl Hh Ht [H1 H2 H3 H4 H5 H6].
  split; rewrite ?Hp, ?Hl, ?Hh, ?Ht; done.
Qed.

Lemma started_then i w :
  started w -> started (then_ 1 (CbUpdate i) w).2.
Proof.
  intros [H1 H2 H3 H4 H5 H6]. split; cbn; try done.
  - rewrite !length_app; cbn. lia.
  - rewrite lookup_app_l; [done | by eapply lookup_lt_Some].
  - intros j t Ht. apply lookup_snoc_Some in Ht as [[_ Ht] | [-> <-]]; [eauto|].
    cbn. lia.
  - intros j t Ht. apply lookup_snoc_Some in Ht as [[_ Ht] | [_ <-]]; [eauto|].
    cbn. eauto.
Qed.

Lemma started_derived_bound w j t :
  started w -> thens w !! j = Some t ->
  (derived t < length (heap w))%nat /\ (source t < derived t)%nat.
Proof.
  intros Hs Ht. pose proof (lookup_lt_Some _ _ _ Ht) as Hlt.
  rewrite (st_derived w Hs j t Ht), (st_heap w Hs). split; [lia|].
  destruct j as [|j].
  - rewrite (st_first w Hs) in Ht. injection Ht as <-. cbn. lia.
  - destruct (st_rest w Hs j t Ht) as [-> _]. lia.
Qed.

(** ** The queue is empty between events *)

Lemma drain_loading w : loading w -> drain w = w.
Proof.
  intros (Hs & Hh & _). apply foldl_react_id. intros t Ht.
  apply react_unsettled_source.
  destruct (heap w !! source t) as [s|] eqn:E; [left | by right].
  f_equal. eapply (proj1 (Forall_lookup _ _) Hh); eauto.
Qed.

Lemma drain_failed e w : failed e w -> drain w = w.
Proof.
  intros (Hs & Hh & _). apply foldl_react_id. intros t Ht.
  apply react_settled. intros E.
  by pose proof (proj1 (Forall_lookup _ _) Hh _ _ E).
Qed.

Lemma drain_loaded m w : loaded m w -> drain w = w.
Proof.
  intros (Hs & H0 & H1 & H2 & _). apply foldl_react_id. intros t Ht.
  apply react_settled. intros E.
  apply list_elem_of_lookup in Ht as [j Ht].
  rewrite (st_derived w Hs j t Ht) in E. destruct j as [|j].
  - congruence.
  - by pose proof (H2 (S (S j)) _ ltac:(lia) E).
Qed.


Lemma foldl_react_fields (l : list Then) w :
  promise (foldl react w l) = promise w /\
  thens (foldl react w l) = thens w /\
  refs (foldl react w l) = refs w /\
  load_calls (foldl react w l) = load_calls w /\
  length (heap (foldl react w l)) = length (heap w).
Proof.
  revert w. induction l as [|t l IH]; intros w; cbn; [done|].
  destruct (IH (react w t)) as (-> & -> & -> & -> & ->). apply react_fields.
Qed.

Lemma drain_fields w :
  promise (drain w) = promise w /\
  thens (drain w) = thens w /\
  refs (drain w) = refs w /\
  load_calls (drain w) = load_calls w /\
  length (heap (drain w)) = length (heap w).
Proof. apply foldl_react_fields. Qed.

Lemma started_drain w : started w -> started (drain w).
Proof.
  destruct (drain_fields w) as (? & ? & _ & ? & ?). by apply started_ext.
Qed.

Lemma started_set_state q s w : started w -> started (set_state q s w).
Proof. apply started_ext; cbn; try done. by rewrite length_insert. Qed.

(** ** The load is rejected *)

Lemma drain_reject e w :
  loading w -> failed e (drain (set_state 0 (Rejected e) w)).
Proof.
  intros (Hs & Hh & Hc & Hu).
  set (w0 := set_state 0 (Rejected e) w).
  assert (started w0) as Hs0 by (by apply started_set_state).
  pose (P := fun (k : nat) (w' : World) =>
    component w' = JUndefined /\ update_calls w' = [] /\
    length (heap w') = length (heap w) /\
    (forall q, (q <= k)%nat -> heap w' !! q = Some (Rejected e)) /\
    (forall q, (k < q)%nat -> (q < length (heap w))%nat ->
               heap w' !! q = Some Pending)).
  assert (P (length (thens w0)) (drain w0)) as (Hc' & Hu' & Hl' & Hr' & _).
  { unfold drain. apply (foldl_react_prefix P).
    - unfold P, w0; cbn. split_and!; [done | done | by rewrite length_insert | |].
      + intros q Hq. assert (q = 0%nat) as -> by lia.
        apply list_lookup_insert_eq. rewrite (st_heap w Hs). lia.
      + intros q Hq Hlt. rewrite list_lookup_insert_ne by lia.
        destruct (lookup_lt_is_Some_2 (heap w) q Hlt) as [s Hq'].
        rewrite Hq'. f_equal. eapply (proj1 (Forall_lookup _ _) Hh); eauto.
    - intros k t w' Ht (Hc1 & Hu1 & Hl1 & Hr1 & Hp1).
      pose proof (lookup_lt_Some _ _ _ Ht) as Hk.
      assert (derived t = S k) as Hd by (by eapply (st_derived w0 Hs0)).
      assert (source t <= k)%nat as Hsrc.
      { destruct (started_derived_bound w0 k t Hs0 Ht). lia. }
      assert (S k < length (heap w))%nat as Hb.
      { rewrite (st_heap w Hs). unfold w0 in Hk; cbn in Hk. lia. }
      unfold react. rewrite Hd, (Hp1 (S k)), (Hr1 (source t)) by lia.
      unfold P; cbn. split_and!; [done | done | by rewrite length_insert | |].
      + intros q Hq. destruct (decide (q = S k)) as [->|].
        * apply list_lookup_insert_eq. lia.
        * rewrite list_lookup_insert_ne by lia. apply Hr1. lia.
      + intros q Hq Hlt. rewrite list_lookup_insert_ne by lia. apply Hp1; lia. }
  split_and!; [by apply started_drain | | done | done].
  apply Forall_lookup. intros q s Hq.
  pose proof (lookup_lt_Some _ _ _ Hq) as Hlt.
  rewrite Hl', (st_heap w Hs) in Hlt.
  rewrite Hr' in Hq by (unfold w0; cbn; lia). congruence.
Qed.

(** ** The load is fulfilled *)

Lemma updates_of_app l1 l2 : updates_of (l1 ++ l2) = updates_of l1 ++ updates_of l2.
Proof. apply omap_app. Qed.

Lemma drain_fulfil m w :
  loading w -> loaded m (drain (set_state 0 (Fulfilled m) w)).
Proof.
  intros (Hs & Hh & Hc & Hu).
  set (w0 := set_state 0 (Fulfilled m) w).
  assert (started w0) as Hs0 by (by apply started_set_state).
  pose (P := fun (k : nat) (w' : World) =>
    length (heap w') = length (heap w) /\
    heap w' !! 0%nat = Some (Fulfilled m) /\
    (k = 0%nat -> component w' = JUndefined /\ update_calls w' = []) /\
    ((1 <= k)%nat ->
       heap w' !! 1%nat = Some (Fulfilled (default_or_self m)) /\
       component w' = default_or_self m /\
       update_calls w' = updates_of (take k (thens w))) /\
    (forall q s, (2 <= q <= k)%nat -> heap w' !! q = Some s ->
                 s = Fulfilled JUndefined) /\
    (forall q, (k < q)%nat -> (q < length (heap w))%nat ->
               heap w' !! q = Some Pending)).
  assert (P (length (thens w0)) (drain w0)) as (Hl' & H0' & _ & H1' & H2' & _).
  { unfold drain. apply (foldl_react_prefix P).
    - unfold P, w0; cbn. split_and!; [by rewrite length_insert | | done | lia | |].
      + apply list_lookup_insert_eq. rewrite (st_heap w Hs). lia.
      + intros q s Hq. lia.
      + intros q Hq Hlt. rewrite list_lookup_insert_ne by lia.
        destruct (lookup_lt_is_Some_2 (heap w) q Hlt) as [s Hq'].
        rewrite Hq'. f_equal. eapply (proj1 (Forall_lookup _ _) Hh); eauto.
    - intros k t w' Ht (Hl1 & H01 & Hz1 & Hp1 & Hu1 & Hq1).
      pose proof (lookup_lt_Some _ _ _ Ht) as Hk.
      assert (derived t = S k) as Hd by (by eapply (st_derived w0 Hs0)).
      assert (S k < length (heap w))%nat as Hb.
      { rewrite (st_heap w Hs). unfold w0 in Hk; cbn in Hk. lia. }
      unfold react. rewrite Hd, (Hq1 (S k)) by lia.
      destruct k as [|k].
      + rewrite (st_first w0 Hs0) in Ht. injection Ht as <-.
        unfold loadModule_then. cbn [source onFulfilled].
        rewrite H01. cbn [run_callback].
        unfold P; cbn. split_and!.
        * by rewrite length_insert.
        * rewrite list_lookup_insert_ne by lia. done.
        * lia.
        * intros _. split_and!; [|done|].
          -- apply list_lookup_insert_eq. lia.
          -- destruct (Hz1 eq_refl) as [_ ->].
             pose proof (st_first w Hs) as Hf.
             destruct (thens w) as [|t0 l]; [done|]. injection Hf as ->. done.
        * intros q s Hq. lia.
        * intros q Hq Hlt. rewrite list_lookup_insert_ne by lia. apply Hq1; lia.
      + destruct (st_rest w0 Hs0 k t Ht) as [Hsrc [i Hi]].
        destruct (Hp1 ltac:(lia)) as (Hh1 & Hc1 & Hup1).
        rewrite Hsrc, Hh1, Hi. cbn [run_callback].
        unfold P; cbn. split_and!.
        * by rewrite length_insert.
        * rewrite list_lookup_insert_ne by lia. done.
        * lia.
        * intros _. split_and!; [|done|].
          -- rewrite list_lookup_insert_ne by lia. done.
          -- rewrite Hup1. unfold w0 in Ht; cbn in Ht.
             rewrite (take_S_r _ _ _ Ht), updates_of_app. cbn.
             by rewrite Hi.
        * intros q s Hq. destruct (decide (q = S (S k))) as [->|].
          -- rewrite list_lookup_insert_eq by lia. congruence.
          -- rewrite list_lookup_insert_ne by lia. apply Hu1. lia.
        * intros q Hq Hlt. rewrite list_lookup_insert_ne by lia. apply Hq1; lia. }
  assert (1 <= length (thens w0))%nat as Hpos.
  { pose proof (lookup_lt_Some _ _ _ (st_first w0 Hs0)). lia. }
  destruct (H1' Hpos) as (Hh1 & Hc1 & Hup1).
  split_and!; [by apply started_drain | done | done | | done |].
  - intros q s Hq Hqs. eapply H2'; [|done].
    pose proof (lookup_lt_Some _ _ _ Hqs) as Hlt.
    rewrite Hl', (st_heap w Hs) in Hlt. unfold w0; cbn. lia.
  - rewrite Hup1. destruct (drain_fields w0) as (_ & -> & _).
    unfold w0; cbn. by rewrite firstn_all.
Qed.

(** ** Registering on a promise that has settled *)

Lemma insert_snoc {A} (l : list A) (x y : A) :
  <[length l := x]> (l ++ [y]) = l ++ [x].
Proof.
  rewrite <- (Nat.add_0_r (length l)) at 1. by rewrite insert_app_r.
Qed.

Lemma drain_then cb w :
  started w ->
  Forall (fun s => s <> Pending) (heap w) ->
  drain (then_ 1 cb w).2 =
    react (then_ 1 cb w).2
      {| source := 1; onFulfilled := cb; derived := length (heap w) |}.
Proof.
  intros Hs Hh. unfold drain. cbn [then_ alloc snd thens with_heap heap].
  rewrite foldl_app. cbn [foldl]. f_equal.
  apply foldl_react_id. intros t Ht. apply react_settled. cbn.
  apply list_elem_of_lookup in Ht as [j Ht].
  destruct (started_derived_bound w j t Hs Ht) as [Hd _].
  rewrite lookup_app_l by done.
  destruct (lookup_lt_is_Some_2 (heap w) (derived t) Hd) as [s Hq].
  rewrite Hq. intros [= ->].
  by apply (proj1 (Forall_lookup _ _) Hh _ _ Hq).
Qed.

Lemma failed_then e i w :
  failed e w -> failed e (drain (then_ 1 (CbUpdate i) w).2).
Proof.
  intros (Hs & Hh & Hc & Hu).
  assert (heap w !! 1%nat = Some (Rejected e)) as H1.
  { destruct (lookup_lt_is_Some_2 (heap w) 1) as [s Hq].
    - rewrite (st_heap w Hs).
      pose proof (lookup_lt_Some _ _ _ (st_first w Hs)). lia.
    - rewrite Hq. f_equal. by apply (proj1 (Forall_lookup _ _) Hh _ _ Hq). }
  rewrite drain_then; [|done|].
  2: { eapply Forall_impl; [exact Hh|]. by intros s ->. }
  unfold react. cbn [then_ alloc snd heap with_heap derived source].
  rewrite list_lookup_middle by done.
  rewrite lookup_app_l by (by eapply lookup_lt_Some).
  rewrite H1. split_and!.
  - apply started_set_state, started_then, Hs.
  - cbn. rewrite insert_snoc. apply Forall_app. split; [done|]. by constructor.
  - done.
  - done.
Qed.

Lemma loaded_then m i w :
  loaded m w -> loaded m (drain (then_ 1 (CbUpdate i) w).2).
Proof.
  intros (Hs & H0 & H1 & H2 & Hc & Hu).
  assert (2 <= length (heap w))%nat as Hlen by (by eapply lookup_lt_Some).
  rewrite drain_then; [|done|].
  2: { apply Forall_lookup. intros q s Hq ->.
       destruct q as [|[|q]]; [congruence | congruence |].
       by pose proof (H2 (S (S q)) _ ltac:(lia) Hq). }
  unfold react. cbn [then_ alloc snd heap with_heap derived source onFulfilled].
  rewrite list_lookup_middle by done.
  rewrite lookup_app_l by lia.
  rewrite H1. cbn [run_callback]. split_and!.
  - apply started_set_state. apply (started_ext (then_ 1 (CbUpdate i) w).2);
      [done | done | done | done |]. by apply started_then.
  - cbn. rewrite insert_snoc, lookup_app_l by lia. done.
  - cbn. rewrite insert_snoc, lookup_app_l by lia. done.
  - cbn. rewrite insert_snoc. intros q s Hq Hqs.
    apply lookup_snoc_Some in Hqs as [[_ Hqs] | [_ <-]]; [eauto | done].
  - done.
  - cbn. rewrite Hu, updates_of_app. done.
Qed.

Lemma loading_register i w :
  loading w -> loading (then_ 1 (CbUpdate i) w).2.
Proof.
  intros (Hs & Hh & Hc & Hu).
  split_and!; [by apply started_then | | done | done].
  cbn. apply Forall_app. split; [done | by constructor].
Qed.

Lemma loading_then i w :
  loading w -> loading (drain (then_ 1 (CbUpdate i) w).2).
Proof.
  intros H. apply (loading_register i) in H. by rewrite drain_loading.
Qed.

(** ** Stores that differ in the ref cells *)


Lemma same_but_refs_set_ref i v w : same_but_refs w (set_ref i v w).
Proof. by repeat split. Qed.

Lemma same_but_refs_useRef i w : same_but_refs w (useRef i w).2.
Proof. unfold useRef. destruct (refs w !! i); by repeat split. Qed.

Lemma started_refs w w' : same_but_refs w w' -> started w -> started w'.
Proof. intros (? & ? & Hh & ? & ? & ?). apply started_ext; try done. by rewrite Hh. Qed.

Lemma loading_refs w w' : same_but_refs w w' -> loading w -> loading w'.
Proof.
  intros Hr (? & ? & ? & ?). pose proof (started_refs _ _ Hr).
  destruct Hr as (? & Hc & Hh & ? & ? & Hu). unfold loading.
  rewrite Hh, Hc, Hu. auto.
Qed.

Lemma failed_refs e w w' : same_but_refs w w' -> failed e w -> failed e w'.
Proof.
  intros Hr (? & ? & ? & ?). pose proof (started_refs _ _ Hr).
  destruct Hr as (? & Hc & Hh & ? & ? & Hu). unfold failed.
  rewrite Hh, Hc, Hu. auto.
Qed.

Lemma loaded_refs m w w' : same_but_refs w w' -> loaded m w -> loaded m w'.
Proof.
  intros Hr (? & ? & ? & ? & ? & ?). pose proof (started_refs _ _ Hr).
  destruct Hr as (? & Hc & Hh & Ht & ? & Hu). unfold loaded.
  rewrite Hh, Hc, Hu, Ht. split_and!; auto.
Qed.

(** ** One event in each phase *)


Lemma ensure_promise_started w : started w -> ensure_promise w = (1%nat, w).
Proof. intros Hs. unfold ensure_promise. by rewrite (st_promise w Hs). Qed.

Lemma useRef_current i w :
  refs_ok w ->
  (useRef i w).1 = JUndefined \/ is_defined (component w) = true.
Proof.
  intros Hr. unfold useRef. destruct (refs w !! i) as [v|] eqn:E; cbn; [eauto|].
  destruct (component w); auto.
Qed.

Lemma refs_ok_useRef i w : refs_ok w -> refs_ok (useRef i w).2.
Proof.
  intros Hr. unfold useRef. destruct (refs w !! i) as [v|] eqn:E; [done|].
  intros j v; cbn. rewrite lookup_insert. case_decide; [|by apply Hr].
  intros [= <-]. destruct (component w); auto.
Qed.


Lemma refs_ok_ext w w' :
  refs w' = refs w ->
  component w' = component w \/ component w = JUndefined ->
  refs_ok w -> refs_ok w'.
Proof.
  intros Hr Hc H i v Hv. rewrite Hr in Hv. destruct (H i v Hv) as [?|Hd]; [by left|].
  destruct Hc as [-> | Hc]; [by right|]. by rewrite Hc in Hd.
Qed.

Lemma LazyComponent_started i p w :
  started w -> refs_ok w ->
  LazyComponent i p w =
    if is_defined (component w)
    then (Return (createElement (component w) p), (useRef i w).2)
    else (Throw 1,
          (then_ 1 (CbUpdate i) (set_ref i JUndefined (useRef i w).2)).2).
Proof.
  intros Hs Hr. unfold LazyComponent.
  pose proof (useRef_current i w Hr) as Hcur.
  pose proof (same_but_refs_useRef i w) as Hsame.
  destruct (useRef i w) as [cur w1]. cbn [fst snd] in *.
  rewrite (ensure_promise_started w1) by (by eapply started_refs).
  destruct Hsame as (_ & Hc & _). rewrite Hc.
  destruct (is_defined (component w)) eqn:D; [done|].
  destruct Hcur as [-> | ?]; [|done]. done.
Qed.

Lemma exec_render_loading i p w :
  refs_ok w -> loading w ->
  (exec (Render i p) w).1 = Rendered (Throw 1) /\
  refs_ok (exec (Render i p) w).2 /\
  loading (exec (Render i p) w).2.
Proof.
  intros Hr Hl. pose proof Hl as (Hs & _ & Hc & _).
  unfold exec. rewrite (LazyComponent_started i p w Hs Hr), Hc. cbn [is_defined fst snd].
  set (w1 := set_ref i JUndefined (useRef i w).2).
  assert (loading w1) as Hl1.
  { eapply loading_refs; [apply same_but_refs_set_ref|].
    eapply loading_refs; [apply same_but_refs_useRef | done]. }
  split_and!; [done | | by apply loading_then].
  rewrite drain_loading by (by apply (loading_register i w1)).
  intros j v; cbn. intros Hv. left.
  rewrite lookup_insert in Hv. case_decide; [congruence|].
  destruct (refs_ok_useRef i w Hr j v Hv) as [?|Hd]; [done|].
  destruct (same_but_refs_useRef i w) as (_ & Hc' & _).
  by rewrite Hc', Hc in Hd.
Qed.

Lemma exec_render_failed e i p w :
  refs_ok w -> failed e w ->
  (exec (Render i p) w).1 = Rendered (Throw 1) /\
  refs_ok (exec (Render i p) w).2 /\
  failed e (exec (Render i p) w).2.
Proof.
  intros Hr Hl. pose proof Hl as (Hs & _ & Hc & _).
  unfold exec. rewrite (LazyComponent_started i p w Hs Hr), Hc. cbn [is_defined fst snd].
  set (w1 := set_ref i JUndefined (useRef i w).2).
  assert (failed e w1) as Hl1.
  { eapply failed_refs; [apply same_but_refs_set_ref|].
    eapply failed_refs; [apply same_but_refs_useRef | done]. }
  pose proof (failed_then e i w1 Hl1) as Hf.
  split_and!; [done | | done].
  destruct (drain_fields (then_ 1 (CbUpdate i) w1).2) as (_ & _ & Hrefs & _).
  intros j v. rewrite Hrefs. cbn. intros Hv. left.
  rewrite lookup_insert in Hv. case_decide; [congruence|].
  destruct (refs_ok_useRef i w Hr j v Hv) as [?|Hd]; [done|].
  destruct (same_but_refs_useRef i w) as (_ & Hc' & _).
  by rewrite Hc', Hc in Hd.
Qed.

Lemma exec_render_loaded m i p w :
  refs_ok w -> loaded m w ->
  (exec (Render i p) w).1 =
    Rendered (if is_defined (component w)
              then Return (createElement (component w) p) else Throw 1) /\
  refs_ok (exec (Render i p) w).2 /\
  loaded m (exec (Render i p) w).2.
Proof.
  intros Hr Hl. pose proof Hl as (Hs & _ & _ & _ & Hc & _).
  unfold exec. rewrite (LazyComponent_started i p w Hs Hr).
  destruct (is_defined (component w)) eqn:D; cbn [fst snd].
  - assert (loaded m (useRef i w).2) as Hl1
      by (eapply loaded_refs; [apply same_but_refs_useRef | done]).
    rewrite (drain_loaded m) by done.
    split_and!; [done | by apply refs_ok_useRef | done].
  - set (w1 := set_ref i JUndefined (useRef i w).2).
    assert (loaded m w1) as Hl1.
    { eapply loaded_refs; [apply same_but_refs_set_ref|].
      eapply loaded_refs; [apply same_but_refs_useRef | done]. }
    pose proof (loaded_then m i w1 Hl1) as Hf.
    split_and!; [done | | done].
    destruct (drain_fields (then_ 1 (CbUpdate i) w1).2) as (_ & _ & Hrefs & _).
    intros j v. rewrite Hrefs. cbn. intros Hv.
    rewrite lookup_insert in Hv. case_decide; [left; congruence|].
    destruct (refs_ok_useRef i w Hr j v Hv) as [?|Hd]; [by left|].
    destruct (same_but_refs_useRef i w) as (_ & Hc' & _).
    rewrite Hc', D in Hd. done.
Qed.

Lemma exec_render_init i p :
  (exec (Render i p) init).1 = Rendered (Throw 1) /\
  refs_ok (exec (Render i p) init).2 /\
  loading (exec (Render i p) init).2.
Proof.
  unfold exec, LazyComponent, useRef. cbn [init refs]. rewrite lookup_empty.
  cbn. split_and!; [done | |].
  - intros j v; cbn. rewrite !lookup_insert. repeat case_decide; try done.
    all: intros [= <-]; by left.
  - split_and!; [|by repeat constructor|done|done].
    split; cbn; try done.
    all: intros [|[|[|j]]] t; cbn; try done; intros [= <-]; eauto.
Qed.

Lemma exec_preload_init :
  (exec Preload init).1 = Preloaded 1 /\
  refs_ok (exec Preload init).2 /\
  loading (exec Preload init).2.
Proof.
  cbn. split_and!; [done | |].
  - intros j v; cbn. by rewrite lookup_empty.
  - split_and!; [|by repeat constructor|done|done].
    split; cbn; try done.
    all: intros [|[|j]] t; cbn; try done; intros [= <-]; eauto.
Qed.


Lemma exec_preload_started w :
  started w -> drain w = w -> exec Preload w = (Preloaded 1, w).
Proof.
  intros Hs Hd. unfold exec, preload. by rewrite ensure_promise_started, Hd.
Qed.

Lemma heap_load_pending w : loading w -> heap w !! 0%nat = Some Pending.
Proof.
  intros (Hs & Hh & _).
  destruct (lookup_lt_is_Some_2 (heap w) 0) as [s Hq];
    [rewrite (st_heap w Hs); lia|].
  rewrite Hq. f_equal. by apply (proj1 (Forall_lookup _ _) Hh _ _ Hq).
Qed.

Lemma settle_loading l o v w :
  loading w ->
  settle l o v w =
    if decide (l = 0%nat)
    then set_state 0 (match o with Fulfil => Fulfilled v | Reject => Rejected v end) w
    else w.
Proof.
  intros Hl. pose proof (heap_load_pending w Hl) as H0.
  destruct Hl as (Hs & _). unfold settle. rewrite (st_loads w Hs).
  destruct (decide (l = 0%nat)) as [->|Hne].
  - rewrite bool_decide_true by (by left). by rewrite H0.
  - rewrite bool_decide_false; [done|]. by intros ->%list_elem_of_singleton.
Qed.

Lemma settle_settled l o v w :
  started w -> heap w !! 0%nat <> Some Pending -> settle l o v w = w.
Proof.
  intros Hs H0. unfold settle. rewrite (st_loads w Hs).
  destruct (decide (l = 0%nat)) as [->|Hne].
  - rewrite bool_decide_true by (by left).
    by destruct (heap w !! 0%nat) as [[| |]|].
  - rewrite bool_decide_false; [done|]. by intros ->%list_elem_of_singleton.
Qed.

Lemma failed_load_rejected e w : failed e w -> heap w !! 0%nat = Some (Rejected e).
Proof.
  intros (Hs & Hh & _).
  destruct (lookup_lt_is_Some_2 (heap w) 0) as [s Hq];
    [rewrite (st_heap w Hs); lia|].
  rewrite Hq. f_equal. by apply (proj1 (Forall_lookup _ _) Hh _ _ Hq).
Qed.

Lemma failed_promise_rejected e w : failed e w -> heap w !! 1%nat = Some (Rejected e).
Proof.
  intros (Hs & Hh & _).
  destruct (lookup_lt_is_Some_2 (heap w) 1) as [s Hq].
  - rewrite (st_heap w Hs). pose proof (lookup_lt_Some _ _ _ (st_first w Hs)). lia.
  - rewrite Hq. f_equal. by apply (proj1 (Forall_lookup _ _) Hh _ _ Hq).
Qed.

Lemma exec_settle_failed e l o v w : failed e w -> exec (Settle l o v) w = (Settled, w).
Proof.
  intros Hf. unfold exec. rewrite settle_settled.
  - by rewrite (drain_failed e).
  - by destruct Hf.
  - by rewrite (failed_load_rejected e w Hf).
Qed.

Lemma exec_settle_loaded m l o v w : loaded m w -> exec (Settle l o v) w = (Settled, w).
Proof.
  intros Hf. unfold exec. rewrite settle_settled.
  - by rewrite (drain_loaded m).
  - by destruct Hf.
  - destruct Hf as (_ & -> & _). done.
Qed.

Lemma phase_started w : phase w -> started w.
Proof. intros [H | [[e H] | [m H]]]; by destruct H. Qed.

Lemma phase_exec e w :
  refs_ok w -> phase w -> refs_ok (exec e w).2 /\ phase (exec e w).2.
Proof.
  unfold phase. intros Hr [Hl | [[x Hf] | [m Hm]]].
  - destruct e as [i p| |l o v].
    + destruct (exec_render_loading i p w Hr Hl) as (_ & ? & ?). split; auto.
    + rewrite exec_preload_started; [split; auto | by destruct Hl | by apply drain_loading].
    + unfold exec; cbn [snd]. rewrite (settle_loading l o v w Hl).
      destruct (decide (l = 0%nat)) as [->|Hne].
      * destruct o.
        -- pose proof (drain_fulfil v w Hl) as Hm. split; [|eauto 6].
           destruct Hl as (_ & _ & Hc & _).
           eapply refs_ok_ext; [| |exact Hr]; [|by right].
           by destruct (drain_fields (set_state 0 (Fulfilled v) w)) as (_ & _ & -> & _).
        -- pose proof (drain_reject v w Hl) as Hf. split; [|eauto 6].
           destruct Hl as (_ & _ & Hc & _).
           eapply refs_ok_ext; [| |exact Hr]; [|by right].
           by destruct (drain_fields (set_state 0 (Rejected v) w)) as (_ & _ & -> & _).
      * rewrite drain_loading by done. split; auto.
  - destruct e as [i p| |l o v].
    + destruct (exec_render_failed x i p w Hr Hf) as (_ & ? & ?). split; eauto 6.
    + rewrite exec_preload_started;
        [split; eauto 6 | by destruct Hf | by apply (drain_failed x)].
    + rewrite (exec_settle_failed x) by done. split; eauto 6.
  - destruct e as [i p| |l o v].
    + destruct (exec_render_loaded m i p w Hr Hm) as (_ & ? & ?). split; eauto 6.
    + rewrite exec_preload_started;
        [split; eauto 6 | by destruct Hm | by apply (drain_loaded m)].
    + rewrite (exec_settle_loaded m) by done. split; eauto 6.
Qed.

Lemma phase_run evs w :
  refs_ok w -> phase w -> refs_ok (run evs w) /\ phase (run evs w).
Proof.
  revert w. induction evs as [|e evs IH]; intros w Hr Hp; cbn; [done|].
  destruct (phase_exec e w Hr Hp). by apply IH.
Qed.

Lemma exec_init e :
  (starts_load e = false /\ exec e init = (Settled, init)) \/
  (starts_load e = true /\
   refs_ok (exec e init).2 /\ loading (exec e init).2 /\
   ((exec e init).1 = Preloaded 1 \/ (exec e init).1 = Rendered (Throw 1))).
Proof.
  destruct e as [i p| |l o v].
  - right. destruct (exec_render_init i p) as (? & ? & ?). auto.
  - right. destruct exec_preload_init as (? & ? & ?). auto.
  - left. done.
Qed.

(** The invariant holds along every history. *)
Lemma inv_exec e w : inv w -> inv (exec e w).2.
Proof.
  intros [Hr [-> | Hp]].
  - destruct (exec_init e) as [[_ ->] | (_ & ? & ? & _)].
    + split; [done | by left].
    + split; [done|]. right. by left.
  - destruct (phase_exec e w Hr Hp). split; auto.
Qed.

Lemma inv_init : inv init.
Proof. split; [|by left]. intros i v. cbn. by rewrite lookup_empty. Qed.

Lemma inv_run evs w : inv w -> inv (run evs w).
Proof.
  revert w. induction evs as [|e evs IH]; intros w H; cbn; [done|].
  by apply IH, inv_exec.
Qed.



(** ** What the events return *)

Lemma phase_promise w : phase w -> promise w = Some 1%nat /\ load_calls w = [0%nat].
Proof. intros H. apply phase_started in H. by destruct H. Qed.

Lemma exec_result_phase e w :
  refs_ok w -> phase w ->
  match (exec e w).1 with
  | Preloaded q => q = 1%nat
  | Rendered (Throw q) => q = 1%nat /\ is_defined (component w) = false
  | Rendered (Return v) =>
      exists i p, e = Render i p /\ v = createElement (component w) p /\
                  is_defined (component w) = true
  | Settled => True
  end.
Proof.
  intros Hr Hp. destruct e as [i p| |l o v].
  - destruct Hp as [Hl | [[x Hf] | [m Hm]]].
    + destruct (exec_render_loading i p w Hr Hl) as (-> & _).
      destruct Hl as (_ & _ & -> & _). done.
    + destruct (exec_render_failed x i p w Hr Hf) as (-> & _).
      destruct Hf as (_ & _ & -> & _). done.
    + destruct (exec_render_loaded m i p w Hr Hm) as (-> & _).
      destruct (is_defined (component w)) eqn:D; eauto.
  - unfold exec, preload.
    rewrite ensure_promise_started by (by apply phase_started). done.
  - done.
Qed.

Lemma results_phase evs w r q :
  refs_ok w -> phase w -> r ∈ results evs w -> names_promise q r -> q = 1%nat.
Proof.
  revert w. induction evs as [|e evs IH]; intros w Hr Hp Hin Hn; cbn in Hin.
  - by apply elem_of_nil in Hin.
  - apply elem_of_cons in Hin as [-> | Hin].
    + pose proof (exec_result_phase e w Hr Hp) as H.
      destruct Hn as [Hn | Hn]; rewrite Hn in H; [done | by destruct H].
    + destruct (phase_exec e w Hr Hp). eauto.
Qed.

Lemma run_init_started evs :
  existsb starts_load evs = true ->
  refs_ok (run evs init) /\ phase (run evs init).
Proof.
  induction evs as [|e evs IH]; cbn; [done|].
  destruct (exec_init e) as [[-> ->] | (-> & Hr & Hl & _)]; [done|].
  intros _. apply phase_run; [done | by left].
Qed.

Lemma results_init evs r q :
  r ∈ results evs init -> names_promise q r ->
  q = 1%nat /\ phase (run evs init).
Proof.
  induction evs as [|e evs IH]; cbn; intros Hin Hn.
  - by apply elem_of_nil in Hin.
  - destruct (exec_init e) as [[_ He] | (_ & Hr & Hl & Hres)].
    + rewrite He in *. cbn in *. apply elem_of_cons in Hin as [-> | Hin]; [|eauto].
      by destruct Hn.
    + assert (phase (exec e init).2) as Hp by (by left).
      split; [|by apply phase_run].
      apply elem_of_cons in Hin as [-> | Hin].
      * destruct Hn as [Hn | Hn], Hres as [Hres | Hres]; congruence.
      * by eapply results_phase.
Qed.

(** C8.  Along every interleaving of [preload()] calls, render attempts
    and settlements of the load, the caller's [load] is called at most
    once, and exactly once as soon as a [preload()] or a render attempt
    has occurred; every [preload()] returns the promise held in
    [promise], which is also the one every suspended render throws. *)
Theorem load_once evs :
  let w := run evs init in
  (length (load_calls w) <= 1)%nat /\
  (existsb starts_load evs = true ->
   length (load_calls w) = 1%nat /\ is_Some (promise w)) /\
  (forall q, Preloaded q ∈ results evs init -> promise w = Some q) /\
  (forall q, Rendered (Throw q) ∈ results evs init -> promise w = Some q).
Proof.
  intros w. split_and!.
  - destruct (inv_run evs init inv_init) as [_ [H | H]]; fold w in H.
    + rewrite H. cbn. lia.
    + destruct (phase_promise w H) as [_ ->]. done.
  - intros H. destruct (run_init_started evs H) as [_ Hp].
    destruct (phase_promise _ Hp) as [Hpr Hl]. fold w in Hpr, Hl.
    rewrite Hpr, Hl. split; [done | by eexists].
  - intros q Hq. destruct (results_init evs _ q Hq) as [-> Hp]; [by left|].
    by destruct (phase_promise _ Hp).
  - intros q Hq. destruct (results_init evs _ q Hq) as [-> Hp]; [by right|].
    by destruct (phase_promise _ Hp).
Qed.

Lemma load_once_witness :
  let evs := [Preload; Render 0 []; Preload; Settle 0 Fulfil (JFunction "C");
              Render 0 []; Preload] in
  length (load_calls (run evs init)) = 1%nat /\
  promise (run evs init) = Some 1%nat.
Proof.
  intros evs. destruct (load_once evs) as (_ & H2 & H3 & _).
  split; [apply H2; reflexivity|].
  apply H3. vm_compute. apply list_elem_of_here.
Defined.

(** ** After the load settled *)

Lemma run_cons e evs w : run (e :: evs) w = run evs (exec e w).2.
Proof. reflexivity. Qed.

Lemma loading_of_pending w l :
  inv w -> load_calls w = [l] -> heap w !! l = Some Pending ->
  l = 0%nat /\ refs_ok w /\ loading w.
Proof.
  intros [Hr [-> | Hp]] Hl Hh; [done|].
  destruct (phase_promise w Hp) as [_ Hl']. rewrite Hl' in Hl.
  injection Hl as <-. split_and!; [done | done |].
  destruct Hp as [H | [[e H] | [m H]]]; [done | |].
  - rewrite (failed_load_rejected e w H) in Hh. done.
  - destruct H as (_ & H0 & _). congruence.
Qed.

Lemma failed_run e evs w :
  refs_ok w -> failed e w -> refs_ok (run evs w) /\ failed e (run evs w).
Proof.
  revert w. induction evs as [|ev evs IH]; intros w Hr Hf; [done|].
  rewrite run_cons. destruct ev as [i p| |l o v].
  - destruct (exec_render_failed e i p w Hr Hf) as (_ & ? & ?). by apply IH.
  - rewrite exec_preload_started;
      [by apply IH | by destruct Hf | by apply (drain_failed e)].
  - rewrite (exec_settle_failed e) by done. by apply IH.
Qed.

Lemma loaded_run m evs w :
  refs_ok w -> loaded m w -> refs_ok (run evs w) /\ loaded m (run evs w).
Proof.
  revert w. induction evs as [|ev evs IH]; intros w Hr Hf; [done|].
  rewrite run_cons. destruct ev as [i p| |l o v].
  - destruct (exec_render_loaded m i p w Hr Hf) as (_ & ? & ?). by apply IH.
  - rewrite exec_preload_started;
      [by apply IH | by destruct Hf | by apply (drain_loaded m)].
  - rewrite (exec_settle_loaded m) by done. by apply IH.
Qed.

Lemma exec_reject w e :
  refs_ok w -> loading w ->
  refs_ok (exec (Settle 0 Reject e) w).2 /\ failed e (exec (Settle 0 Reject e) w).2.
Proof.
  intros Hr Hl. unfold exec; cbn [snd].
  rewrite (settle_loading 0 Reject e w Hl), decide_True by done.
  split; [|by apply drain_reject].
  destruct Hl as (_ & _ & Hc & _).
  eapply refs_ok_ext; [| |exact Hr]; [|by right].
  by destruct (drain_fields (set_state 0 (Rejected e) w)) as (_ & _ & -> & _).
Qed.

Lemma exec_fulfil w m :
  refs_ok w -> loading w ->
  refs_ok (exec (Settle 0 Fulfil m) w).2 /\ loaded m (exec (Settle 0 Fulfil m) w).2 /\
  thens (exec (Settle 0 Fulfil m) w).2 = thens w.
Proof.
  intros Hr Hl. unfold exec; cbn [snd].
  rewrite (settle_loading 0 Fulfil m w Hl), decide_True by done.
  split_and!; [|by apply drain_fulfil|].
  - destruct Hl as (_ & _ & Hc & _).
    eapply refs_ok_ext; [| |exact Hr]; [|by right].
    by destruct (drain_fields (set_state 0 (Fulfilled m) w)) as (_ & _ & -> & _).
  - by destruct (drain_fields (set_state 0 (Fulfilled m) w)) as (_ & -> & _).
Qed.

(** C10.  When the promise returned by [load] rejects while the load is
    in flight, then after every further history: [component] is still
    unset, [promise] still holds the same promise and that promise is
    rejected, [load] has still been called once, no [update(1)] has been
    called, and a render attempt throws that same promise. *)
Theorem rejected_load evs1 l reason evs2 :
  let w1 := run evs1 init in
  let w2 := run (Settle l Reject reason :: evs2) w1 in
  load_calls w1 = [l] ->
  heap w1 !! l = Some Pending ->
  component w2 = JUndefined /\
  promise w2 = promise w1 /\
  load_calls w2 = [l] /\
  update_calls w2 = [] /\
  exists pr,
    promise w2 = Some pr /\
    heap w2 !! pr = Some (Rejected reason) /\
    forall i p, (exec (Render i p) w2).1 = Rendered (Throw pr).
Proof.
  intros w1 w2 Hl Hh.
  destruct (loading_of_pending w1 l (inv_run evs1 init inv_init) Hl Hh)
    as (-> & Hr & Hld).
  destruct (exec_reject w1 reason Hr Hld) as [Hr1 Hf1].
  destruct (failed_run reason evs2 _ Hr1 Hf1) as [Hr2 Hf2].
  change (run evs2 (exec (Settle 0 Reject reason) w1).2) with w2 in Hr2, Hf2.
  pose proof Hf2 as (Hs & _ & Hc & Hu).
  destruct Hld as (Hs1 & _).
  split_and!; [done | | by apply (st_loads w2) | done |].
  - by rewrite (st_promise w2 Hs), (st_promise w1 Hs1).
  - exists 1%nat. split_and!; [by apply (st_promise w2) | |].
    + by apply failed_promise_rejected.
    + intros i p. by destruct (exec_render_failed reason i p w2 Hr2 Hf2).
Qed.

Lemma rejected_load_witness :
  let w2 := run [Settle 0 Reject (JString "network"); Render 0 []; Preload; Render 1 []]
              (run [Render 0 []] init) in
  component w2 = JUndefined /\ update_calls w2 = [] /\
  load_calls w2 = [0%nat] /\
  (exec (Render 2 []) w2).1 = Rendered (Throw 1).
Proof.
  intros w2.
  destruct (rejected_load [Render 0 []] 0%nat (JString "network")
              [Render 0 []; Preload; Render 1 []])
    as (Hc & Hp & Hl & Hu & pr & Hpr & _ & Hthrow); [reflexivity | reflexivity|].
  split; [exact Hc|]. split; [exact Hu|]. split; [exact Hl|].
  assert (pr = 1%nat) as -> by (vm_compute in Hpr; congruence).
  exact (Hthrow 2%nat []).
Defined.

Lemma default_or_self_cases m :
  default_or_self m = if exposes_default m then get_default m else m.
Proof.
  unfold default_or_self, exposes_default, js_or, js_and.
  destruct (truthy m) eqn:T; [|by rewrite T].
  by destruct (truthy (get_default m)).
Qed.

(** C9.  When the promise returned by [load] fulfils with [m] while the
    load is in flight, the content cached in [component] is [m.default]
    if [m] exposes a default export ([m && m.default] is truthy) and [m]
    itself otherwise: it is [X] for the module [{ default: X }] with a
    truthy [X], and for an [X] with no [default] field.  Once cached and
    not [undefined], it is what every later render attempt returns, with
    the props it was given.  In particular, for a function component [X],
    both [{ default: X }] and [X] itself make [X] the cached and rendered
    content. *)
Theorem resolution_normalized evs l m :
  let w := run evs init in
  let w' := run [Settle l Fulfil m] w in
  load_calls w = [l] ->
  heap w !! l = Some Pending ->
  component w' = (if exposes_default m then get_default m else m) /\
  (forall X, truthy X = true -> m = module_with_default X -> component w' = X) /\
  (get_default m = JUndefined -> component w' = m) /\
  (is_defined (component w') = true ->
   forall evs' i p,
     component (run evs' w') = component w' /\
     (exec (Render i p) (run evs' w')).1 =
       Rendered (Return (createElement (component w') p))) /\
  (forall f,
     m = module_with_default (JFunction f) \/ m = JFunction f ->
     component w' = JFunction f /\
     forall evs' i p,
       (exec (Render i p) (run evs' w')).1 =
         Rendered (Return (createElement (JFunction f) p))).
Proof.
  intros w w' Hl Hh.
  destruct (loading_of_pending w l (inv_run evs init inv_init) Hl Hh)
    as (-> & Hr & Hld).
  destruct (exec_fulfil w m Hr Hld) as (Hr1 & Hm1 & _).
  change (exec (Settle 0 Fulfil m) w).2 with w' in Hr1, Hm1.
  pose proof Hm1 as (_ & _ & _ & _ & Hc & _).
  assert (is_defined (component w') = true ->
          forall evs' i p,
            component (run evs' w') = component w' /\
            (exec (Render i p) (run evs' w')).1 =
              Rendered (Return (createElement (component w') p))) as Hrender.
  { intros Hdef evs' i p.
    destruct (loaded_run m evs' w' Hr1 Hm1) as [Hr2 Hm2].
    pose proof Hm2 as (_ & _ & _ & _ & Hc2 & _).
    split; [congruence|].
    destruct (exec_render_loaded m i p _ Hr2 Hm2) as (-> & _).
    rewrite Hc2, <- Hc, Hdef. done. }
  split_and!.
  - by rewrite Hc, default_or_self_cases.
  - intros X HX ->. rewrite Hc, default_or_self_cases.
    unfold exposes_default, module_with_default, js_and; cbn. by rewrite HX.
  - intros Hd. rewrite Hc, default_or_self_cases.
    unfold exposes_default, js_and. rewrite Hd.
    destruct (truthy m) eqn:T; [done | by rewrite T].
  - exact Hrender.
  - intros f Hm.
    assert (component w' = JFunction f) as Hf
      by (rewrite Hc; by destruct Hm as [-> | ->]).
    split; [done|]. intros evs' i p.
    destruct (Hrender ltac:(by rewrite Hf) evs' i p) as [_ ->]. by rewrite Hf.
Qed.

Lemma resolution_normalized_witness :
  let Comp := JFunction "Comp" in
  component (run [Settle 0 Fulfil (module_with_default Comp)]
               (run [Preload] init)) = Comp /\
  component (run [Settle 0 Fulfil Comp] (run [Render 0 []] init)) = Comp /\
  (exec (Render 0 [("id", JNumber 1)])
     (run [Settle 0 Fulfil Comp] (run [Render 0 []] init))).1 =
    Rendered (Return (createElement Comp [("id", JNumber 1)])).
Proof.
  intros Comp.
  destruct (resolution_normalized [Preload] 0%nat (module_with_default Comp))
    as (_ & H1 & _); [reflexivity | reflexivity|].
  destruct (resolution_normalized [Render 0 []] 0%nat Comp)
    as (_ & _ & H2 & H3 & _); [reflexivity | reflexivity|].
  split; [apply (H1 Comp); reflexivity|].
  split; [apply H2; reflexivity|].
  destruct (H3 (f_equal is_defined (H2 eq_refl)) [] 0%nat [("id", JNumber 1)])
    as [_ H].
  rewrite (H2 eq_refl) in H. exact H.
Defined.

(** ** A render attempt *)

Lemma exec_render_phase i p w :
  refs_ok w -> phase w ->
  exec (Render i p) w =
    if is_defined (component w)
    then (Rendered (Return (createElement (component w) p)), drain (useRef i w).2)
    else (Rendered (Throw 1),
          drain (then_ 1 (CbUpdate i) (set_ref i JUndefined (useRef i w).2)).2).
Proof.
  intros Hr Hp. unfold exec.
  rewrite (LazyComponent_started i p w (phase_started w Hp) Hr).
  by destruct (is_defined (component w)).
Qed.

Lemma thens_render_init i p :
  thens (exec (Render i p) init).2 =
    [loadModule_then] ++ [{| source := 1; onFulfilled := CbUpdate i; derived := 2 |}].
Proof.
  unfold exec, LazyComponent, useRef. cbn [init refs]. by rewrite lookup_empty.
Qed.

Lemma updates_after_fulfil w m :
  refs_ok w -> loading w ->
  update_calls (run [Settle 0 Fulfil m] w) = updates_of (thens w).
Proof.
  intros Hr Hl. destruct (exec_fulfil w m Hr Hl) as (_ & Hm & Ht).
  destruct Hm as (_ & _ & _ & _ & _ & Hu).
  change (run [Settle 0 Fulfil m] w) with (exec (Settle 0 Fulfil m) w).2.
  by rewrite Hu, Ht.
Qed.

Lemma updates_after_reject w e evs :
  refs_ok w -> loading w ->
  update_calls (run (Settle 0 Reject e :: evs) w) = [].
Proof.
  intros Hr Hl. destruct (exec_reject w e Hr Hl) as (Hr1 & Hf1).
  rewrite run_cons. by destruct (failed_run e evs _ Hr1 Hf1) as (_ & _ & _ & _ & ?).
Qed.

(** C7, as amended.  Every render attempt leaves the load started, with
    [load] called exactly once and not again if it had started.  When
    [component] is set, the attempt returns
    [createElement(component, props)] with the props it received and
    registers nothing.  When it is not, the attempt throws the promise held
    in [promise] after registering [() => update(1)] on it as a fulfilment
    callback; while the load is in flight this means: once the load
    fulfils, [update(1)] is called for the instance, and if it rejects, no
    [update(1)] is ever called. *)
Theorem render_attempt evs i p :
  let w := run evs init in
  let r := (exec (Render i p) w).1 in
  let w' := (exec (Render i p) w).2 in
  exists l pr,
    load_calls w' = [l] /\ promise w' = Some pr /\
    (is_Some (promise w) ->
     promise w' = promise w /\ load_calls w' = load_calls w) /\
    (is_defined (component w) = true ->
     r = Rendered (Return (createElement (component w) p)) /\
     thens w' = thens w /\ update_calls w' = update_calls w) /\
    (is_defined (component w) = false ->
     r = Rendered (Throw pr) /\
     (exists l0 d,
         thens w' =
           l0 ++ [{| source := pr; onFulfilled := CbUpdate i; derived := d |}]) /\
     (heap w' !! l = Some Pending ->
      (forall m, i ∈ update_calls (run [Settle l Fulfil m] w')) /\
      (forall e evs', update_calls (run (Settle l Reject e :: evs') w') = []))).
Proof.
  intros w r w'. exists 0%nat, 1%nat.
  pose proof (inv_run evs init inv_init) as Hinv. fold w in Hinv.
  pose proof (inv_exec (Render i p) w Hinv) as Hinv'. fold w' in Hinv'.
  assert (refs_ok w' /\ phase w') as [Hr' Hp'].
  { destruct Hinv as [Hr [Hw | Hp]].
    - unfold w'. rewrite Hw. destruct (exec_render_init i p) as (_ & ? & ?).
      split; [done | by left].
    - by apply phase_exec. }
  destruct (phase_promise w' Hp') as [Hpr' Hl'].
  assert (forall l0 d,
    thens w' = l0 ++ [{| source := 1; onFulfilled := CbUpdate i; derived := d |}] ->
    heap w' !! 0%nat = Some Pending ->
    (forall m, i ∈ update_calls (run [Settle 0 Fulfil m] w')) /\
    (forall e evs', update_calls (run (Settle 0 Reject e :: evs') w') = [])) as Hlater.
  { intros l0 d Ht Hh.
    destruct (loading_of_pending w' 0%nat Hinv' Hl' Hh) as (_ & _ & Hld).
    split.
    - intros m. rewrite (updates_after_fulfil w' m Hr' Hld), Ht, updates_of_app.
      apply elem_of_app. right. cbn. by left.
    - intros e evs'. by apply updates_after_reject. }
  split_and!; [done | done | | |].
  - intros [q Hq]. destruct Hinv as [_ [Hw | Hp]]; [by rewrite Hw in Hq|].
    destruct (phase_promise w Hp) as [-> ->]. done.
  - intros Hd. destruct Hinv as [Hr [Hw | Hp]]; [by rewrite Hw in Hd|].
    unfold r, w'. rewrite (exec_render_phase i p w Hr Hp), Hd. cbn [fst snd].
    assert (exists m, loaded m (useRef i w).2) as [m Hm].
    { destruct Hp as [H | [[e H] | [m H]]].
      - destruct H as (_ & _ & Hc & _). by rewrite Hc in Hd.
      - destruct H as (_ & _ & Hc & _). by rewrite Hc in Hd.
      - exists m. eapply loaded_refs; [apply same_but_refs_useRef | done]. }
    rewrite (drain_loaded m _ Hm).
    destruct (same_but_refs_useRef i w) as (_ & _ & _ & -> & _ & ->). done.
  - intros Hd. destruct Hinv as [Hr [Hw | Hp]].
    + assert (thens w' = [loadModule_then] ++
                [{| source := 1; onFulfilled := CbUpdate i; derived := 2 |}]) as Ht
        by (unfold w'; rewrite Hw; apply thens_render_init).
      split_and!; [| by eauto | by eapply Hlater].
      unfold r. rewrite Hw. by destruct (exec_render_init i p) as (-> & _).
    + assert (thens w' =
                thens w ++ [{| source := 1; onFulfilled := CbUpdate i;
                               derived := length (heap w) |}]) as Ht.
      { unfold w'. rewrite (exec_render_phase i p w Hr Hp), Hd. cbn [snd].
        destruct (drain_fields
                    (then_ 1 (CbUpdate i) (set_ref i JUndefined (useRef i w).2)).2)
          as (_ & -> & _).
        cbn. by destruct (same_but_refs_useRef i w) as (_ & _ & -> & -> & _). }
      split_and!; [| by eauto | by eapply Hlater].
      unfold r. by rewrite (exec_render_phase i p w Hr Hp), Hd.
Qed.

Lemma render_attempt_witness :
  let w' := (exec (Render 3 []) (run [Preload] init)).2 in
  (exec (Render 3 []) (run [Preload] init)).1 = Rendered (Throw 1) /\
  3%nat ∈ update_calls (run [Settle 0 Fulfil (JFunction "C")] w') /\
  update_calls (run [Settle 0 Reject JNull; Render 3 []] w') = [].
Proof.
  intros w'.
  destruct (render_attempt [Preload] 3%nat []) as (l & pr & Hl & Hpr & _ & _ & H).
  destruct H as (Hr & _ & Hlater); [reflexivity|].
  assert (l = 0%nat) as -> by (vm_compute in Hl; congruence).
  assert (pr = 1%nat) as -> by (vm_compute in Hpr; congruence).
  destruct Hlater as [Hf Hrej]; [reflexivity|].
  split; [exact Hr|]. split; [exact (Hf (JFunction "C"))|].
  exact (Hrej JNull [Render 3 []]).
Defined.

(** C7, as stated, fails on rejection.  A first render attempt throws the
    promise; if the load then fulfils, [update(1)] is called for the
    instance, but if it rejects, no [update(1)] is called: a re-render is
    not arranged for whichever way the load settles. *)
Lemma render_attempt_rejection_counterexample :
  let w' := (exec (Render 0 []) init).2 in
  (exec (Render 0 []) init).1 = Rendered (Throw 1) /\
  update_calls (run [Settle 0 Fulfil (JFunction "C")] w') = [0%nat] /\
  update_calls (run [Settle 0 Reject (JString "network")] w') = [] /\
  ~ (forall (o : Outcome) (v : JsValue),
        0%nat ∈ update_calls (run [Settle 0 o v] w')).
Proof.
  intros w'. split_and!; [reflexivity | reflexivity | reflexivity |].
  intros H. specialize (H Reject (JString "network")).
  vm_compute in H. by apply elem_of_nil in H.
Qed.

End LazyFacts.

(* ===================================================================== *)
(** * Further properties of src/suspense.ts *)
(* ===================================================================== *)

Module SuspenseExtra.
Import SuspenseTs SuspenseFacts.

(** ** Histories *)

Lemma run_concat evs1 evs2 w : run (evs1 ++ evs2) w = run evs2 (run evs1 w).
Proof. unfold run. apply foldl_app. Qed.

(** ** The count and the flag *)

Lemma healthy_onResolved h w : healthy w -> healthy (onResolved h w).
Proof.
  unfold healthy. intros H. rewrite instances_onResolved.
  destruct (closures w !! h) as [e|]; [|done].
  destruct (env_resolved e); [done|].
  apply Forall_alter; [done|]. intros s _ [Hn Hp].
  destruct (onResolved_c_cases s) as [[Hlt ->] | [Hle ->]]; cbn; split;
    try lia; try done.
Qed.

Lemma healthy_suspend c p v w : healthy w -> healthy (__c c p v w).
Proof.
  unfold healthy. intros H. rewrite instances_suspend.
  apply Forall_alter; [done|]. intros s _ [Hn Hp].
  rewrite suspend_c_count. split; lia.
Qed.

Lemma healthy_call__c k err v w : healthy w -> healthy (call__c k err v w).
Proof.
  unfold healthy. intros H. rewrite instances_call__c.
  apply Forall_alter; [done|]. intros s _ [Hn Hp].
  rewrite suspend_c_count. split; lia.
Qed.

Lemma healthy_step w e : healthy w -> healthy (step w e).
Proof.
  intros H. destruct e; cbn.
  - unfold healthy, new_Suspense; cbn. apply Forall_app. split; [done|].
    repeat constructor; cbn; [lia | done].
  - unfold catchError. destruct (options__e _ _ _ _ _); auto using healthy_call__c.
  - by apply healthy_suspend.
  - apply settle_ind; auto using healthy_onResolved.
Qed.

Lemma healthy_run evs w : healthy w -> healthy (run evs w).
Proof.
  unfold run. revert w. induction evs as [|e evs IH]; intros w H; cbn;
    auto using healthy_step.
Qed.

Lemma healthy_init old : healthy (init old).
Proof. constructor. Qed.

Lemma count_live_pos c (l : list OnResolvedEnv) h e :
  l !! h = Some e -> is_live c e = true -> (0 < count_live c l)%nat.
Proof.
  intros He Hl. destruct (count_live c l) eqn:E; [|lia]. exfalso.
  destruct (count_live_none c l) as [Hn _].
  unfold is_live in Hl. apply andb_true_iff in Hl as [Hc Hr].
  apply bool_decide_eq_true in Hc. rewrite (Hn E h e He Hc) in Hr. done.
Qed.

(** X1.  In every store a history can reach, the count of an instance is
    the number of continuations created for it that have not run; it is
    at least one while a registered one has not, so the decrement in
    [onResolved] never takes it below zero; and an instance is suspended
    only while its count is positive. *)
Theorem count_tracks_outstanding old evs c s :
  let w := run evs (init old) in
  instances w !! c = Some s ->
  _pendingCount s = Z.of_nat (live w c) /\
  (forall h e, closures w !! h = Some e -> is_live c e = true ->
               1 <= _pendingCount s /\ 0 <= _pendingCount s - 1) /\
  (suspended (state s) = true -> 0 < _pendingCount s).
Proof.
  intros w Hs.
  pose proof (wf_count w (wf_reachable old evs) c s Hs) as Hc.
  split_and!; [done | |].
  - intros h e He Hl. pose proof (count_live_pos c _ h e He Hl).
    unfold live in Hc. lia.
  - pose proof (healthy_run evs (init old) (healthy_init old)) as Hh.
    by destruct (proj1 (Forall_lookup _ _) Hh c s Hs).
Qed.

Lemma count_tracks_outstanding_witness :
  let w := run [New loading_props; Suspend 0 7 bare_vnode; Suspend 0 8 bare_vnode;
                Settle 7 Fulfil] (init true) in
  exists s, instances w !! 0%nat = Some s /\
            _pendingCount s = Z.of_nat (live w 0) /\ _pendingCount s = 1.
Proof.
  intros w. eexists. split; [reflexivity|]. split; [|reflexivity].
  exact (proj1 (count_tracks_outstanding true
                  [New loading_props; Suspend 0 7 bare_vnode;
                   Suspend 0 8 bare_vnode; Settle 7 Fulfil] 0%nat _ eq_refl)).
Defined.

(** ** The [resolved] guard *)

Lemma onResolved_resolved h w e :
  closures w !! h = Some e -> env_resolved e = true -> onResolved h w = w.
Proof. intros He Hr. unfold onResolved. by rewrite He, Hr. Qed.

Lemma onResolved_twice h w : onResolved h (onResolved h w) = onResolved h w.
Proof.
  destruct (closures (onResolved h w) !! h) as [e'|] eqn:E.
  - apply (onResolved_resolved _ _ e' E).
    rewrite closures_onResolved, list_lookup_alter_eq in E.
    destruct (closures w !! h); [|done]. by injection E as <-.
  - unfold onResolved at 1. by rewrite E.
Qed.

Lemma foldl_react_fix p o (l : list Then) w :
  (forall t, t ∈ l -> react p o w t = w) -> foldl (react p o) w l = w.
Proof.
  induction l as [|t l IH]; intros H; cbn; [done|].
  rewrite (H t) by (by left). apply IH. intros t' Ht'. apply H. by right.
Qed.

Lemma settle_twice p o o' w :
  wf w -> settle p o' (settle p o w) = settle p o w.
Proof.
  intros Hw. pose proof (wf_settle p o w Hw) as Hw'.
  unfold settle at 1. apply foldl_react_fix. intros t Ht.
  unfold react. destruct (decide (thenable t = p)) as [Hp|]; [|done].
  apply list_elem_of_lookup in Ht as [i Ht].
  assert (callback o' t = i) as ->.
  { destruct (wf_slots _ Hw' i t Ht). by destruct o'. }
  rewrite thens_settle in Ht.
  destruct (closures (settle p o w) !! i) as [e'|] eqn:E.
  - apply (onResolved_resolved _ _ e' E).
    rewrite closures_settle, Ht in E by done.
    destruct (closures w !! i); [|done]. injection E as <-.
    cbn. by rewrite decide_True.
  - unfold onResolved. by rewrite E.
Qed.

(** X2.  A continuation that is called again does nothing: calling the
    closure a second time leaves the store as the first call left it, and
    on every reachable store a signal that settles a second time, the same
    way or the other, changes nothing (count, flag and re-render requests
    included). *)
Theorem settlement_counts_once old evs :
  let w := run evs (init old) in
  (forall h, onResolved h (onResolved h w) = onResolved h w) /\
  (forall p o o', settle p o' (settle p o w) = settle p o w) /\
  (forall p o o' c,
      pendingCount (run [Settle p o; Settle p o'] w) c =
        pendingCount (run [Settle p o] w) c /\
      resumes (run [Settle p o; Settle p o'] w) c =
        resumes (run [Settle p o] w) c).
Proof.
  intros w. split_and!.
  - intros h. apply onResolved_twice.
  - intros p o o'. apply settle_twice, wf_reachable.
  - intros p o o' c.
    change (run [Settle p o; Settle p o'] w) with (settle p o' (settle p o w)).
    change (run [Settle p o] w) with (settle p o w).
    by rewrite settle_twice by apply wf_reachable.
Qed.

(** ** A signal that does not settle *)

Lemma settle_ind_idx (P : World -> Prop) q o w :
  wf w -> P w ->
  (forall i t w', thens w !! i = Some t -> thenable t = q ->
                  P w' -> P (onResolved i w')) ->
  P (settle q o w).
Proof.
  intros Hw H0 Hstep. unfold settle.
  cut (forall l1 l2, thens w = l1 ++ l2 -> P (foldl (react q o) w l1)).
  { intros H. apply (H (thens w) []). by rewrite app_nil_r. }
  induction l1 as [|t l1 IH] using rev_ind; intros l2 Hl; [done|].
  rewrite foldl_app. cbn [foldl]. rewrite <- app_assoc in Hl. simpl in Hl.
  specialize (IH _ Hl). unfold react at 1.
  destruct (decide (thenable t = q)) as [Hq|]; [|done].
  assert (thens w !! length l1 = Some t) as Ht
    by (rewrite Hl; by rewrite list_lookup_middle).
  assert (callback o t = length l1) as ->.
  { destruct (wf_slots w Hw _ t Ht). by destruct o. }
  by eapply Hstep.
Qed.

Lemma held_by_onResolved c p h i w :
  i <> h -> held_by c p h w -> held_by c p h (onResolved i w).
Proof.
  intros Hne (Hw & Hh & Ht & Hs).
  split_and!.
  - by apply wf_onResolved.
  - by rewrite closures_onResolved, list_lookup_alter_ne.
  - by rewrite thens_onResolved.
  - destruct (closures w !! i) as [e|] eqn:E.
    2: { unfold onResolved. by rewrite E. }
    destruct (env_resolved e) eqn:R.
    1: { unfold onResolved. by rewrite E, R. }
    unfold is_suspended in *. rewrite instances_onResolved, E, R, list_lookup_alter.
    destruct (decide (env_c e = c)) as [Hc|]; [|done].
    destruct (instances w !! c) as [s|] eqn:Es; [|done]. rewrite Hc, Es.
    cbn in *. injection Hs as Hs. f_equal.
    pose proof (wf_count w Hw c s Es) as Hcount.
    pose proof (count_live_resolve c _ i e E R) as Hn.
    rewrite decide_True in Hn by done.
    assert (0 < count_live c (alter ran i (closures w)))%nat as Hpos.
    { apply (count_live_pos c _ h {| env_c := c; env_resolved := false |}).
      - by rewrite list_lookup_alter_ne.
      - unfold is_live; cbn. by rewrite bool_decide_true. }
    rewrite onResolved_c_suspended.
    destruct (Z.leb_spec (_pendingCount s - 1) 0); [|done].
    unfold live in Hcount. lia.
Qed.

Lemma held_by_suspend c p h c' p' v w :
  held_by c p h w -> held_by c p h (__c c' p' v w).
Proof.
  intros (Hw & Hh & (t & Ht & Hp) & Hs).
  destruct (instances w !! c') as [s'|] eqn:E.
  2: { rewrite suspend_missing by done. split_and!; eauto. }
  split_and!.
  - by apply wf_suspend.
  - rewrite (closures_suspend _ _ _ _ _ E).
    rewrite lookup_app_l; [done | by eapply lookup_lt_Some].
  - exists t. rewrite (thens_suspend _ _ _ _ _ E).
    rewrite lookup_app_l; [done | by eapply lookup_lt_Some].
  - by apply is_suspended_suspend.
Qed.

Lemma held_by_call__c c p h k err v w :
  held_by c p h w -> held_by c p h (call__c k err v w).
Proof.
  intros Hk. unfold call__c. destruct (thenable_of err); [by apply held_by_suspend|].
  destruct Hk as (Hw & Hh & Ht & Hs). split_and!.
  - by apply wf_throws.
  - by rewrite closures_throws.
  - by rewrite thens_throws.
  - unfold is_suspended in *. rewrite instances_throws, list_lookup_alter.
    destruct (decide (k = c)) as [->|]; [|done].
    destruct (instances w !! c) as [s|]; [|done]. cbn in *.
    injection Hs as Hs. rewrite suspend_c_suspended, Hs.
    by destruct (isHydrating v).
Qed.

Lemma held_by_step c p h w e :
  settles p e = false -> held_by c p h w -> held_by c p h (step w e).
Proof.
  intros He Hk. destruct e as [pr|err n o i|c' p' v|q o]; cbn in *.
  - destruct Hk as (Hw & Hh & Ht & Hs). split_and!; try done.
    + by apply wf_new.
    + destruct (is_suspended_new pr w c) as [-> _]; [|done].
      unfold is_suspended in Hs. by destruct (instances w !! c).
  - unfold catchError. destruct (options__e _ _ _ _ _).
    + by apply held_by_call__c.
    + destruct Hk as (Hw & ? & ? & ?). split_and!; try done.
      destruct Hw. by split.
    + done.
  - by apply held_by_suspend.
  - apply bool_decide_eq_false in He.
    pose proof Hk as (Hw & _ & (t & Ht & Hp) & _).
    assert (thens (settle q o w) = thens w /\ held_by c p h (settle q o w))
      as [_ ?]; [|done].
    apply (settle_ind_idx
             (fun w' => thens w' = thens w /\ held_by c p h w')); [done | done |].
    intros i t' w' Hi Hq [Hth Hk']. split; [by rewrite thens_onResolved|].
    apply held_by_onResolved; [|done]. intros ->. congruence.
Qed.

Lemma held_by_run c p h evs w :
  forallb (fun e => negb (settles p e)) evs = true ->
  held_by c p h w -> held_by c p h (run evs w).
Proof.
  unfold run. revert w. induction evs as [|e evs IH]; intros w He Hk; cbn in *; [done|].
  apply andb_true_iff in He as [He1 He2]. apply IH; [done|].
  apply held_by_step; [|done]. by destruct (settles p e).
Qed.

Lemma props_step w e c s :
  instances w !! c = Some s ->
  exists s', instances (step w e) !! c = Some s' /\ props s' = props s.
Proof.
  intros Hs.
  assert (forall c' p v, exists s',
             instances (__c c' p v w) !! c = Some s' /\ props s' = props s) as Hsus.
  { intros c' p v. rewrite instances_suspend, list_lookup_alter.
    destruct (decide (c' = c)) as [->|]; [|eauto].
    rewrite Hs. eexists. split; [done|]. by destruct (isHydrating v). }
  destruct e as [pr|err n o i|c' p' v|q o]; cbn.
  - exists s. split; [|done]. unfold new_Suspense; cbn.
    rewrite lookup_app_l; [done | by eapply lookup_lt_Some].
  - unfold catchError. destruct (options__e _ _ _ _ _); eauto.
    rewrite instances_call__c, list_lookup_alter.
    destruct (decide (k = c)) as [->|]; [|eauto].
    rewrite Hs. eexists. split; [done|]. by destruct (isHydrating suspendingVNode).
  - apply Hsus.
  - apply (settle_ind (fun w' => exists s',
             instances w' !! c = Some s' /\ props s' = props s)); [eauto|].
    intros h w' (s' & Hs' & Hp). rewrite instances_onResolved.
    destruct (closures w' !! h) as [e|]; [|eauto].
    destruct (env_resolved e); [eauto|].
    rewrite list_lookup_alter. destruct (decide (env_c e = c)) as [->|]; [|eauto].
    rewrite Hs'. eexists. split; [done|]. cbn. rewrite <- Hp.
    destruct (onResolved_c_cases s') as [[_ ->] | [_ ->]]; done.
Qed.

Lemma props_run evs w c s :
  instances w !! c = Some s ->
  exists s', instances (run evs w) !! c = Some s' /\ props s' = props s.
Proof.
  unfold run. revert w s. induction evs as [|e evs IH]; intros w s Hs; cbn; [eauto|].
  destruct (props_step w e c s Hs) as (s1 & Hs1 & Hp1).
  destruct (IH _ _ Hs1) as (s2 & Hs2 & Hp2). exists s2. split; [done | congruence].
Qed.

(** X3.  A signal that is pending when it is registered outside hydration
    and does not settle afterwards keeps the instance suspended: whatever
    else happens (other signals registered or settled, other instances
    created, other values raised), the instance is suspended, its count is
    positive, its props are those it had, and it renders its fallback
    ([null] when it has none).  (A signal that has settled before it is
    registered is another matter: a native promise calls the continuation
    in the next microtask.) *)
Theorem unsettled_signal_keeps_fallback old evs c p v s evs' :
  let w := run evs (init old) in
  let w' := run evs' (__c c p v w) in
  instances w !! c = Some s ->
  isHydrating v = false ->
  pending_after evs p = true ->
  pending_after evs' p = true ->
  exists s',
    instances w' !! c = Some s' /\
    suspended (state s') = true /\
    0 < _pendingCount s' /\
    props s' = props s /\
    render s' = fallback_output (props s).
Proof.
  intros w w' Hs Hv _ He.
  assert (held_by c p (length (closures w)) (__c c p v w)) as Hk.
  { split_and!.
    - apply wf_suspend, wf_reachable.
    - rewrite (closures_suspend _ _ _ _ _ Hs). by rewrite list_lookup_middle.
    - eexists. rewrite (thens_suspend _ _ _ _ _ Hs).
      rewrite <- (wf_len w (wf_reachable old evs)) at 1.
      rewrite list_lookup_middle by done. done.
    - by eapply is_suspended_fresh_suspend. }
  apply (held_by_run c p _ evs' _ He) in Hk. fold w' in Hk.
  destruct Hk as (Hw' & Hh & _ & Hsus).
  destruct (props_run evs' (__c c p v w) c (suspend_c (isHydrating v) s))
    as (s' & Hs' & Hp).
  { by rewrite instances_suspend, list_lookup_alter_eq, Hs. }
  fold w' in Hs'. exists s'.
  assert (suspended (state s') = true) as Hst.
  { unfold is_suspended in Hsus. rewrite Hs' in Hsus. by injection Hsus. }
  assert (props s' = props s) as Hps.
  { rewrite Hp. by destruct (isHydrating v). }
  split_and!; [done | done | | done |].
  - pose proof (wf_count w' Hw' c s' Hs') as Hc.
    pose proof (count_live_pos c _ _ _ Hh) as Hpos.
    unfold live in Hc. rewrite Hc.
    assert (0 < count_live c (closures w'))%nat; [|lia].
    apply Hpos. unfold is_live; cbn. by rewrite bool_decide_true.
  - unfold render, fallback_output. by rewrite Hst, Hps.
Qed.

Lemma unsettled_signal_keeps_fallback_witness :
  let w' := run [Suspend 0 8 bare_vnode; Settle 8 Reject; New loading_props;
                 Settle 9 Fulfil]
              (__c 0 7 bare_vnode (run [New loading_props] (init true))) in
  exists s', instances w' !! 0%nat = Some s' /\
             suspended (state s') = true /\
             render s' = CElement Fragment (CString "Loading...").
Proof.
  intros w'.
  destruct (unsettled_signal_keeps_fallback true [New loading_props] 0%nat 7%nat
              bare_vnode (constructor loading_props)
              [Suspend 0 8 bare_vnode; Settle 8 Reject; New loading_props;
               Settle 9 Fulfil])
    as (s' & Hs' & Hst & _ & _ & Hr);
    [reflexivity | reflexivity | reflexivity | reflexivity|].
  exists s'. split; [exact Hs'|]. split; [exact Hst | exact Hr].
Defined.

(** ** Passes of any kind *)

Lemma resume_counted_onResolved r0 c h w :
  wf w -> resume_counted r0 c w -> resume_counted r0 c (onResolved h w).
Proof.
  intros Hw H.
  destruct (closures w !! h) as [e|] eqn:E.
  2: { unfold onResolved. by rewrite E. }
  destruct (env_resolved e) eqn:R.
  1: { unfold onResolved. by rewrite E, R. }
  assert ((live (onResolved h w) c
           + (if decide (env_c e = c) then 1 else 0))%nat = live w c) as Hn.
  { unfold live. rewrite unregistered_onResolved, closures_onResolved.
    pose proof (count_live_resolve c _ h e E R). lia. }
  unfold resume_counted, resumes in *.
  rewrite instances_onResolved, E, R, list_lookup_alter.
  destruct (decide (env_c e = c)) as [Hc|Hc].
  - destruct H as [(Hl & Hr) | (Hl & _)]; [|lia].
    destruct (lookup_lt_is_Some_2 (instances w) c) as [s Es].
    { rewrite <- Hc. by eapply (wf_owner w Hw). }
    rewrite Hc, Es. rewrite Es in Hr. cbn.
    pose proof (wf_count w Hw c s Es) as Hcount.
    destruct (onResolved_c_cases s) as [[Hlt ->] | [Hle ->]].
    + left. cbn. split; [lia | done].
    + right. split; [lia|]. rewrite resumes_setState_false. cbn. by rewrite Hr.
  - replace (live (onResolved h w) c) with (live w c) by lia. exact H.
Qed.

Lemma resume_counted_settle r0 c p o w :
  wf w -> resume_counted r0 c w -> resume_counted r0 c (settle p o w).
Proof.
  intros Hw H.
  cut (wf (settle p o w) /\ resume_counted r0 c (settle p o w)); [tauto|].
  apply settle_ind; [done|].
  intros h w' [Hw' H']. split; [by apply wf_onResolved | by apply resume_counted_onResolved].
Qed.

Lemma settlements_counted r0 c (qs : list (nat * Outcome)) w (U : list nat) :
  wf w -> waits_on w c U -> resume_counted r0 c w ->
  wf (run (settlements qs) w) /\
  waits_on (run (settlements qs) w) c (filter (fun p => p ∉ qs.*1) U) /\
  resume_counted r0 c (run (settlements qs) w).
Proof.
  revert w U. induction qs as [|[q o] qs IH]; intros w U Hw HU Hr.
  - cbn. split_and!; try done. eapply waits_on_equiv; [|exact HU].
    intros p. rewrite list_elem_of_filter. split; [|tauto].
    intros Hp; split; [|done]. intros Hn. by apply elem_of_nil in Hn.
  - change (run (settlements ((q, o) :: qs)) w)
      with (run (settlements qs) (settle q o w)).
    destruct (IH (settle q o w) (filter (fun p => p <> q) U)) as (Hw1 & HU1 & Hr1);
      [by apply wf_settle | by apply waits_on_settle | by apply resume_counted_settle |].
    split_and!; try done.
    eapply waits_on_equiv; [|exact HU1].
    intros p. rewrite !list_elem_of_filter. cbn. rewrite not_elem_of_cons. tauto.
Qed.

Lemma suspensions_any c (sigs : list (nat * InternalVNode)) w (U : list nat) :
  wf w -> is_Some (instances w !! c) -> waits_on w c U ->
  wf (run (suspensions c sigs) w) /\
  is_Some (instances (run (suspensions c sigs) w) !! c) /\
  waits_on (run (suspensions c sigs) w) c (U ++ sigs.*1) /\
  resumes (run (suspensions c sigs) w) c = resumes w c.
Proof.
  revert w U. induction sigs as [|[p v] sigs IH]; intros w U Hw [s Hs] HU.
  - cbn. rewrite app_nil_r. split_and!; eauto.
  - change (run (suspensions c ((p, v) :: sigs)) w)
      with (run (suspensions c sigs) (__c c p v w)).
    destruct (IH (__c c p v w) (U ++ [p])) as (Hw1 & Hs1 & HU1 & Hr1).
    + by apply wf_suspend.
    + rewrite instances_suspend, list_lookup_alter_eq, Hs. by eexists.
    + by eapply waits_on_suspend.
    + split_and!; try done.
      * by rewrite <- app_assoc in HU1.
      * by rewrite Hr1, resumes_suspend.
Qed.

Lemma pass_result c (sigs : list (nat * InternalVNode)) (qs : list (nat * Outcome)) w0 :
  wf w0 -> healthy w0 ->
  pendingCount w0 c = Some 0 ->
  sigs <> [] ->
  let w' := run (pass_events c (sigs, qs)) w0 in
  wf w' /\ healthy w' /\
  ((exists p, p ∈ sigs.*1 /\ p ∉ qs.*1) ->
   resumes w' c = resumes w0 c /\
   exists n, pendingCount w' c = Some n /\ 0 < n) /\
  ((forall p, p ∈ sigs.*1 -> p ∈ qs.*1) ->
   resumes w' c = S (resumes w0 c) /\
   pendingCount w' c = Some 0 /\
   is_suspended w' c = Some false).
Proof.
  intros Hw Hh Hz Hne w'.
  assert (exists s0, instances w0 !! c = Some s0 /\ _pendingCount s0 = 0)
    as (s0 & Hs0 & Hc0).
  { unfold pendingCount in Hz. destruct (instances w0 !! c) as [s|]; [|done].
    injection Hz as Hz. eauto. }
  assert (live w0 c = 0%nat) as Hl0.
  { pose proof (wf_count w0 Hw c s0 Hs0). lia. }
  destruct (suspensions_any c sigs w0 [] Hw) as (Hw1 & Hs1 & HU1 & Hr1);
    [by eexists | by apply waits_on_nil |].
  set (w1 := run (suspensions c sigs) w0) in *. rewrite app_nil_l in HU1.
  assert (resume_counted (resumes w0 c) c w1) as Hr.
  { left. split; [|done].
    destruct (waits_on_empty w1 c _ Hw1 HU1) as [H _].
    destruct (live w1 c); [|lia]. specialize (H eq_refl).
    destruct sigs; [done | by cbn in H]. }
  destruct (settlements_counted (resumes w0 c) c qs w1 _ Hw1 HU1 Hr)
    as (Hw2 & HU2 & Hr2).
  assert (run (settlements qs) w1 = w') as Hw'eq
    by (unfold w', pass_events; cbn [fst snd]; by rewrite run_concat).
  rewrite Hw'eq in Hw2, HU2, Hr2.
  assert (healthy w') as Hh' by (by apply healthy_run).
  assert (is_Some (instances w' !! c)) as [s' Hs'].
  { destruct Hs1 as [s1 Hs1]. rewrite <- Hw'eq.
    destruct (props_run (settlements qs) w1 c s1 Hs1) as (s' & ? & _). by eexists. }
  pose proof (wf_count w' Hw2 c s' Hs') as Hcount.
  destruct (proj1 (Forall_lookup _ _) Hh' c s' Hs') as [_ Hpos].
  destruct (waits_on_empty w' c _ Hw2 HU2) as [He1 He2].
  split_and!; [done | done | |].
  - intros (p & Hp & Hnp).
    destruct Hr2 as [(Hl & ?) | (Hl & _)].
    + split; [done|]. unfold pendingCount. rewrite Hs'. cbn.
      eexists. split; [done|]. lia.
    + specialize (He1 Hl).
      assert (p ∈ filter (fun p => p ∉ qs.*1) sigs.*1) as Hin
        by (by apply list_elem_of_filter).
      rewrite He1 in Hin. by apply elem_of_nil in Hin.
  - intros Hall.
    assert (live w' c = 0%nat) as Hl.
    { apply He2.
      destruct (filter (fun p => p ∉ qs.*1) sigs.*1) as [|p l] eqn:E; [done|].
      assert (p ∈ filter (fun p => p ∉ qs.*1) sigs.*1) as Hin
        by (rewrite E; by left).
      apply list_elem_of_filter in Hin as [Hn Hp]. by apply Hall in Hp. }
    destruct Hr2 as [(? & _) | (_ & ?)]; [lia|].
    unfold pendingCount, is_suspended. rewrite Hs'. cbn.
    split_and!; [done | f_equal; lia |].
    f_equal. destruct (suspended (state s')); [|done]. specialize (Hpos eq_refl). lia.
Qed.

Lemma hydration_pass_events c (sigs : list (nat * InternalVNode))
    (qs : list (nat * Outcome)) n :
  Forall (fun s => isHydrating s.2 = true) sigs ->
  forallb hydration_event (take n (pass_events c (sigs, qs))) = true.
Proof.
  intros Hh. apply forallb_forall. intros e He.
  apply list_elem_of_In in He. apply (subseteq_take n) in He.
  unfold pass_events in He. cbn [fst snd] in He.
  apply elem_of_app in He as [He | He].
  - apply list_elem_of_fmap in He as ([p v] & -> & Hin). cbn.
    by apply (proj1 (Forall_forall _ _) Hh (p, v)).
  - by apply list_elem_of_fmap in He as ([p o] & -> & _).
Qed.

(** X4.  A pass of any kind (signals raised while hydrating, outside
    hydration, or both; a signal possibly registered more than once) on an
    instance with nothing outstanding makes exactly one
    [setState({ suspended: false })], at the settlement after which no
    registered signal is outstanding: when the signals of the pass are
    pending as the pass begins, none is made while one of them has not
    settled, and the count is then positive; once all have settled, the
    count is zero and the instance is not suspended.  When every signal
    of the pass was raised while hydrating, the instance is not suspended
    at any point of the pass, so that single request is what replaces the
    preserved content by the children. *)
Theorem any_pass_resumes_once old evs c
    (sigs : list (nat * InternalVNode)) (qs : list (nat * Outcome)) :
  let w0 := run evs (init old) in
  let w' := run (pass_events c (sigs, qs)) w0 in
  pendingCount w0 c = Some 0 ->
  sigs <> [] ->
  (Forall (fun sg => pending_after evs sg.1 = true) sigs ->
   (exists p, p ∈ sigs.*1 /\ p ∉ qs.*1) ->
   resumes w' c = resumes w0 c /\
   exists n, pendingCount w' c = Some n /\ 0 < n) /\
  ((forall p, p ∈ sigs.*1 -> p ∈ qs.*1) ->
   resumes w' c = S (resumes w0 c) /\
   pendingCount w' c = Some 0 /\
   is_suspended w' c = Some false) /\
  (Forall (fun s => isHydrating s.2 = true) sigs ->
   forall n, is_suspended (run (take n (pass_events c (sigs, qs))) w0) c = Some false).
Proof.
  intros w0 w' Hz Hne.
  pose proof (wf_reachable old evs) as Hw.
  pose proof (healthy_run evs (init old) (healthy_init old)) as Hh.
  destruct (pass_result c sigs qs w0 Hw Hh Hz Hne) as (_ & _ & H1 & H2).
  split_and!; [by intros _ | done |].
  intros Hhyd n. apply not_suspended_hydration_run.
  - by apply hydration_pass_events.
  - unfold pendingCount, is_suspended in *. fold w0 in Hh.
    destruct (instances w0 !! c) as [s|] eqn:Es; [|done]. cbn in *.
    destruct (proj1 (Forall_lookup _ _) Hh c s Es) as [_ Hpos].
    f_equal. destruct (suspended (state s)); [|done].
    specialize (Hpos eq_refl). injection Hz as Hz. lia.
Qed.

Lemma any_pass_resumes_once_witness :
  let hyd := {| _parent := None; _component := None; _dom := Some 4%nat;
                _children := None; _flags := Some 32; _hydrating := None |} in
  let sigs := [(7%nat, hyd); (8%nat, hyd); (7%nat, hyd)] in
  let w0 := run [New loading_props] (init true) in
  resumes (run (pass_events 0 (sigs, [(8%nat, Reject)])) w0) 0 = resumes w0 0 /\
  resumes (run (pass_events 0 (sigs, [(8%nat, Reject); (7%nat, Fulfil)])) w0) 0 =
    S (resumes w0 0) /\
  is_suspended (run (take 4 (pass_events 0 (sigs, [(8%nat, Reject)]))) w0) 0 =
    Some false.
Proof.
  intros hyd sigs w0.
  destruct (any_pass_resumes_once true [New loading_props] 0%nat sigs [(8%nat, Reject)])
    as (H1 & _ & H3); [reflexivity | discriminate |].
  destruct (any_pass_resumes_once true [New loading_props] 0%nat sigs
              [(8%nat, Reject); (7%nat, Fulfil)])
    as (_ & H2 & _); [reflexivity | discriminate |].
  split.
  { apply H1; [by repeat constructor|].
    exists 7%nat. split; [apply list_elem_of_here|].
    intros H. apply list_elem_of_singleton in H. discriminate H. }
  split.
  { apply H2. intros p Hp. vm_compute in Hp.
    apply elem_of_cons in Hp as [-> | Hp]; [right; left|].
    apply elem_of_cons in Hp as [-> | Hp]; [left|].
    apply list_elem_of_singleton in Hp as ->. right; left. }
  apply H3. repeat constructor.
Defined.

(** ** One pass after another *)

Lemma resuspension_inv c (l : list Pass) w0 :
  wf w0 -> healthy w0 ->
  pendingCount w0 c = Some 0 ->
  Forall complete l ->
  let w' := run (passes_events c l) w0 in
  wf w' /\ healthy w' /\
  resumes w' c = (resumes w0 c + length l)%nat /\
  pendingCount w' c = Some 0 /\
  (l <> [] -> is_suspended w' c = Some false).
Proof.
  intros Hw Hh Hz Hl. revert w0 Hw Hh Hz.
  induction Hl as [|[sigs qs] l [Hne Hall] _ IH]; intros w0 Hw Hh Hz.
  - cbn. split_and!; try done; lia.
  - cbn [passes_events flat_map]. rewrite run_concat.
    destruct (pass_result c sigs qs w0 Hw Hh Hz Hne) as (Hw1 & Hh1 & _ & H2).
    destruct (H2 Hall) as (Hr1 & Hz1 & Hs1).
    destruct (IH _ Hw1 Hh1 Hz1) as (Hw2 & Hh2 & Hr2 & Hz2 & Hs2).
    fold (passes_events c l). split_and!; try done.
    + rewrite Hr2, Hr1. cbn. lia.
    + intros _. destruct l as [|ps l]; [exact Hs1 | by apply Hs2].
Qed.

(** X5.  A boundary can be suspended again after it has resumed, any number
    of times: after [k] complete passes in a row on an instance that had
    nothing outstanding, exactly [k] further
    [setState({ suspended: false })] have been made, the count is back at
    zero, the instance is not suspended and it renders its children. *)
Theorem resuspension old evs c (l : list Pass) s :
  let w0 := run evs (init old) in
  let w' := run (passes_events c l) w0 in
  instances w0 !! c = Some s ->
  _pendingCount s = 0 ->
  Forall complete l ->
  l <> [] ->
  exists s',
    instances w' !! c = Some s' /\
    _pendingCount s' = 0 /\
    suspended (state s') = false /\
    resumes w' c = (resumes w0 c + length l)%nat /\
    render s' = children_output (props s).
Proof.
  intros w0 w' Hs Hc Hl Hne.
  destruct (resuspension_inv c l w0) as (_ & _ & Hr & Hz & Hsus); try done.
  - apply wf_reachable.
  - apply healthy_run, healthy_init.
  - unfold pendingCount. rewrite Hs. cbn. by rewrite Hc.
  - destruct (props_run (passes_events c l) w0 c s Hs) as (s' & Hs' & Hp).
    fold w' in Hs', Hz, Hsus, Hr. exists s'.
    unfold pendingCount, is_suspended in *. rewrite Hs' in *. cbn in *.
    specialize (Hsus Hne).
    assert (suspended (state s') = false) as Hf by congruence.
    split_and!; [done | congruence | done | done |].
    unfold render, children_output. by rewrite Hf, Hp.
Qed.

Lemma resuspension_witness :
  let l : list Pass :=
    [([(7%nat, bare_vnode)], [(7%nat, Fulfil)]);
     ([(8%nat, bare_vnode); (9%nat, bare_vnode)],
      [(9%nat, Reject); (8%nat, Fulfil)])] in
  let w' := run (passes_events 0 l) (run [New loading_props] (init false)) in
  exists s', instances w' !! 0%nat = Some s' /\
             resumes w' 0 = 2%nat /\
             render s' =
               CElement Fragment (CElement (FunctionComponent "Child") CUndefined).
Proof.
  intros l w'.
  destruct (resuspension false [New loading_props] 0%nat l (constructor loading_props))
    as (s' & Hs' & _ & _ & Hr & Hrender).
  - reflexivity.
  - reflexivity.
  - apply Forall_cons. split; [|apply Forall_cons; split; [|constructor]].
    + split; [discriminate|]. intros p Hp. exact Hp.
    + split; [discriminate|]. intros p Hp. cbn in *.
      apply elem_of_cons in Hp as [-> | Hp]; [right; left|].
      apply list_elem_of_singleton in Hp as ->. left.
  - discriminate.
  - exists s'. split; [exact Hs'|]. split; [exact Hr | exact Hrender].
Defined.

(** ** What the hook does to the suspending node *)

Lemma preserve_dom_twice n o : preserve_dom (preserve_dom n o) o = preserve_dom n o.
Proof.
  unfold preserve_dom. destruct (_dom n) eqn:E; cbn; [by rewrite E|].
  by destruct (_dom o).
Qed.

Lemma nearest_handler_preserve_dom n o :
  nearest_handler (preserve_dom n o) = nearest_handler n.
Proof. unfold preserve_dom. destruct n as [[a|] ? [d|] ? ? ?]; reflexivity. Qed.

(** X6.  When the hook delegates, the node it hands to the boundary keeps
    its own DOM reference and children if it has a DOM reference, and takes
    both from the previously committed node otherwise; its parent,
    component, flags and hydrating marker are never changed, so the
    hydration test and the boundary found are the same, and raising the
    same value again with that node hands over the very same node.  A value
    forwarded to the previous hook goes with the node untouched. *)
Theorem delegation_preserves_dom old err n o i :
  (forall k p v,
      options__e old err n o i = Call__c k p v ->
      _dom v = (match _dom n with Some d => Some d | None => _dom o end) /\
      _children v = (match _dom n with Some _ => _children n | None => _children o end) /\
      _parent v = _parent n /\ _component v = _component n /\
      _flags v = _flags n /\ _hydrating v = _hydrating n /\
      isHydrating v = isHydrating n /\
      options__e old err v o i = Call__c k p v) /\
  (forall args,
      options__e old err n o i = CallOld args -> args = (err, n, o, i)).
Proof.
  unfold options__e. split.
  - intros k p v.
    destruct (err_and_then err); [|by destruct old].
    destruct (nearest_handler n) as [k'|] eqn:Hn; [|by destruct old].
    intros [= <- <- <-].
    rewrite nearest_handler_preserve_dom, Hn, preserve_dom_twice.
    rewrite isHydrating_preserve_dom.
    unfold preserve_dom. destruct (_dom n) eqn:E; cbn; by rewrite ?E.
  - intros args.
    destruct (err_and_then err);
      [destruct (nearest_handler n)|]; destruct old; try done; by intros [= <-].
Qed.

Lemma delegation_preserves_dom_witness :
  let boundary := {| _parent := None; _component := Some (SuspenseInstance 0);
                     _dom := None; _children := None; _flags := None;
                     _hydrating := None |} in
  let fresh := {| _parent := Some boundary;
                  _component := Some (PlainComponent "Child");
                  _dom := None; _children := None; _flags := Some 32;
                  _hydrating := None |} in
  let committed := {| _parent := Some boundary;
                      _component := Some (PlainComponent "Child");
                      _dom := Some 5%nat; _children := Some [6%nat];
                      _flags := None; _hydrating := None |} in
  let v := preserve_dom fresh committed in
  _dom v = Some 5%nat /\ _children v = Some [6%nat] /\ _flags v = Some 32.
Proof.
  intros boundary fresh committed v.
  destruct (delegation_preserves_dom true (JObject (Some (ThenMethod 7)) None)
              fresh committed JUndefined) as [H _].
  destruct (H 0%nat (JObject (Some (ThenMethod 7)) None) v eq_refl)
    as (Hd & Hc & _ & _ & Hf & _).
  split; [exact Hd|]. split; [exact Hc | exact Hf].
Defined.

End SuspenseExtra.

(* ===================================================================== *)
(** * Further properties of src/lazy.ts *)
(* ===================================================================== *)

Module LazyExtra.
Import LazyTs LazyFacts.

Lemma reachable_inv evs : inv (run evs init).
Proof. apply inv_run, inv_init. Qed.

Lemma drain_phase w : phase w -> drain w = w.
Proof.
  intros [H | [[e H] | [m H]]];
    [by apply drain_loading | by apply (drain_failed e) | by apply (drain_loaded m)].
Qed.

(** ** The promise [preload()] returns *)

(** X7.  The promise held in [promise] follows the promise [load]
    returned: it is pending exactly while that one is; when it is
    fulfilled, its value is the content cached in [component], computed as
    [(m && m.default) || m] from the value [m] the load fulfilled with;
    when it is rejected, it is with the reason the load rejected with, and
    [component] is unset. *)
Theorem preload_promise_follows_load evs p :
  let w := run evs init in
  promise w = Some p ->
  exists l,
    load_calls w = [l] /\
    (heap w !! p = Some Pending <-> heap w !! l = Some Pending) /\
    (forall v, heap w !! p = Some (Fulfilled v) ->
               component w = v /\
               exists m, heap w !! l = Some (Fulfilled m) /\ v = default_or_self m) /\
    (forall e, heap w !! p = Some (Rejected e) ->
               heap w !! l = Some (Rejected e) /\ component w = JUndefined).
Proof.
  intros w Hp. exists 0%nat.
  pose proof (reachable_inv evs) as Hinv. fold w in Hinv.
  destruct Hinv as [_ [Hw | Hph]].
  { by rewrite Hw in Hp. }
  destruct (phase_promise w Hph) as [Hpr Hl]. rewrite Hpr in Hp. injection Hp as <-.
  split; [done|].
  destruct Hph as [H | [[e H] | [m H]]].
  - pose proof (heap_load_pending w H) as H0.
    destruct H as (Hs & Hh & Hc & _).
    assert (heap w !! 1%nat = Some Pending) as H1.
    { destruct (lookup_lt_is_Some_2 (heap w) 1) as [s Hq].
      - rewrite (st_heap w Hs). pose proof (lookup_lt_Some _ _ _ (st_first w Hs)). lia.
      - rewrite Hq. f_equal. by apply (proj1 (Forall_lookup _ _) Hh _ _ Hq). }
    rewrite H0, H1. split_and!; [done | by intros v [=] | by intros e [=]].
  - rewrite (failed_load_rejected e w H), (failed_promise_rejected e w H).
    destruct H as (_ & _ & Hc & _).
    split_and!; [by split | by intros v [=] | by intros e' [= <-]].
  - destruct H as (_ & H0 & H1 & _ & Hc & _). rewrite H0, H1.
    split_and!; [by split | | by intros e [=]].
    intros v [= <-]. eauto.
Qed.

Lemma preload_promise_follows_load_witness :
  let w := run [Preload; Settle 0 Fulfil (module_with_default (JFunction "C"))] init in
  heap w !! 1%nat = Some (Fulfilled (JFunction "C")) /\
  component w = JFunction "C".
Proof.
  intros w.
  destruct (preload_promise_follows_load
              [Preload; Settle 0 Fulfil (module_with_default (JFunction "C"))] 1%nat)
    as (l & _ & _ & Hf & _); [reflexivity|].
  split; [reflexivity|].
  exact (proj1 (Hf (JFunction "C") eq_refl)).
Defined.

(** ** One callback for every render attempt that threw *)

Lemma thens_exec_phase e w :
  refs_ok w -> phase w ->
  updates_of (thens (exec e w).2) =
    updates_of (thens w) ++
      match e, (exec e w).1 with
      | Render i _, Rendered (Throw _) => [i]
      | _, _ => []
      end.
Proof.
  intros Hr Hp. destruct e as [i p| |l o v].
  - rewrite (exec_render_phase i p w Hr Hp).
    destruct (is_defined (component w)); cbn [fst snd].
    + destruct (drain_fields (useRef i w).2) as (_ & -> & _).
      destruct (same_but_refs_useRef i w) as (_ & _ & _ & -> & _).
      by rewrite app_nil_r.
    + destruct (drain_fields
                  (then_ 1 (CbUpdate i) (set_ref i JUndefined (useRef i w).2)).2)
        as (_ & -> & _).
      cbn. destruct (same_but_refs_useRef i w) as (_ & _ & _ & -> & _).
      by rewrite updates_of_app.
  - rewrite exec_preload_started;
      [by rewrite app_nil_r | by apply phase_started | by apply drain_phase].
  - cbn [exec fst snd]. destruct (drain_fields (settle l o v w)) as (_ & -> & _).
    rewrite app_nil_r. f_equal. unfold settle.
    destruct (bool_decide _); [|done]. by destruct (heap w !! l) as [[| |]|].
Qed.

Lemma updates_run_phase evs w :
  refs_ok w -> phase w ->
  updates_of (thens (run evs w)) = updates_of (thens w) ++ suspended_renders evs w.
Proof.
  revert w. induction evs as [|e evs IH]; intros w Hr Hp.
  - cbn. by rewrite app_nil_r.
  - rewrite run_cons. cbn [suspended_renders].
    destruct (phase_exec e w Hr Hp) as [Hr' Hp'].
    rewrite (IH _ Hr' Hp'), (thens_exec_phase e w Hr Hp). by rewrite <- app_assoc.
Qed.

Lemma updates_run_init evs :
  updates_of (thens (run evs init)) = suspended_renders evs init.
Proof.
  induction evs as [|e evs IH]; [done|].
  rewrite run_cons. cbn [suspended_renders].
  destruct (exec_init e) as [[_ He] | (_ & Hr & Hl & Hres)].
  - rewrite He. cbn [fst snd]. rewrite IH. by destruct e.
  - rewrite (updates_run_phase evs _ Hr) by (by left). f_equal.
    destruct e as [i p| |l o v].
    + rewrite thens_render_init.
      destruct (exec_render_init i p) as (-> & _). done.
    + done.
    + done.
Qed.

(** X8.  The [ref.current] guard in [LazyComponent] never holds a
    registration back: every render attempt that throws registers its own
    [() => update(1)].  So once the load has fulfilled, [update(1)] has
    been called once for each render attempt that threw, in the order of
    the attempts (twice for an instance that was rendered twice while the
    load was in flight); before that, and for ever when the load rejects,
    it has not been called at all. *)
Theorem update_per_suspended_render evs :
  let w := run evs init in
  updates_of (thens w) = suspended_renders evs init /\
  (forall l m, load_calls w = [l] -> heap w !! l = Some (Fulfilled m) ->
               update_calls w = suspended_renders evs init) /\
  ((forall l m, load_calls w = [l] -> heap w !! l <> Some (Fulfilled m)) ->
   update_calls w = []).
Proof.
  intros w. pose proof (updates_run_init evs) as Hu. fold w in Hu.
  split; [done|].
  pose proof (reachable_inv evs) as Hinv. fold w in Hinv.
  destruct Hinv as [_ [Hw | Hph]].
  { rewrite Hw. split; [by intros l m [=] | done]. }
  destruct (phase_promise w Hph) as [_ Hl].
  destruct Hph as [H | [[e H] | [m H]]].
  - split.
    + intros l m' Hl' Hh. rewrite Hl in Hl'. injection Hl' as <-.
      rewrite (heap_load_pending w H) in Hh. done.
    + intros _. by destruct H as (_ & _ & _ & ?).
  - split.
    + intros l m' Hl' Hh. rewrite Hl in Hl'. injection Hl' as <-.
      rewrite (failed_load_rejected e w H) in Hh. done.
    + intros _. by destruct H as (_ & _ & _ & ?).
  - destruct H as (_ & H0 & _ & _ & _ & Hup). split.
    + intros _ _ _ _. by rewrite Hup.
    + intros Hn. by destruct (Hn 0%nat m Hl).
Qed.

Lemma update_per_suspended_render_witness :
  update_calls
    (run [Render 0 []; Render 0 []; Render 1 []; Settle 0 Fulfil (JFunction "C");
          Render 0 []] init) = [0%nat; 0%nat; 1%nat] /\
  update_calls (run [Render 0 []; Settle 0 Reject JNull; Render 0 []] init) = [].
Proof.
  destruct (update_per_suspended_render
              [Render 0 []; Render 0 []; Render 1 []; Settle 0 Fulfil (JFunction "C");
               Render 0 []]) as (_ & H1 & _).
  destruct (update_per_suspended_render
              [Render 0 []; Settle 0 Reject JNull; Render 0 []]) as (_ & _ & H2).
  split.
  - exact (H1 0%nat (JFunction "C") eq_refl eq_refl).
  - apply H2. intros l m Hl. vm_compute in Hl. injection Hl as <-. discriminate.
Defined.

(** ** A load that fulfils with [undefined] *)

Lemma default_or_self_undefined m : default_or_self m = JUndefined <-> m = JUndefined.
Proof.
  split; [|by intros ->].
  unfold default_or_self, js_or, js_and.
  destruct (truthy m) eqn:T.
  - destruct (truthy (get_default m)) eqn:T'; [|done].
    intros H. rewrite H in T'. done.
  - rewrite T. done.
Qed.

(** X9.  After the load fulfilled with any value other than [undefined],
    every later render attempt returns an element of the cached content
    ([null], [false] or [0] included); after it fulfilled with [undefined],
    [component] stays unset for ever and every later render attempt throws
    the fulfilled promise again, each time getting one more [update(1)]
    called at once. *)
Theorem load_fulfilled_with_undefined evs l m evs' i p :
  let w := run evs init in
  let w' := run (Settle l Fulfil m :: evs') w in
  load_calls w = [l] ->
  heap w !! l = Some Pending ->
  (m <> JUndefined ->
   (exec (Render i p) w').1 =
     Rendered (Return (createElement (default_or_self m) p))) /\
  (m = JUndefined ->
   component w' = JUndefined /\
   (exists pr, promise w' = Some pr /\
               heap w' !! pr = Some (Fulfilled JUndefined) /\
               (exec (Render i p) w').1 = Rendered (Throw pr)) /\
   update_calls (exec (Render i p) w').2 = update_calls w' ++ [i]).
Proof.
  intros w w' Hl Hh.
  destruct (loading_of_pending w l (reachable_inv evs) Hl Hh) as (-> & Hr & Hld).
  destruct (exec_fulfil w m Hr Hld) as (Hr1 & Hm1 & _).
  destruct (loaded_run m evs' _ Hr1 Hm1) as [Hr2 Hm2].
  change (run evs' (exec (Settle 0 Fulfil m) w).2) with w' in Hr2, Hm2.
  pose proof Hm2 as (Hs & _ & H1 & _ & Hc & Hup).
  destruct (exec_render_loaded m i p w' Hr2 Hm2) as (Hres & _ & Hm3).
  split.
  - intros Hne. rewrite Hres, Hc.
    destruct (is_defined (default_or_self m)) eqn:D; [done|].
    destruct (default_or_self m) eqn:E; try done.
    by pose proof (proj1 (default_or_self_undefined m) E).
  - intros ->. split_and!.
    + by rewrite Hc.
    + exists 1%nat. split_and!; [by apply (st_promise w') | done |].
      by rewrite Hres, Hc.
    + destruct Hm3 as (_ & _ & _ & _ & _ & ->). rewrite Hup.
      assert (phase w') as Hph by (right; right; eauto).
      pose proof (thens_exec_phase (Render i p) w' Hr2 Hph) as Ht.
      cbv beta iota in Ht. rewrite Hres, Hc in Ht. exact Ht.
Qed.

Lemma load_fulfilled_with_undefined_witness :
  (exec (Render 0 []) (run [Settle 0 Fulfil JNull] (run [Preload] init))).1 =
    Rendered (Return (createElement JNull [])) /\
  (exec (Render 0 [])
     (run [Settle 0 Fulfil JUndefined; Render 0 []] (run [Preload] init))).1 =
    Rendered (Throw 1).
Proof.
  destruct (load_fulfilled_with_undefined [Preload] 0%nat JNull [] 0%nat [])
    as [H1 _]; [reflexivity | reflexivity|].
  destruct (load_fulfilled_with_undefined [Preload] 0%nat JUndefined
              [Render 0 []] 0%nat [])
    as [_ H2]; [reflexivity | reflexivity|].
  split; [apply H1; discriminate|].
  destruct (H2 eq_refl) as (_ & (pr & Hpr & _ & Hres) & _).
  assert (pr = 1%nat) as -> by (vm_compute in Hpr; congruence).
  exact Hres.
Defined.

(** ** [preload()] on a wrapper whose load has started *)

(** X10.  Once the load has started, [preload()] changes nothing: it
    returns the promise held in [promise] and leaves the closure
    variables, the promises and the registered callbacks as they were (it
    registers no [update(1)], unlike a render attempt that throws).  Before
    that, it calls [load] once, registers the one callback of [loadModule]
    and leaves [component] unset. *)
Theorem preload_changes_nothing evs :
  let w := run evs init in
  (forall p, promise w = Some p -> exec Preload w = (Preloaded p, w)) /\
  (promise w = None ->
   exists l p,
     (exec Preload w).1 = Preloaded p /\
     promise (exec Preload w).2 = Some p /\
     load_calls (exec Preload w).2 = [l] /\
     thens (exec Preload w).2 =
       [{| source := l; onFulfilled := CbLoadModule; derived := p |}] /\
     component (exec Preload w).2 = JUndefined /\
     heap (exec Preload w).2 !! p = Some Pending).
Proof.
  intros w. pose proof (reachable_inv evs) as Hinv. fold w in Hinv.
  destruct Hinv as [_ [Hw | Hph]].
  - rewrite Hw. split; [by intros p [=]|]. intros _. by exists 0%nat, 1%nat.
  - destruct (phase_promise w Hph) as [Hpr _]. split; [|by rewrite Hpr].
    intros p Hp. rewrite Hpr in Hp. injection Hp as <-.
    apply exec_preload_started; [by apply phase_started | by apply drain_phase].
Qed.

Lemma preload_changes_nothing_witness :
  let w := run [Render 0 []; Settle 0 Reject JNull] init in
  exec Preload w = (Preloaded 1, w).
Proof.
  intros w.
  exact (proj1 (preload_changes_nothing [Render 0 []; Settle 0 Reject JNull])
           1%nat eq_refl).
Defined.

End LazyExtra.

(* ===================================================================== *)
(** * Properties of the [options.__b] hook of src/lazy.ts *)
(* ===================================================================== *)

Module DiffHookExtra.
Import DiffHookTs.

Lemma get_set_prop k v p : get_prop k (set_prop k v p) = v.
Proof.
  induction p as [|[k' v'] p IH]; cbn.
  - by rewrite String.eqb_refl.
  - destruct (String.eqb k' k) eqn:E; cbn; [by rewrite String.eqb_refl|].
    by rewrite E.
Qed.

Lemma get_set_prop_other k k0 v p :
  k0 <> k -> get_prop k0 (set_prop k v p) = get_prop k0 p.
Proof.
  intros Hne. induction p as [|[k' v'] p IH]; cbn.
  - by rewrite (proj2 (String.eqb_neq k k0)).
  - destruct (String.eqb k' k) eqn:E; cbn.
    + apply String.eqb_eq in E as ->.
      by rewrite (proj2 (String.eqb_neq k k0)).
    + by rewrite IH.
Qed.

(** X11.  The hook moves the [ref] of an element into its props exactly
    when the element's type is marked [_forwarded] and the ref is truthy:
    then [props.ref] is the ref, [vnode.ref] is [null] and every other prop
    is as it was; in every other case (a host element, a component without
    the mark, no ref) the element is left untouched.  The type is never
    changed, applying the hook a second time changes nothing more, and the
    previously installed hook, if any, is called with the element as the
    hook left it.  An element of a component made by [lazy] with a truthy
    ref is always forwarded. *)
Theorem ref_moved_into_props old vnode :
  let vnode' := (options__b old vnode).1 in
  type vnode' = type vnode /\
  (options__b old vnode).2 = (if old then Some vnode' else None) /\
  (forwards vnode = true ->
   ref vnode' = JNull /\
   get_prop "ref" (props vnode') = ref vnode /\
   forall k, k <> "ref"%string -> get_prop k (props vnode') = get_prop k (props vnode)) /\
  (forwards vnode = false -> vnode' = vnode) /\
  (options__b old vnode').1 = vnode' /\
  (type vnode = Lazy -> truthy (ref vnode) = true -> forwards vnode = true) /\
  (forall s, type vnode = TagName s -> vnode' = vnode).
Proof.
  unfold options__b. cbn [fst snd]. split_and!.
  - by destruct (forwards vnode).
  - done.
  - intros ->. cbn. split_and!; [done | apply get_set_prop|].
    intros k Hk. by apply get_set_prop_other.
  - by intros ->.
  - destruct (forwards vnode) eqn:F; [|by rewrite F].
    unfold forwards at 1. cbn. by rewrite andb_false_r.
  - intros Ht Hr. unfold forwards. by rewrite Ht, Hr.
  - intros s Ht. unfold forwards. rewrite Ht. cbn. by rewrite andb_false_r.
Qed.

Lemma ref_moved_into_props_witness :
  let vnode := {| type := Lazy; props := [("id", JNumber 1)];
                  ref := JFunction "setRef" |} in
  (options__b true vnode).1 =
    {| type := Lazy; props := [("id", JNumber 1); ("ref", JFunction "setRef")];
       ref := JNull |} /\
  get_prop "ref" (props (options__b true vnode).1) = JFunction "setRef" /\
  get_prop "id" (props (options__b true vnode).1) = JNumber 1.
Proof.
  intros vnode.
  destruct (ref_moved_into_props true vnode) as (_ & _ & H & _).
  destruct (H eq_refl) as (_ & Hr & Ho).
  split; [reflexivity|]. split; [exact Hr|].
  apply (Ho "id"%string). discriminate.
Defined.

(** X12.  A ref given to an element of a lazy component is handed on to
    the loaded component: the hook leaves the element without a ref of
    its own and with the ref under [ref] in its props, every other prop
    as given, and once [component] is set the wrapper rendered with those
    props returns [createElement(component, props)] for that very props
    object.  (What [createElement] does with a [ref] entry of the props is
    the host's.) *)
Theorem lazy_forwards_ref old evs i vnode :
  let w := LazyTs.run evs LazyTs.init in
  let vnode' := (options__b old vnode).1 in
  type vnode = Lazy ->
  truthy (ref vnode) = true ->
  is_defined (LazyTs.component w) = true ->
  (LazyTs.exec (LazyTs.Render i (props vnode')) w).1 =
    LazyTs.Rendered
      (LazyTs.Return (LazyTs.createElement (LazyTs.component w) (props vnode'))) /\
  ref vnode' = JNull /\
  get_prop "ref" (props vnode') = ref vnode /\
  forall k, k <> "ref"%string ->
            get_prop k (props vnode') = get_prop k (props vnode).
Proof.
  intros w vnode' Ht Hr Hd.
  assert (forwards vnode = true) as Hf by (unfold forwards; by rewrite Ht, Hr).
  split_and!.
  - pose proof (LazyExtra.reachable_inv evs) as [Hrefs [Hw | Hph]]; fold w in Hrefs.
    + fold w in Hw. by rewrite Hw in Hd.
    + fold w in Hph. by rewrite (LazyFacts.exec_render_phase i _ w Hrefs Hph), Hd.
  - unfold vnode', options__b. cbn. by rewrite Hf.
  - unfold vnode', options__b. cbn. rewrite Hf. cbn. apply get_set_prop.
  - intros k Hk. unfold vnode', options__b. cbn. rewrite Hf. cbn.
    by apply get_set_prop_other.
Qed.

Lemma lazy_forwards_ref_witness :
  let vnode := {| type := Lazy; props := [("id", JNumber 1)];
                  ref := JFunction "setRef" |} in
  let w := LazyTs.run [LazyTs.Preload; LazyTs.Settle 0 Fulfil (JFunction "C")]
             LazyTs.init in
  (LazyTs.exec (LazyTs.Render 0 (props (options__b false vnode).1)) w).1 =
    LazyTs.Rendered
      (LazyTs.Return
         (LazyTs.createElement (JFunction "C")
            [("id", JNumber 1); ("ref", JFunction "setRef")])) /\
  get_prop "ref" (props (options__b false vnode).1) = JFunction "setRef".
Proof.
  intros vnode w.
  destruct (lazy_forwards_ref false
              [LazyTs.Preload; LazyTs.Settle 0 Fulfil (JFunction "C")] 0%nat vnode)
    as (Hres & _ & Href & _); [reflexivity | reflexivity | reflexivity|].
  split; [exact Hres | exact Href].
Defined.

End DiffHookExtra.
